(** * ShutterCalculatorTable: exposure times under stacked ND filters

    A shallow embedding of [src/main.cpp] (namespace [shutter_calculator])
    and the properties of its specification.

    - C++ [int] is a 32-bit two's complement integer, embedded as [Z];
      operations whose result is undefined in C++ (signed overflow, a shift
      count outside the word, a floating-integral conversion out of range)
      return [None].
    - C++ [double] is IEEE 754 binary64, embedded as [spec_float] with the
      operations of [SpecFloat] at precision 53 and maximal exponent 1024,
      so every arithmetic step rounds exactly as the hardware does.
    - [std::string] is [string]; [std::vector<Filter>] and [std::array] are
      lists; the global [combinedFilters] is threaded as explicit state.
    - [std::sort] is embedded as libstdc++ implements it, next to its
      contract. *)

From Stdlib Require Import ZArith Lia Bool List String Ascii.
From Stdlib Require Import DecimalString.
From Stdlib Require Import Floats.SpecFloat.
From Stdlib Require Import Sorting.Sorted Sorting.Permutation.
From Stdlib Require Import Wf_nat.
Import ListNotations.

Open Scope string_scope.
Open Scope Z_scope.

(** ** Machine integers *)

Module Int.

Definition min_int : Z := - 2 ^ 31.
Definition max_int : Z := 2 ^ 31 - 1.

Definition in_range (z : Z) : bool := (min_int <=? z) && (z <=? max_int).

Definition check (z : Z) : option Z := if in_range z then Some z else None.

(** [a + b] on [int]: signed overflow has no defined result. *)
Definition add (a b : Z) : option Z := check (a + b).

(** [1 << n] on [int] (C++20): defined for [0 <= n < 32]; the bit shifted
    into the sign position gives the most negative value. *)
Definition shl1 (n : Z) : option Z :=
  if (0 <=? n) && (n <? 31) then Some (2 ^ n)
  else if n =? 31 then Some min_int
  else None.

End Int.

(** ** Text formatting ([std::format]) *)

Module Fmt.

Fixpoint replicate (n : nat) (c : ascii) : string :=
  match n with
  | O => EmptyString
  | S k => String c (replicate k c)
  end.

(** Right-justify [s] in a field of [w] characters, filling with [c];
    a longer [s] is not truncated. *)
Definition pad_left (w : nat) (c : ascii) (s : string) : string :=
  replicate (w - String.length s) c ++ s.

Definition pad_right (w : nat) (c : ascii) (s : string) : string :=
  s ++ replicate (w - String.length s) c.

(** [{}] on an [int]: decimal digits, a leading [-] when negative. *)
Definition dec (z : Z) : string := NilZero.string_of_int (Z.to_int z).

(** [{:w}] on an [int]: numbers are right-justified with spaces. *)
Definition int_width (w : nat) (z : Z) : string := pad_left w " " (dec z).

(** [{:0w}] on an [int]: zeros go between the sign and the digits. *)
Definition int_zero (w : nat) (z : Z) : string :=
  if z <? 0 then "-" ++ pad_left (w - 1) "0" (dec (- z))
  else pad_left w "0" (dec z).

(** [{:w}] on a [char]: characters are left-justified. *)
Definition char_width (w : nat) (c : ascii) : string :=
  pad_right w " " (String c EmptyString).

(** The seconds mark, code point 34. *)
Definition dquote : string := String (ascii_of_nat 34) EmptyString.

(** [{: >w}] on a string. *)
Definition str_right (w : nat) (s : string) : string := pad_left w " " s.

End Fmt.

(** ** Binary64 floating point *)

Module Double.

Definition prec : Z := 53.
Definition emax : Z := 1024.

Definition double := spec_float.

(** [spec_float] is wider than the format: a binary64 number is one whose
    mantissa and exponent are in canonical position, within range. *)
Definition valid (x : double) : bool := valid_binary prec emax x.

Definition mul : double -> double -> double := SFmul prec emax.
Definition div : double -> double -> double := SFdiv prec emax.
Definition add : double -> double -> double := SFadd prec emax.
Definition sub : double -> double -> double := SFsub prec emax.
Definition leb : double -> double -> bool := SFleb.

(** The double nearest to [m * 2^e]; exact when [m] has at most 53 bits
    and the exponent is in range. *)
Definition make (m e : Z) : double := binary_normalize prec emax m e false.

(** Integral-to-floating conversion of an [int]: always exact. *)
Definition of_int (z : Z) : double := make z 0.

(** The signed mantissa of a finite, non-zero double. *)
Definition smant (s : bool) (m : positive) : Z := cond_Zopp s (Zpos m).

(** Any double with a non-negative exponent is an integer already;
    otherwise the integer below, above, or nearest (halves away from
    zero) is exactly representable, and a zero result keeps the sign of
    the argument. [Z.shiftl z e] with [e < 0] is the floor of
    [z / 2^(-e)]. *)
Definition floor (x : double) : double :=
  match x with
  | S754_finite s m e =>
      if 0 <=? e then x
      else binary_normalize prec emax (Z.shiftl (smant s m) e) 0 s
  | _ => x
  end.

Definition ceil (x : double) : double :=
  match x with
  | S754_finite s m e =>
      if 0 <=? e then x
      else binary_normalize prec emax (- Z.shiftl (- smant s m) e) 0 s
  | _ => x
  end.

Definition round (x : double) : double :=
  match x with
  | S754_finite s m e =>
      if 0 <=? e then x
      else binary_normalize prec emax
             (cond_Zopp s (Z.shiftl (2 * Zpos m + 2 ^ (- e)) (e - 1))) 0 s
  | _ => x
  end.

(** Floating-integral conversion to [int]: truncates toward zero; the
    result is undefined when the truncated value does not fit, and for
    infinities and NaN. *)
Definition to_int (x : double) : option Z :=
  match x with
  | S754_zero _ => Some 0
  | S754_finite s m e => Int.check (cond_Zopp s (Z.shiftl (Zpos m) e))
  | _ => None
  end.

(** The value of a finite double counted in units of [2^-1074], the
    spacing of the subnormal numbers: every valid finite double is a whole
    number of them. Infinities and NaN have no value. *)
Definition units (x : double) : option Z :=
  match x with
  | S754_zero _ => Some 0
  | S754_finite s m e => Some (cond_Zopp s (Zpos m * 2 ^ (e + 1074)))
  | _ => None
  end.

Definition zero : double := S754_zero false.

(** Literals of the source; all are exactly representable. *)
Definition lit_0_25 : double := make 1 (-2).
Definition lit_1_0 : double := make 1 0.
Definition lit_10_0 : double := make 10 0.
Definition lit_30_0 : double := make 30 0.

End Double.

(** ** A small option monad for the partial operations *)

Definition bind {A B : Type} (o : option A) (k : A -> option B) : option B :=
  match o with
  | Some a => k a
  | None => None
  end.

Notation "x <- o ;; k" := (bind o (fun x => k))
  (at level 61, o at next level, right associativity).

(** ** [struct Filter] *)

Record Filter : Type := mkFilter { stops : Z; name : string }.

(** [operator<=>] compares the stop counts only; [std::sort] uses the
    [operator<] synthesised from it. *)
Definition Filter_cmp (a b : Filter) : comparison := stops a ?= stops b.

Definition Filter_lt (a b : Filter) : bool :=
  match Filter_cmp a b with
  | Lt => true
  | _ => false
  end.

(** [operator+] *)
Definition Filter_add (a b : Filter) : option Filter :=
  s <- Int.add (stops a) (stops b) ;;
  Some {| stops := s; name := name a ++ " " ++ name b |}.

(** [Filter::toString] *)
Definition Filter_toString (f : Filter) : string := Fmt.str_right 7 (name f).

(** ** [struct Shutter] *)

Record Shutter : Type := mkShutter { time : Double.double }.

(** [Shutter(initFraction)] *)
Definition Shutter_frac (initFraction : Z) : Shutter :=
  {| time := Double.div Double.lit_1_0 (Double.of_int initFraction) |}.

(** [Shutter(initSeconds, initHundredsMiliseconds)] *)
Definition Shutter_secs (initSeconds initHundredsMiliseconds : Z) : Shutter :=
  {| time := Double.add (Double.of_int initSeconds)
               (Double.div (Double.of_int initHundredsMiliseconds)
                  Double.lit_10_0) |}.

(** [Shutter::doubleToString] *)
Definition doubleToString (input : Double.double) : option string :=
  if Double.leb input Double.lit_0_25 then
    n <- Double.to_int (Double.round (Double.div Double.lit_1_0 input)) ;;
    Some (Fmt.int_width 7 n)
  else if Double.leb input Double.lit_30_0 then
    second <- Double.to_int (Double.floor input) ;;
    leftOver <- Double.to_int
                  (Double.round
                     (Double.mul (Double.sub input (Double.of_int second))
                        (Double.of_int 10))) ;;
    Some (Fmt.int_width 5 second ++ Fmt.dquote ++ Fmt.dec leftOver)
  else
    secondTotal <- Double.to_int (Double.ceil input) ;;
    let minutesTotal := Z.quot secondTotal 60 in
    let seconds := Z.rem secondTotal 60 in
    if minutesTotal <=? 60 then
      Some (Fmt.int_width 2 minutesTotal ++ "' " ++ Fmt.int_zero 2 seconds
              ++ Fmt.dquote)
    else
      let hours := Z.quot minutesTotal 60 in
      let minutes := Z.rem minutesTotal 60 in
      if 99 <? hours then Some (Fmt.char_width 7 "x")
      else Some (Fmt.int_width 2 hours ++ "h " ++ Fmt.int_zero 2 minutes
                   ++ "'").

(** [Shutter::toStringWithFilterStops]: the product [time * (1 << stops)]
    converts the shifted [int] to [double] first. *)
Definition applyStops (d : Shutter) (stops : Z) : option Double.double :=
  k <- Int.shl1 stops ;;
  Some (Double.mul (time d) (Double.of_int k)).

Definition toStringWithFilterStops (d : Shutter) (stops : Z) : option string :=
  increasedShutterTime <- applyStops d stops ;;
  doubleToString increasedShutterTime.

(** [Shutter::toString] *)
Definition Shutter_toString (d : Shutter) : option string :=
  doubleToString (time d).

(** ** The fixed tables *)

Definition filters : list Filter :=
  [ mkFilter 10 "1k"; mkFilter 6 "64"; mkFilter 3 "8"; mkFilter 2 "4" ].

Definition shutters : list Shutter :=
  map Shutter_frac
    [ 4000; 3200; 2500; 2000; 1600; 1250; 1000; 800; 640; 500; 400; 320;
      250; 200; 160; 125; 100; 80; 60; 50; 40; 30; 25; 20; 15; 13; 10; 8;
      6; 5; 4 ]
  ++ map (fun p => Shutter_secs (fst p) (snd p))
    [ (0, 3); (0, 4); (0, 5); (0, 6); (0, 8); (1, 0); (1, 3); (1, 6);
      (2, 0); (2, 5); (3, 2); (4, 0); (5, 0); (6, 0); (8, 0); (10, 0);
      (13, 0); (15, 0); (20, 0); (25, 0); (30, 0) ].

(** ** Building [combinedFilters]

    The global vector is the state; [push_back] appends at the end.
    [filters[i]] on the [std::array] is [nth_error]; the indices used by the
    source are all in range. *)

Definition at_ (i : nat) : option Filter := nth_error filters i.

Definition push_back (v : list Filter) (f : Filter) : list Filter :=
  (v ++ [f])%list.

(** The inner loop [for (j = i+1; j < 4; j++)], counting the remaining
    iterations. *)
Fixpoint pairs_inner (i j : nat) (todo : nat) (v : list Filter)
  : option (list Filter) :=
  match todo with
  | O => Some v
  | S todo' =>
      a <- at_ i ;; b <- at_ j ;; c <- Filter_add a b ;;
      pairs_inner i (S j) todo' (push_back v c)
  end.

(** The outer loop [for (i = 0; i < 4-1; i++)]. *)
Fixpoint pairs_outer (i : nat) (todo : nat) (v : list Filter)
  : option (list Filter) :=
  match todo with
  | O => Some v
  | S todo' =>
      v' <- pairs_inner i (S i) (4 - S i) v ;;
      pairs_outer (S i) todo' v'
  end.

Definition populateFiltersWithGeneratedCombinations (v : list Filter)
  : option (list Filter) :=
  pairs_outer 0 (4 - 1) (fold_left push_back filters v).

Definition populateFiltersWithHandPickedCombinations (v : list Filter)
  : option (list Filter) :=
  f0 <- at_ 0 ;; f1 <- at_ 1 ;; f2 <- at_ 2 ;; f3 <- at_ 3 ;;
  a <- Filter_add f0 f1 ;; a' <- Filter_add a f3 ;;
  b <- Filter_add f0 f2 ;; b' <- Filter_add b f3 ;;
  Some (push_back (push_back v a') b').

(** ** [sortFilters]

    [std::sort] is library code. Its contract: the range is rearranged (a
    permutation of what was there) so that no element is less than one
    before it. It is not [std::stable_sort]: the order of elements that
    compare equal is left open. *)

Definition not_less (a b : Filter) : Prop := Filter_lt b a = false.

Definition std_sort_post (before after : list Filter) : Prop :=
  Permutation before after /\ StronglySorted not_less after.

Definition sortFilters_post := std_sort_post.

(** One admissible [std::sort]: straight insertion, the algorithm libstdc++
    runs on ranges of at most 16 elements. Each element in turn is placed
    in the sorted prefix behind everything that is not greater. *)
Fixpoint insert_sorted (x : Filter) (l : list Filter) : list Filter :=
  match l with
  | [] => [x]
  | y :: l' => if Filter_lt x y then x :: y :: l'
               else y :: insert_sorted x l'
  end.

Definition insertion_sort (l : list Filter) : list Filter :=
  fold_left (fun acc x => insert_sorted x acc) l [].

(** Stability, as the specification words it: for every stop count, the
    entries with that count appear in the same order before and after. *)
Definition with_stops (n : Z) (l : list Filter) : list Filter :=
  filter (fun f => stops f =? n) l.

Definition order_stable (before after : list Filter) : Prop :=
  forall n, with_stops n after = with_stops n before.

(** ** [std::sort] as libstdc++ implements it

    [sortFilters] hands the whole vector to [std::sort], which is library
    code: the introsort of libstdc++ ([bits/stl_algo.h], [bits/stl_heap.h]),
    embedded here routine by routine under the names it has there. The
    vector is a list, an iterator is an index into it, and a read or
    write outside the vector has no defined result. An element that was
    moved from is always assigned before it is read again, so a move is
    a copy here. *)

Module Std.

Section Sort.

Local Open Scope nat_scope.

Variable A : Type.

(** [comp(x, y)]: for [Filter] the [operator<] taken from [operator<=>]. *)
Variable comp : A -> A -> bool.

Definition get (a : list A) (i : nat) : option A := nth_error a i.

Fixpoint set (a : list A) (i : nat) (x : A) : option (list A) :=
  match a, i with
  | [], _ => None
  | _ :: t, O => Some (x :: t)
  | h :: t, S i' => t' <- set t i' x ;; Some (h :: t')
  end.

Definition iter_swap (a : list A) (i j : nat) : option (list A) :=
  x <- get a i ;;
  y <- get a j ;;
  a' <- set a i y ;;
  set a' j x.

(** [_S_threshold] *)
Definition S_threshold : nat := 16.

(** *** Insertion sort *)

(** The loop of [__unguarded_linear_insert]: [last] is the free place,
    [next = last - 1] the element looked at. Nothing stops the loop at the
    start of the vector. *)
Fixpoint linear_insert_loop (a : list A) (val : A) (last : nat)
  : option (list A) :=
  match last with
  | O => None
  | S next =>
      y <- get a next ;;
      if comp val y
      then a' <- set a last y ;; linear_insert_loop a' val next
      else set a last val
  end.

Definition unguarded_linear_insert (a : list A) (last : nat)
  : option (list A) :=
  val <- get a last ;;
  linear_insert_loop a val last.

(** [std::move_backward(first, first + n, first + n + 1)]: the [n]
    elements from [first] go one place up, the last of them first. *)
Fixpoint move_backward (a : list A) (first n : nat) : option (list A) :=
  match n with
  | O => Some a
  | S n' =>
      x <- get a (first + n') ;;
      a' <- set a (first + S n') x ;;
      move_backward a' first n'
  end.

(** The [for] loop of [__insertion_sort], [n] elements from [i] on still
    to be placed. *)
Fixpoint insertion_sort_loop (a : list A) (first i n : nat)
  : option (list A) :=
  match n with
  | O => Some a
  | S n' =>
      x <- get a i ;;
      f <- get a first ;;
      a' <- (if comp x f
             then a1 <- move_backward a first (i - first) ;; set a1 first x
             else unguarded_linear_insert a i) ;;
      insertion_sort_loop a' first (S i) n'
  end.

Definition insertion_sort (a : list A) (first last : nat)
  : option (list A) :=
  if first =? last then Some a
  else insertion_sort_loop a first (S first) (last - S first).

(** [__unguarded_insertion_sort], [n = last - first]. *)
Fixpoint unguarded_insertion_sort (a : list A) (first n : nat)
  : option (list A) :=
  match n with
  | O => Some a
  | S n' =>
      a' <- unguarded_linear_insert a first ;;
      unguarded_insertion_sort a' (S first) n'
  end.

Definition final_insertion_sort (a : list A) (first last : nat)
  : option (list A) :=
  if S_threshold <? last - first
  then a' <- insertion_sort a first (first + S_threshold) ;;
       unguarded_insertion_sort a' (first + S_threshold)
         (last - (first + S_threshold))
  else insertion_sort a first last.

(** *** Partition *)

Definition move_median_to_first (v : list A) (result a b c : nat)
  : option (list A) :=
  xa <- get v a ;;
  xb <- get v b ;;
  xc <- get v c ;;
  if comp xa xb
  then if comp xb xc then iter_swap v result b
       else if comp xa xc then iter_swap v result c
       else iter_swap v result a
  else if comp xa xc then iter_swap v result a
  else if comp xb xc then iter_swap v result c
  else iter_swap v result b.

(** [while (comp(first, pivot)) ++first;] with [n] places left up to the
    end of the vector. *)
Fixpoint scan_up (a : list A) (pivot first n : nat) : option nat :=
  match n with
  | O => None
  | S n' =>
      x <- get a first ;;
      p <- get a pivot ;;
      if comp x p then scan_up a pivot (S first) n' else Some first
  end.

(** [--last; while (comp(pivot, last)) --last;] *)
Fixpoint scan_down (a : list A) (pivot last : nat) : option nat :=
  match last with
  | O => None
  | S l =>
      x <- get a l ;;
      p <- get a pivot ;;
      if comp p x then scan_down a pivot l else Some l
  end.

(** [__unguarded_partition]; every turn of the outer loop moves [first]
    up, so [fuel] turns are enough when [fuel] is the length of the
    vector. *)
Fixpoint unguarded_partition (fuel : nat) (a : list A)
    (first last pivot : nat) : option (list A * nat) :=
  match fuel with
  | O => None
  | S fuel' =>
      f <- scan_up a pivot first (List.length a - first) ;;
      l <- scan_down a pivot last ;;
      if f <? l
      then a' <- iter_swap a f l ;;
           unguarded_partition fuel' a' (S f) l pivot
      else Some (a, f)
  end.

Definition unguarded_partition_pivot (a : list A) (first last : nat)
  : option (list A * nat) :=
  let mid := first + (last - first) / 2 in
  a' <- move_median_to_first a first (first + 1) mid (last - 1) ;;
  unguarded_partition (List.length a) a' (first + 1) last first.

(** *** Heap sort, the fall-back *)

(** [__push_heap]; the hole moves towards the top, [fuel] bounds the
    turns. *)
Fixpoint push_heap (fuel : nat) (a : list A)
    (first holeIndex topIndex : nat) (value : A) : option (list A) :=
  let parent := (holeIndex - 1) / 2 in
  match fuel with
  | O => None
  | S fuel' =>
      if topIndex <? holeIndex
      then p <- get a (first + parent) ;;
           if comp p value
           then a' <- set a (first + holeIndex) p ;;
                push_heap fuel' a' first parent topIndex value
           else set a (first + holeIndex) value
      else set a (first + holeIndex) value
  end.

(** The first loop of [__adjust_heap]: the hole sinks to the larger
    child. Returns the vector and the place of the hole. *)
Fixpoint sink (fuel : nat) (a : list A) (first holeIndex len : nat)
  : option (list A * nat) :=
  match fuel with
  | O => None
  | S fuel' =>
      if holeIndex <? (len - 1) / 2
      then let secondChild := 2 * (holeIndex + 1) in
           r <- get a (first + secondChild) ;;
           l <- get a (first + (secondChild - 1)) ;;
           let secondChild := if comp r l then secondChild - 1
                              else secondChild in
           x <- get a (first + secondChild) ;;
           a' <- set a (first + holeIndex) x ;;
           sink fuel' a' first secondChild len
      else Some (a, holeIndex)
  end.

(** [__adjust_heap]. Distances are never negative here, so the halves
    are those of C++. *)
Definition adjust_heap (a : list A) (first holeIndex len : nat) (value : A)
  : option (list A) :=
  let topIndex := holeIndex in
  r <- sink (S len) a first holeIndex len ;;
  let (a1, secondChild) := (r : list A * nat) in
  r' <- (if Nat.even len && (secondChild =? (len - 2) / 2)
         then let secondChild' := 2 * (secondChild + 1) in
              x <- get a1 (first + (secondChild' - 1)) ;;
              a2 <- set a1 (first + secondChild) x ;;
              Some (a2, secondChild' - 1)
         else Some (a1, secondChild)) ;;
  let (a2, holeIndex') := (r' : list A * nat) in
  push_heap (S holeIndex') a2 first holeIndex' topIndex value.

(** [__pop_heap(first, last, result)] *)
Definition pop_heap (a : list A) (first last result : nat)
  : option (list A) :=
  value <- get a result ;;
  top <- get a first ;;
  a' <- set a result top ;;
  adjust_heap a' first 0 (last - first) value.

(** The loop of [__make_heap], from [parent] down to 0. *)
Fixpoint make_heap_loop (parent : nat) (a : list A) (first len : nat)
  : option (list A) :=
  value <- get a (first + parent) ;;
  a' <- adjust_heap a first parent len value ;;
  match parent with
  | O => Some a'
  | S parent' => make_heap_loop parent' a' first len
  end.

Definition make_heap (a : list A) (first last : nat) : option (list A) :=
  if last - first <? 2 then Some a
  else let len := last - first in
       make_heap_loop ((len - 2) / 2) a first len.

(** [__sort_heap], [n = last - first]. *)
Fixpoint sort_heap (a : list A) (first n : nat) : option (list A) :=
  match n with
  | S (S _ as n') =>
      a' <- pop_heap a first (first + n') (first + n') ;;
      sort_heap a' first n'
  | _ => Some a
  end.

(** The [for] loop of [__heap_select], [n] elements from [i] on. *)
Fixpoint heap_select_loop (a : list A) (first middle i n : nat)
  : option (list A) :=
  match n with
  | O => Some a
  | S n' =>
      x <- get a i ;;
      top <- get a first ;;
      a' <- (if comp x top then pop_heap a first middle i else Some a) ;;
      heap_select_loop a' first middle (S i) n'
  end.

Definition heap_select (a : list A) (first middle last : nat)
  : option (list A) :=
  a' <- make_heap a first middle ;;
  heap_select_loop a' first middle middle (last - middle).

Definition partial_sort (a : list A) (first middle last : nat)
  : option (list A) :=
  a' <- heap_select a first middle last ;;
  sort_heap a' first (middle - first).

(** *** Introsort *)

(** [__introsort_loop]. A turn of its [while] loop takes one from
    [depth_limit], sorts the upper part by a call of its own and goes on
    with the lower part, which is the second call here. *)
Fixpoint introsort_loop (depth_limit : nat) (a : list A) (first last : nat)
  : option (list A) :=
  if S_threshold <? last - first
  then match depth_limit with
       | O => partial_sort a first last last
       | S depth_limit' =>
           r <- unguarded_partition_pivot a first last ;;
           let (a1, cut) := (r : list A * nat) in
           a2 <- introsort_loop depth_limit' a1 cut last ;;
           introsort_loop depth_limit' a2 first cut
       end
  else Some a.

(** [std::sort(v.begin(), v.end())] *)
Definition sort (a : list A) : option (list A) :=
  let last := List.length a in
  if last =? 0 then Some a
  else a' <- introsort_loop (Nat.log2 last * 2) a 0 last ;;
       final_insertion_sort a' 0 last.

End Sort.

Arguments get {A} a i.
Arguments set {A} a i x.
Arguments iter_swap {A} a i j.
Arguments linear_insert_loop {A} comp a val last.
Arguments unguarded_linear_insert {A} comp a last.
Arguments move_backward {A} a first n.
Arguments insertion_sort_loop {A} comp a first i n.
Arguments insertion_sort {A} comp a first last.
Arguments unguarded_insertion_sort {A} comp a first n.
Arguments final_insertion_sort {A} comp a first last.
Arguments move_median_to_first {A} comp v result a b c.
Arguments scan_up {A} comp a pivot first n.
Arguments scan_down {A} comp a pivot last.
Arguments unguarded_partition {A} comp fuel a first last pivot.
Arguments unguarded_partition_pivot {A} comp a first last.
Arguments push_heap {A} comp fuel a first holeIndex topIndex value.
Arguments sink {A} comp fuel a first holeIndex len.
Arguments adjust_heap {A} comp a first holeIndex len value.
Arguments pop_heap {A} comp a first last result.
Arguments make_heap_loop {A} comp parent a first len.
Arguments make_heap {A} comp a first last.
Arguments sort_heap {A} comp a first n.
Arguments heap_select_loop {A} comp a first middle i n.
Arguments heap_select {A} comp a first middle last.
Arguments partial_sort {A} comp a first middle last.
Arguments introsort_loop {A} comp depth_limit a first last.
Arguments sort {A} comp a.

End Std.

(** [sortFilters]: [std::sort(combinedFilters.begin(), combinedFilters.end())]
    with the [operator<] of [Filter]. *)
Definition sortFilters (v : list Filter) : option (list Filter) :=
  Std.sort Filter_lt v.


(** ** Vocabulary for the properties of [std::sort] *)

(** The vector [a] with [x] at place [i]. *)
Definition upd {A : Type} (a : list A) (i : nat) (x : A) : list A :=
  firstn i a ++ x :: skipn (S i) a.

(** The elements of [a] from [first] up to [last], [last] not included. *)
Definition slice {A : Type} (first last : nat) (a : list A) : list A :=
  firstn (last - first) (skipn first a).

Definition dflt : Filter := mkFilter 0 EmptyString.

(** The stops of the entry at place [i]. *)
Definition key (a : list Filter) (i : nat) : Z := stops (nth i a dflt).

(** Place [h] of a heap lies in the subtree under place [top]; the
    children of [h] are [2h + 1] and [2h + 2]. *)
Inductive below (top : nat) : nat -> Prop :=
| below_top : below top top
| below_left h : below top h -> below top (2 * h + 1)
| below_right h : below top h -> below top (2 * h + 2).

(** The [len] entries from [first] on are a heap at every place whose
    parent is [k] or later: no entry there is greater than its parent. *)
Definition heap_from (a : list Filter) (first len k : nat) : Prop :=
  forall j, (1 <= j < len)%nat -> (k <= (j - 1) / 2)%nat ->
    key a (first + j) <= key a (first + (j - 1) / 2).

(** The same with a hole at [h], whose content does not count: the heap
    order holds wherever [h] is not involved, and the children of [h] are
    not greater than the parent of [h]. *)
Definition hole_inv (a : list Filter) (first len top h : nat) : Prop :=
  (forall j, (1 <= j < len)%nat -> (top <= (j - 1) / 2)%nat ->
     j <> h -> ((j - 1) / 2)%nat <> h ->
     key a (first + j) <= key a (first + (j - 1) / 2))
  /\ (h <> top ->
      forall j, (1 <= j < len)%nat -> ((j - 1) / 2)%nat = h ->
        key a (first + j) <= key a (first + (h - 1) / 2)).

(** The entries from [first] up to [last] are in non-decreasing order. *)
Definition sorted_range (a : list Filter) (first last : nat) : Prop :=
  forall i j, (first <= i)%nat -> (i <= j)%nat -> (j < last)%nat ->
    key a i <= key a j.

(** What [__introsort_loop] leaves for the last pass: entries 16 places
    apart are in order. *)
Definition nearly_sorted (a : list Filter) (first last : nat) : Prop :=
  forall i, (first + 16 <= i)%nat -> (i < last)%nat ->
    key a (i - 16) <= key a i.

(** [a'] holds the entries of [a], moved only inside [first, last). *)
Definition rearranged (first last : nat) (a a' : list Filter) : Prop :=
  List.length a' = List.length a
  /\ Permutation a a'
  /\ forall j, (j < first \/ last <= j)%nat -> nth j a' dflt = nth j a dflt.

(** ** Rendering

    Standard output is a list of finished lines; every display function of
    the source ends its output with [std::endl]. *)

Fixpoint concat_map {A : Type} (f : A -> option string) (l : list A)
  : option string :=
  match l with
  | [] => Some EmptyString
  | a :: l' => s <- f a ;; r <- concat_map f l' ;; Some (s ++ r)
  end.

(** [displayMarkdownTableHeader] *)
Definition displayMarkdownTableHeader (cf : list Filter) : list string :=
  [ "| no ND   | "
      ++ String.concat EmptyString
           (map (fun f => Filter_toString f ++ " | ") cf);
    "| ------- | "
      ++ String.concat EmptyString (map (fun _ => "------- | ") cf) ].

Definition markdownRow (cf : list Filter) (shutter : Shutter)
  : option string :=
  own <- Shutter_toString shutter ;;
  cells <- concat_map
             (fun f => s <- toStringWithFilterStops shutter (stops f) ;;
                       Some (s ++ " | ")) cf ;;
  Some ("| " ++ own ++ " | " ++ cells).

Fixpoint map_opt {A B : Type} (f : A -> option B) (l : list A)
  : option (list B) :=
  match l with
  | [] => Some []
  | a :: l' => b <- f a ;; r <- map_opt f l' ;; Some (b :: r)
  end.

(** [displayMarkdownTable] *)
Definition displayMarkdownTable (shs : list Shutter) (cf : list Filter)
  : option (list string) :=
  rows <- map_opt (markdownRow cf) shs ;;
  Some (displayMarkdownTableHeader cf ++ rows)%list.

(** [displayCsvHeader]: an empty line, then the labels. *)
Definition displayCsvHeader (cf : list Filter) : list string :=
  [ EmptyString;
    "  no ND"
      ++ String.concat EmptyString
           (map (fun f => ",  " ++ Filter_toString f) cf) ].

(** [displayCsvRow] *)
Definition displayCsvRow (cf : list Filter) (shutter : Shutter)
  : option string :=
  own <- Shutter_toString shutter ;;
  cells <- concat_map
             (fun f => s <- toStringWithFilterStops shutter (stops f) ;;
                       Some (",  " ++ s)) cf ;;
  Some (own ++ cells).

(** [i % middle] on [int]: no result for a zero divisor. *)
Definition int_rem (a b : Z) : option Z :=
  if b =? 0 then None else Some (Z.rem a b).

(** The loop of [displayCsvTable] from row [i] on; [rest] holds
    [shutters[i..]]. *)
Fixpoint csvLoop (cf : list Filter) (middle : Z) (i : Z)
  (rest : list Shutter) : option (list string) :=
  match rest with
  | [] => Some []
  | shutter :: rest' =>
      r <- int_rem i middle ;;
      row <- displayCsvRow cf shutter ;;
      tail <- csvLoop cf middle (i + 1) rest' ;;
      Some ((if r =? 0 then displayCsvHeader cf else []) ++ row :: tail)%list
  end.

(** [displayCsvTable]. The source walks the fixed array and reads its
    length off it; here the array is an argument, [main] passes
    [shutters]. *)
Definition displayCsvTable (shs : list Shutter) (cf : list Filter)
  : option (list string) :=
  let shuttersCount := Z.of_nat (List.length shs) in
  let middle := Z.quot shuttersCount 2 in
  csvLoop cf middle 0 shs.

(** ** [main]

    [initCombinedFilters] is the state after the two populate calls. The
    complete run sorts by insertion; no other outcome of [std::sort] is
    possible for these combinations, their stops being all different. *)

Definition initCombinedFilters : option (list Filter) :=
  v <- populateFiltersWithGeneratedCombinations [] ;;
  populateFiltersWithHandPickedCombinations v.

Definition main : option (list string) :=
  v <- initCombinedFilters ;;
  let cf := insertion_sort v in
  md <- displayMarkdownTable shutters cf ;;
  csv <- displayCsvTable shutters cf ;;
  Some (md ++ csv)%list.

(** ** Vocabulary of the specification *)

(** The double a decimal literal [n/d] denotes: the correctly rounded
    quotient of two exactly representable integers. *)
Definition decimal (n d : Z) : Double.double :=
  Double.div (Double.of_int n) (Double.of_int d).


(** A cell of the rendered tables is well formed when the formatter
    returns and the text is seven characters wide. *)
Definition seven_wide (cell : option string) : Prop :=
  exists t, cell = Some t /\ String.length t = 7%nat.

Definition seven_wideb (cell : option string) : bool :=
  match cell with
  | Some t => Nat.eqb (String.length t) 7
  | None => false
  end.

(** ** Vocabulary of the further properties *)

(** The two tables for a given list of combinations, as [main] prints
    them. *)
Definition render (cf : list Filter) : option (list string) :=
  md <- displayMarkdownTable shutters cf ;;
  csv <- displayCsvTable shutters cf ;;
  Some (md ++ csv)%list.

(** What [main] may print, with [std::sort] taken by its contract: the
    tables for any arrangement the sort may leave. *)
Definition main_post (out : list string) : Prop :=
  exists v after,
    initCombinedFilters = Some v
    /\ sortFilters_post v after
    /\ render after = Some out.

Definition opt_string_eqb (a : option string) (b : string) : bool :=
  match a with
  | Some t => String.eqb t b
  | None => false
  end.

(** * Properties *)

(** ** Binary64 arithmetic *)

Section DoubleFacts.

Local Notation "'fexp64'" := (fexp Double.prec Double.emax).
Local Notation "'round_aux'" := (binary_round_aux Double.prec Double.emax).
Local Notation "'canonical'" := (canonical_mantissa Double.prec Double.emax).

Lemma digits2_bounds p :
  2 ^ (Zpos (digits2_pos p) - 1) <= Zpos p < 2 ^ Zpos (digits2_pos p).
Proof.
  induction p as [p IH|p IH|]; simpl digits2_pos.
  - rewrite Pos2Z.inj_succ.
    replace (Z.succ (Zpos (digits2_pos p)) - 1) with (Zpos (digits2_pos p)) by lia.
    rewrite Z.pow_succ_r by lia.
    assert (H : 2 ^ Zpos (digits2_pos p) = 2 * 2 ^ (Zpos (digits2_pos p) - 1)).
    { rewrite <- Z.pow_succ_r by lia. f_equal. lia. }
    lia.
  - rewrite Pos2Z.inj_succ.
    replace (Z.succ (Zpos (digits2_pos p)) - 1) with (Zpos (digits2_pos p)) by lia.
    rewrite Z.pow_succ_r by lia.
    assert (H : 2 ^ Zpos (digits2_pos p) = 2 * 2 ^ (Zpos (digits2_pos p) - 1)).
    { rewrite <- Z.pow_succ_r by lia. f_equal. lia. }
    lia.
  - simpl. lia.
Qed.

Lemma digits2_unique p d :
  2 ^ (d - 1) <= Zpos p < 2 ^ d -> Zpos (digits2_pos p) = d.
Proof.
  intros [Hl Hu]. pose proof (digits2_bounds p) as [Bl Bu].
  assert (0 < d).
  { destruct (Z_lt_le_dec 0 d); [assumption|].
    exfalso. destruct (Z.eq_dec d 0) as [->|].
    - simpl in Hu. lia.
    - rewrite Z.pow_neg_r in Hu by lia. lia. }
  destruct (Z_lt_le_dec (Zpos (digits2_pos p)) d) as [L|L].
  - exfalso.
    assert (2 ^ Zpos (digits2_pos p) <= 2 ^ (d - 1))
      by (apply Z.pow_le_mono_r; lia).
    lia.
  - destruct (Z_lt_le_dec d (Zpos (digits2_pos p))) as [G|G]; [|lia].
    exfalso.
    assert (2 ^ d <= 2 ^ (Zpos (digits2_pos p) - 1))
      by (apply Z.pow_le_mono_r; lia).
    lia.
Qed.

Lemma iter_xO m k : Zpos (Pos.iter xO m k) = Zpos m * 2 ^ Zpos k.
Proof.
  change (Pos.iter xO m k) with (shift_pos k m).
  rewrite Zpower.shift_pos_correct. 
  change (Zpower_pos 2 k) with (2 ^ Zpos k). lia.
Qed.

Lemma pow2_xO p : 2 ^ Zpos p~0 = 2 ^ Zpos p * 2 ^ Zpos p.
Proof.
  rewrite <- Z.pow_add_r by lia. f_equal. lia.
Qed.

Lemma pow2_xI p : 2 ^ Zpos p~1 = 2 * (2 ^ Zpos p * 2 ^ Zpos p).
Proof.
  rewrite <- Z.pow_add_r by lia. rewrite <- Z.pow_succ_r by lia.
  f_equal. lia.
Qed.

(** Halving a record [k] times. *)
Lemma shr_1_m mrs : 0 <= shr_m mrs -> shr_m (shr_1 mrs) = shr_m mrs / 2.
Proof.
  destruct mrs as [m r s]; simpl. intros H.
  destruct m as [|p|p]; [reflexivity| |lia].
  destruct p as [p|p|]; simpl.
  - rewrite Pos2Z.inj_xI. apply Z.div_unique with 1; lia.
  - rewrite Pos2Z.inj_xO. apply Z.div_unique with 0; lia.
  - reflexivity.
Qed.

Lemma iter_shr_m p : forall mrs,
  0 <= shr_m mrs ->
  shr_m (iter_pos shr_1 p mrs) = shr_m mrs / 2 ^ Zpos p.
Proof.
  induction p as [p IH|p IH|]; intros mrs H; cbn [iter_pos].
  - assert (H1 : 0 <= shr_m (shr_1 mrs))
      by (rewrite shr_1_m by assumption; apply Z.div_pos; lia).
    assert (H2 : 0 <= shr_m (iter_pos shr_1 p (shr_1 mrs)))
      by (rewrite IH by assumption; apply Z.div_pos; lia).
    rewrite IH by assumption. rewrite IH by assumption.
    rewrite shr_1_m by assumption.
    rewrite !Z.div_div by lia.
    f_equal. rewrite pow2_xI. lia.
  - assert (H2 : 0 <= shr_m (iter_pos shr_1 p mrs))
      by (rewrite IH by assumption; apply Z.div_pos; lia).
    rewrite IH by assumption. rewrite IH by assumption.
    rewrite !Z.div_div by lia.
    f_equal. rewrite pow2_xO. lia.
  - rewrite shr_1_m by assumption. reflexivity.
Qed.

Lemma shr_1_exact m :
  0 <= m ->
  shr_1 (Build_shr_record (2 * m) false false) = Build_shr_record m false false.
Proof.
  intros H. destruct m as [|p|p]; [reflexivity|reflexivity|lia].
Qed.

Lemma iter_shr_exact p : forall m,
  0 <= m ->
  iter_pos shr_1 p (Build_shr_record (m * 2 ^ Zpos p) false false)
  = Build_shr_record m false false.
Proof.
  induction p as [p IH|p IH|]; intros m H; cbn [iter_pos].
  - replace (m * 2 ^ Zpos p~1)
      with (2 * ((m * 2 ^ Zpos p) * 2 ^ Zpos p))
      by (rewrite pow2_xI; lia).
    assert (0 <= m * 2 ^ Zpos p) by (apply Z.mul_nonneg_nonneg; lia).
    rewrite shr_1_exact by (apply Z.mul_nonneg_nonneg; lia).
    rewrite IH by assumption.
    apply IH. assumption.
  - replace (m * 2 ^ Zpos p~0)
      with ((m * 2 ^ Zpos p) * 2 ^ Zpos p)
      by (rewrite pow2_xO; lia).
    assert (0 <= m * 2 ^ Zpos p) by (apply Z.mul_nonneg_nonneg; lia).
    rewrite IH by assumption.
    apply IH. assumption.
  - rewrite Z.pow_1_r. rewrite Z.mul_comm. apply shr_1_exact. assumption.
Qed.

Lemma fexp64_eq x : fexp64 x = Z.max (x - 53) (-1074).
Proof. reflexivity. Qed.

Lemma Zdigits2_bounds M :
  0 < M -> 2 ^ (Zdigits2 M - 1) <= M < 2 ^ Zdigits2 M.
Proof.
  destruct M as [|p|p]; try lia. intros _. apply digits2_bounds.
Qed.

Lemma Zdigits2_unique M d :
  2 ^ (d - 1) <= M < 2 ^ d -> 0 < M -> Zdigits2 M = d.
Proof.
  destruct M as [|p|p]; try lia. intros H _. apply digits2_unique, H.
Qed.

Lemma Zdigits2_shift M k :
  0 < M -> 0 <= k -> Zdigits2 (M * 2 ^ k) = Zdigits2 M + k.
Proof.
  intros HM Hk. pose proof (Zdigits2_bounds M HM) as [Bl Bu].
  assert (0 < 2 ^ k) by (apply Z.pow_pos_nonneg; lia).
  assert (0 < Zdigits2 M) by (destruct M; simpl; lia).
  apply Zdigits2_unique; [|nia].
  replace (Zdigits2 M + k - 1) with ((Zdigits2 M - 1) + k) by lia.
  rewrite !Z.pow_add_r by lia. nia.
Qed.

Lemma canonical_iff m e :
  canonical m e = true <-> Z.max (Zpos (digits2_pos m) + e - 53) (-1074) = e.
Proof.
  unfold canonical_mantissa. rewrite Z.eqb_eq, fexp64_eq. reflexivity.
Qed.

(** A mantissa already in canonical position is left alone. *)
Lemma round_aux_canonical s m e :
  canonical m e = true ->
  round_aux s (Zpos m) e loc_Exact
  = if e <=? 971 then S754_finite s m e else S754_infinity s.
Proof.
  intros Hc. unfold canonical_mantissa in Hc. apply Z.eqb_eq in Hc.
  unfold binary_round_aux, shr_fexp. cbn [Zdigits2 shr_record_of_loc].
  rewrite Hc, Z.sub_diag. cbn [shr shr_m loc_of_shr_record round_nearest_even].
  cbn [Zdigits2 shr_record_of_loc].
  rewrite Hc, Z.sub_diag. cbn [shr shr_m]. reflexivity.
Qed.

(** Trailing zero bits are shifted out without rounding. *)
Lemma round_aux_exact s m e k M :
  0 < k ->
  M = Zpos m * 2 ^ k ->
  canonical m (e + k) = true ->
  round_aux s M e loc_Exact
  = if e + k <=? 971 then S754_finite s m (e + k) else S754_infinity s.
Proof.
  intros Hk HM Hc.
  unfold canonical_mantissa in Hc. apply Z.eqb_eq in Hc.
  unfold binary_round_aux. unfold shr_fexp at 1.
  assert (Hd : Zdigits2 M = Zpos (digits2_pos m) + k).
  { subst M. apply (Zdigits2_shift (Zpos m) k); lia. }
  rewrite Hd.
  replace (Zpos (digits2_pos m) + k + e) with (Zpos (digits2_pos m) + (e + k)) by lia.
  rewrite Hc. replace (e + k - e) with k by lia.
  destruct k as [|k|k]; try lia.
  cbn [shr shr_record_of_loc]. subst M.
  rewrite iter_shr_exact by lia.
  cbn [shr_m loc_of_shr_record round_nearest_even].
  unfold shr_fexp. cbn [Zdigits2 shr_record_of_loc].
  rewrite Hc, Z.sub_diag. cbn [shr shr_m]. reflexivity.
Qed.

(** Short mantissas are moved up to 53 bits, exactly. *)
Lemma binary_round_short s m e :
  let d := Zpos (digits2_pos m) in
  d <= 53 -> -1074 <= e + d - 53 ->
  binary_round Double.prec Double.emax s m e
  = if e + d - 53 <=? 971
    then S754_finite s (Z.to_pos (Zpos m * 2 ^ (53 - d))) (e + d - 53)
    else S754_infinity s.
Proof.
  intros d Hd He. unfold binary_round, shl_align.
  fold d. rewrite fexp64_eq.
  rewrite Z.max_l by lia.
  replace (d + e - 53 - e) with (d - 53) by lia.
  replace (e + d - 53) with (d + e - 53) by lia.
  destruct (d - 53) as [|p|p] eqn:Ep; try lia.
  - replace (53 - d) with 0 by lia. rewrite Z.pow_0_r, Z.mul_1_r.
    cbn [Z.to_pos].
    replace (d + e - 53) with e by lia.
    apply round_aux_canonical. apply canonical_iff. fold d. lia.
  - assert (Hm : Zpos (Pos.iter xO m p) = Zpos m * 2 ^ (53 - d)).
    { rewrite iter_xO. f_equal. f_equal. lia. }
    rewrite <- Hm. cbn [Z.to_pos].
    apply round_aux_canonical. apply canonical_iff.
    assert (Hdig : Zpos (digits2_pos (Pos.iter xO m p)) = 53).
    { apply digits2_unique. rewrite Hm.
      pose proof (digits2_bounds m) as [Bl Bu]. fold d in Bl, Bu.
      assert (0 < d) by (unfold d; lia).
      assert (E1 : 2 ^ (53 - 1) = 2 ^ (d - 1) * 2 ^ (53 - d))
        by (rewrite <- Z.pow_add_r by lia; f_equal; lia).
      assert (E2 : 2 ^ 53 = 2 ^ d * 2 ^ (53 - d))
        by (rewrite <- Z.pow_add_r by lia; f_equal; lia).
      rewrite E1, E2.
      assert (0 < 2 ^ (53 - d)) by (apply Z.pow_pos_nonneg; lia).
      nia. }
    rewrite Hdig. lia.
Qed.

Lemma valid_finite s m e :
  Double.valid (S754_finite s m e) = true <->
  Z.max (Zpos (digits2_pos m) + e - 53) (-1074) = e /\ e <= 971.
Proof.
  unfold Double.valid, valid_binary, bounded.
  rewrite andb_true_iff, canonical_iff, Z.leb_le. reflexivity.
Qed.

(** A valid double is normal (53 significant bits) or subnormal (fewer
    bits at the least exponent). *)
Lemma valid_cases s m e :
  Double.valid (S754_finite s m e) = true ->
  -1074 <= e <= 971 /\
  (Zpos (digits2_pos m) = 53 \/ (Zpos (digits2_pos m) < 53 /\ e = -1074)).
Proof.
  rewrite valid_finite. intros [Hc He]. lia.
Qed.

Lemma of_int_pow2 n :
  0 <= n <= 30 ->
  Double.of_int (2 ^ n) = S754_finite false 4503599627370496 (n - 52).
Proof.
  intros Hn. destruct n as [|p|p]; [reflexivity| |lia].
  do 5 (try (destruct p as [p|p|]; try lia)); reflexivity.
Qed.

(** Multiplying by a power of two only moves the exponent, up to
    overflow; the significand is re-aligned for subnormal arguments. *)
Lemma mul_pow2_spec s m e n :
  Double.valid (S754_finite s m e) = true ->
  0 <= n <= 30 ->
  let r := Double.mul (S754_finite s m e) (Double.of_int (2 ^ n)) in
  (r = S754_infinity s /\ 2 ^ 2098 <= Zpos m * 2 ^ (e + 1074) * 2 ^ n) \/
  (exists m' e',
      r = S754_finite s m' e' /\ Double.valid r = true /\
      Zpos m' * 2 ^ (e' + 1074) = Zpos m * 2 ^ (e + 1074) * 2 ^ n).
Proof.
  intros Hv Hn r. subst r. rewrite of_int_pow2 by assumption.
  pose proof (valid_cases _ _ _ Hv) as [He Hd].
  unfold Double.mul, SFmul. rewrite xorb_false_r.
  set (d := Zpos (digits2_pos m)) in *.
  pose proof (digits2_bounds m) as [Bl Bu]. fold d in Bl, Bu.
  assert (Hdpos : 0 < d) by (unfold d; lia).
  destruct Hd as [Hd|[Hd He']].
  - (* normal *)
    assert (Hc : canonical m (e + (n - 52) + 52) = true).
    { apply canonical_iff. fold d. lia. }
    assert (HM : Zpos (m * 4503599627370496) = Zpos m * 2 ^ 52)
      by (rewrite Pos2Z.inj_mul; reflexivity).
    rewrite (round_aux_exact s m (e + (n - 52)) 52 _ ltac:(lia) HM Hc).
    replace (e + (n - 52) + 52) with (e + n) by lia.
    destruct (e + n <=? 971) eqn:Eo.
    + right. exists m, (e + n). apply Z.leb_le in Eo.
      split; [reflexivity|]. split.
      * apply valid_finite. fold d. lia.
      * replace (e + n + 1074) with ((e + 1074) + n) by lia.
        rewrite Z.pow_add_r by lia. lia.
    + left. apply Z.leb_gt in Eo. split; [reflexivity|].
      rewrite Hd in Bl. change (53 - 1) with 52 in Bl.
      rewrite <- Z.mul_assoc, <- Z.pow_add_r by lia.
      assert (2 ^ 2046 <= 2 ^ (e + 1074 + n))
        by (apply Z.pow_le_mono_r; lia).
      change (2 ^ 2098) with (2 ^ 52 * 2 ^ 2046).
      apply Z.mul_le_mono_nonneg; lia.
  - (* subnormal *)
    subst e. right.
    destruct (Z_le_gt_dec (d + n) 53) as [Hs|Hs].
    + (* the result is still subnormal, or just normal *)
      set (m' := Z.to_pos (Zpos m * 2 ^ n)).
      assert (Hm' : Zpos m' = Zpos m * 2 ^ n).
      { unfold m'. rewrite Z2Pos.id; [reflexivity|].
        apply Z.mul_pos_pos; [lia|apply Z.pow_pos_nonneg; lia]. }
      assert (Hdm' : Zpos (digits2_pos m') = d + n).
      { change (Zpos (digits2_pos m')) with (Zdigits2 (Zpos m')).
        rewrite Hm'. apply (Zdigits2_shift (Zpos m) n); lia. }
      assert (Hc : canonical m' (-1074 + (n - 52) + (52 - n)) = true).
      { apply canonical_iff. rewrite Hdm'. lia. }
      assert (HM : Zpos (m * 4503599627370496) = Zpos m' * 2 ^ (52 - n)).
      { rewrite Pos2Z.inj_mul, Hm', <- Z.mul_assoc.
        rewrite <- Z.pow_add_r by lia. f_equal.
        replace (n + (52 - n)) with 52 by lia. reflexivity. }
      rewrite (round_aux_exact s m' (-1074 + (n - 52)) (52 - n) _
                 ltac:(lia) HM Hc).
      replace (-1074 + (n - 52) + (52 - n)) with (-1074) by lia.
      cbn [Z.leb Z.compare].
      exists m', (-1074). split; [reflexivity|]. split.
      * apply valid_finite. rewrite Hdm'. lia.
      * rewrite Hm'. change (-1074 + 1074) with 0.
        rewrite Z.pow_0_r. lia.
    + (* the result is normal *)
      set (m' := Z.to_pos (Zpos m * 2 ^ (53 - d))).
      assert (Hm' : Zpos m' = Zpos m * 2 ^ (53 - d)).
      { unfold m'. rewrite Z2Pos.id; [reflexivity|].
        apply Z.mul_pos_pos; [lia|apply Z.pow_pos_nonneg; lia]. }
      assert (Hdm' : Zpos (digits2_pos m') = 53).
      { change (Zpos (digits2_pos m')) with (Zdigits2 (Zpos m')).
        rewrite Hm'. rewrite (Zdigits2_shift (Zpos m) (53 - d)) by lia.
        cbn [Zdigits2]. fold d. lia. }
      assert (Hc : canonical m' (-1074 + (n - 52) + (d - 1)) = true).
      { apply canonical_iff. rewrite Hdm'. lia. }
      assert (HM : Zpos (m * 4503599627370496) = Zpos m' * 2 ^ (d - 1)).
      { rewrite Pos2Z.inj_mul, Hm', <- Z.mul_assoc.
        rewrite <- Z.pow_add_r by lia. f_equal.
        replace (53 - d + (d - 1)) with 52 by lia. reflexivity. }
      rewrite (round_aux_exact s m' (-1074 + (n - 52)) (d - 1) _
                 ltac:(lia) HM Hc).
      assert (Hle : (-1074 + (n - 52) + (d - 1) <=? 971) = true)
        by (apply Z.leb_le; lia).
      rewrite Hle.
      exists m', (-1074 + (n - 52) + (d - 1)).
      split; [reflexivity|]. split.
      * apply valid_finite. rewrite Hdm'. lia.
      * rewrite Hm'. change (-1074 + 1074) with 0.
        rewrite Z.pow_0_r, Z.mul_1_r, <- Z.mul_assoc.
        rewrite <- Z.pow_add_r by lia. f_equal. f_equal. lia.
Qed.

(** On valid positive doubles the comparison of the code is the
    comparison of the values. *)
Lemma leb_finite_pos m1 e1 m2 e2 :
  Double.valid (S754_finite false m1 e1) = true ->
  Double.valid (S754_finite false m2 e2) = true ->
  Double.leb (S754_finite false m1 e1) (S754_finite false m2 e2)
  = (Zpos m1 * 2 ^ (e1 + 1074) <=? Zpos m2 * 2 ^ (e2 + 1074)).
Proof.
  intros V1 V2.
  pose proof (valid_cases _ _ _ V1) as [He1 Hd1].
  pose proof (valid_cases _ _ _ V2) as [He2 Hd2].
  pose proof (digits2_bounds m1) as [Bl1 Bu1].
  pose proof (digits2_bounds m2) as [Bl2 Bu2].
  assert (U1 : Zpos m1 < 2 ^ 53).
  { eapply Z.lt_le_trans; [exact Bu1|]. apply Z.pow_le_mono_r; lia. }
  assert (U2 : Zpos m2 < 2 ^ 53).
  { eapply Z.lt_le_trans; [exact Bu2|]. apply Z.pow_le_mono_r; lia. }
  unfold Double.leb, SFleb, SFcompare.
  destruct (Z.compare_spec e1 e2) as [E|E|E].
  - subst e2. rewrite Pos.compare_cont_spec. cbn [Pos.switch_Eq].
    assert (0 < 2 ^ (e1 + 1074)) by (apply Z.pow_pos_nonneg; lia).
    destruct (Pos.compare_spec m1 m2) as [C|C|C]; symmetry.
    + subst. apply Z.leb_le. lia.
    + apply Z.leb_le. apply Pos2Z.pos_lt_pos in C. nia.
    + apply Z.leb_gt. apply Pos2Z.pos_lt_pos in C. nia.
  - symmetry. apply Z.leb_le.
    assert (D2 : Zpos (digits2_pos m2) = 53) by lia.
    rewrite D2 in Bl2. change (53 - 1) with 52 in Bl2.
    assert (P : 2 * 2 ^ (e1 + 1074) <= 2 ^ (e2 + 1074)).
    { rewrite <- Z.pow_succ_r by lia. apply Z.pow_le_mono_r; lia. }
    assert (0 < 2 ^ (e1 + 1074)) by (apply Z.pow_pos_nonneg; lia).
    change (2 ^ 53) with (2 * 2 ^ 52) in U1. nia.
  - symmetry. apply Z.leb_gt.
    assert (D1 : Zpos (digits2_pos m1) = 53) by lia.
    rewrite D1 in Bl1. change (53 - 1) with 52 in Bl1.
    assert (P : 2 * 2 ^ (e2 + 1074) <= 2 ^ (e1 + 1074)).
    { rewrite <- Z.pow_succ_r by lia. apply Z.pow_le_mono_r; lia. }
    assert (0 < 2 ^ (e2 + 1074)) by (apply Z.pow_pos_nonneg; lia).
    change (2 ^ 53) with (2 * 2 ^ 52) in U2. nia.
Qed.

Lemma valid_units_bound s m e :
  Double.valid (S754_finite s m e) = true ->
  0 < Zpos m * 2 ^ (e + 1074) < 2 ^ 2098.
Proof.
  intros V. pose proof (valid_cases _ _ _ V) as [He Hd].
  pose proof (digits2_bounds m) as [Bl Bu].
  assert (U : Zpos m < 2 ^ 53).
  { eapply Z.lt_le_trans; [exact Bu|]. apply Z.pow_le_mono_r; lia. }
  assert (0 < 2 ^ (e + 1074)) by (apply Z.pow_pos_nonneg; lia).
  assert (2 ^ (e + 1074) <= 2 ^ 2045) by (apply Z.pow_le_mono_r; lia).
  change (2 ^ 2098) with (2 ^ 53 * 2 ^ 2045). nia.
Qed.

Lemma int_check_ok z : Int.min_int <= z <= Int.max_int -> Int.check z = Some z.
Proof.
  intros [Hl Hu]. unfold Int.check, Int.in_range.
  apply Z.leb_le in Hl. apply Z.leb_le in Hu. rewrite Hl, Hu. reflexivity.
Qed.

(** A small non-negative integer survives the round trip through
    [double]. *)
Lemma make_small z :
  0 < z < 2 ^ 53 ->
  exists m e, Double.make z 0 = S754_finite false m e
              /\ Double.valid (S754_finite false m e) = true
              /\ e <= 0 /\ Zpos (digits2_pos m) = 53
              /\ Zpos m = z * 2 ^ (- e).
Proof.
  intros Hz. destruct z as [|p|p]; try lia.
  unfold Double.make, binary_normalize.
  pose proof (digits2_bounds p) as [Bl Bu].
  set (d := Zpos (digits2_pos p)) in *.
  assert (Hd : d <= 53).
  { destruct (Z_le_gt_dec d 53); [assumption|exfalso].
    assert (2 ^ 53 <= 2 ^ (d - 1)) by (apply Z.pow_le_mono_r; lia). lia. }
  rewrite binary_round_short by (fold d; lia). fold d.
  replace (0 + d - 53 <=? 971) with true by (symmetry; apply Z.leb_le; lia).
  assert (Hpos : 0 < Zpos p * 2 ^ (53 - d))
    by (apply Z.mul_pos_pos; [lia|apply Z.pow_pos_nonneg; lia]).
  assert (Hm : Zpos (Z.to_pos (Zpos p * 2 ^ (53 - d))) = Zpos p * 2 ^ (53 - d))
    by (apply Z2Pos.id; assumption).
  assert (Hdig : Zpos (digits2_pos (Z.to_pos (Zpos p * 2 ^ (53 - d)))) = 53).
  { change (Zpos (digits2_pos ?x)) with (Zdigits2 (Zpos x)).
    rewrite Hm. rewrite (Zdigits2_shift (Zpos p) (53 - d)) by lia.
    cbn [Zdigits2]. fold d. lia. }
  eexists _, _. split; [reflexivity|].
  split; [apply valid_finite; rewrite Hdig; unfold d; lia|].
  split; [unfold d; lia|]. split; [exact Hdig|].
  rewrite Hm. f_equal. f_equal. lia.
Qed.

Lemma to_int_make_check z s :
  0 <= z < 2 ^ 53 ->
  Double.to_int (binary_normalize Double.prec Double.emax z 0 s) = Int.check z.
Proof.
  intros Hz. destruct (Z.eq_dec z 0) as [->|Hnz]; [reflexivity|].
  destruct (make_small z ltac:(lia)) as (m & e & Hm & _ & He & _ & Hval).
  unfold Double.make in Hm.
  replace (binary_normalize Double.prec Double.emax z 0 s)
    with (binary_normalize Double.prec Double.emax z 0 false)
    by (destruct z; try lia; reflexivity).
  rewrite Hm. cbn [Double.to_int cond_Zopp].
  rewrite Hval. f_equal.
  destruct (Z.eq_dec e 0) as [->|Hne].
  - rewrite Z.shiftl_0_r. cbn. apply Z.mul_1_r.
  - rewrite Z.shiftl_div_pow2 by lia.
    apply Z.div_mul. apply Z.pow_nonzero; lia.
Qed.

Lemma to_int_make z s :
  0 <= z <= Int.max_int ->
  Double.to_int (binary_normalize Double.prec Double.emax z 0 s) = Some z.
Proof.
  intros Hz. unfold Int.max_int in Hz.
  rewrite to_int_make_check by lia.
  apply int_check_ok. unfold Int.min_int, Int.max_int. lia.
Qed.

Lemma rne_cases q l :
  round_nearest_even q l = q \/ round_nearest_even q l = q + 1.
Proof.
  destruct l as [|[| |]]; cbn; auto.
  destruct (Z.even q); auto.
Qed.

(** Rounding a long positive mantissa: [k] bits are shifted out, the
    quotient is kept or bumped by one, and a carry out of the 53 bits
    moves the exponent up once more. *)
Lemma round_aux_inexact M E :
  let d := Zdigits2 M in
  let k := d - 53 in
  let q := M / 2 ^ k in
  0 < M -> 0 < k -> -1074 <= E + k -> E + k < 971 ->
  exists m' e',
    round_aux false M E loc_Exact = S754_finite false m' e'
    /\ Double.valid (S754_finite false m' e') = true
    /\ Zpos (digits2_pos m') = 53
    /\ ((e' = E + k /\ q <= Zpos m' <= q + 1)
        \/ (e' = E + k + 1 /\ q + 1 = 2 ^ 53 /\ Zpos m' = 2 ^ 52)).
Proof.
  intros d k q HM Hk Hlo Hhi.
  pose proof (Zdigits2_bounds M HM) as [Bl Bu]. fold d in Bl, Bu.
  assert (Hq : 2 ^ 52 <= q < 2 ^ 53).
  { assert (P : 0 < 2 ^ k) by (apply Z.pow_pos_nonneg; lia).
    assert (E1 : 2 ^ (d - 1) = 2 ^ 52 * 2 ^ k)
      by (rewrite <- Z.pow_add_r by lia; f_equal; lia).
    assert (E2 : 2 ^ d = 2 ^ 53 * 2 ^ k)
      by (rewrite <- Z.pow_add_r by lia; f_equal; lia).
    rewrite E1 in Bl. rewrite E2 in Bu. unfold q. split.
    - apply Z.div_le_lower_bound; lia.
    - apply Z.div_lt_upper_bound; lia. }
  unfold binary_round_aux. unfold shr_fexp at 1. fold d.
  rewrite fexp64_eq. rewrite Z.max_l by lia.
  replace (d + E - 53 - E) with k by lia.
  destruct k as [|kp|kp] eqn:Ek; try lia.
  cbn [shr shr_record_of_loc].
  set (mrs := iter_pos shr_1 kp _).
  assert (Hm : shr_m mrs = q).
  { unfold mrs. rewrite iter_shr_m by (cbn; lia). reflexivity. }
  rewrite Hm.
  set (m1 := round_nearest_even q (loc_of_shr_record mrs)).
  assert (Hm1 : m1 = q \/ m1 = q + 1) by apply rne_cases.
  destruct (Z_lt_le_dec m1 (2 ^ 53)) as [Hlt|Hge].
  - (* no carry *)
    assert (Hd1 : Zdigits2 m1 = 53)
      by (apply Zdigits2_unique; change (53 - 1) with 52; lia).
    unfold shr_fexp. rewrite Hd1, fexp64_eq.
    rewrite Z.max_l by lia.
    replace (53 + (E + Zpos kp) - 53 - (E + Zpos kp)) with 0 by lia.
    cbn [shr shr_record_of_loc shr_m].
    destruct m1 as [|p1|p1] eqn:Em1; try lia.
    replace (E + Zpos kp <=? Double.emax - Double.prec) with true
      by (symmetry; apply Z.leb_le; unfold Double.emax, Double.prec; lia).
    exists p1, (E + Zpos kp). split; [reflexivity|].
    cbn [Zdigits2] in Hd1.
    split; [apply valid_finite; rewrite Hd1; lia|].
    split; [exact Hd1|]. left. split; [reflexivity|lia].
  - (* carry into bit 54 *)
    assert (Hc : m1 = 2 ^ 53) by lia.
    rewrite Hc.
    unfold shr_fexp. change (Zdigits2 (2 ^ 53)) with 54.
    rewrite fexp64_eq. rewrite Z.max_l by lia.
    replace (54 + (E + Zpos kp) - 53 - (E + Zpos kp)) with 1 by lia.
    cbn [shr shr_record_of_loc iter_pos].
    change (shr_1 {| shr_m := 2 ^ 53; shr_r := false; shr_s := false |})
      with {| shr_m := 2 ^ 52; shr_r := false; shr_s := false |}.
    cbn [shr_m]. change (2 ^ 52) with (Zpos 4503599627370496).
    cbv iota.
    replace (E + Zpos kp + 1 <=? Double.emax - Double.prec) with true
      by (symmetry; apply Z.leb_le; unfold Double.emax, Double.prec; lia).
    exists 4503599627370496%positive, (E + Zpos kp + 1).
    split; [reflexivity|].
    split; [apply valid_finite; change (Zpos (digits2_pos 4503599627370496)) with 53; lia|].
    split; [reflexivity|]. right. split; [reflexivity|].
    split; [lia|reflexivity].
Qed.

Lemma pow2_lt_inv a b : 0 <= b -> 2 ^ a < 2 ^ b -> a < b.
Proof.
  intros Hb H. destruct (Z_lt_le_dec a b) as [L|L]; [assumption|exfalso].
  assert (2 ^ b <= 2 ^ a) by (apply Z.pow_le_mono_r; lia). lia.
Qed.

(** The tenths digit: a fraction below one, times ten, rounded to the
    nearest integer, lies between 0 and 10 inclusive. *)
Lemma tenths_bound mf ef :
  Double.valid (S754_finite false mf ef) = true ->
  Zpos (digits2_pos mf) = 53 ->
  ef <= -53 ->
  exists T,
    Double.to_int
      (Double.round (Double.mul (S754_finite false mf ef) (Double.of_int 10)))
    = Some T /\ 0 <= T <= 10.
Proof.
  intros V Hd Hef.
  pose proof (valid_cases _ _ _ V) as [He _].
  pose proof (digits2_bounds mf) as [Bl Bu]. rewrite Hd in Bl, Bu.
  change (53 - 1) with 52 in Bl.
  change (Double.of_int 10) with (S754_finite false 5629499534213120 (-49)).
  unfold Double.mul, SFmul. cbn [xorb].
  set (M := Zpos (mf * 5629499534213120)).
  assert (HM : M = Zpos mf * (5 * 2 ^ 50))
    by (unfold M; rewrite Pos2Z.inj_mul; reflexivity).
  assert (HMpos : 0 < M) by (unfold M; lia).
  pose proof (Zdigits2_bounds M HMpos) as [Dl Du].
  assert (Hd1 : 104 < Zdigits2 M).
  { apply pow2_lt_inv; [destruct M; cbn; lia|].
    eapply Z.lt_le_trans; [|apply Z.lt_le_incl; exact Du].
    rewrite HM. change (2 ^ 104) with (2 ^ 52 * (4 * 2 ^ 50)). nia. }
  assert (Hd2 : Zdigits2 M - 1 < 106).
  { apply pow2_lt_inv; [lia|].
    eapply Z.le_lt_trans; [exact Dl|].
    rewrite HM. change (2 ^ 106) with (2 ^ 53 * (8 * 2 ^ 50)). nia. }
  destruct (round_aux_inexact M (ef + -49) HMpos ltac:(lia) ltac:(lia) ltac:(lia))
    as (m' & e' & Hr & Vr & Hdr & Hcase).
  rewrite Hr.
  set (k := Zdigits2 M - 53) in *.
  set (q := M / 2 ^ k) in *.
  assert (Hk : 52 <= k <= 53) by (unfold k; lia).
  set (A := 2 ^ (49 - ef - k)).
  assert (HA : 0 < A) by (apply Z.pow_pos_nonneg; lia).
  assert (HPk : 0 < 2 ^ k) by (apply Z.pow_pos_nonneg; lia).
  assert (Hsplit : 2 ^ (- ef) * 2 ^ 50 = 2 * A * 2 ^ k).
  { unfold A. rewrite <- Z.pow_add_r by lia.
    rewrite <- Z.pow_succ_r by lia. rewrite <- Z.pow_add_r by lia.
    f_equal. lia. }
  assert (Hmf : Zpos mf < 2 ^ (- ef)).
  { eapply Z.lt_le_trans; [exact Bu|]. apply Z.pow_le_mono_r; lia. }
  assert (Hq : q + 1 <= 10 * A).
  { assert (q < 10 * A); [|lia].
    unfold q. apply Z.div_lt_upper_bound; [assumption|].
    rewrite HM. nia. }
  assert (He' : e' < 0 /\ Zpos m' <= 10 * 2 ^ (- e')).
  { destruct Hcase as [[-> Hm']|(-> & Hq1 & ->)].
    - split; [lia|]. replace (- (ef + -49 + k)) with (49 - ef - k) by lia.
      fold A. lia.
    - split; [lia|].
      assert (EA : A = 2 * 2 ^ (- (ef + -49 + k + 1))).
      { unfold A. rewrite <- Z.pow_succ_r by lia. f_equal. lia. }
      change (2 ^ 53) with (2 * 2 ^ 52) in Hq1. lia. }
  destruct He' as [Hneg Hb].
  unfold Double.round.
  replace (0 <=? e') with false by (symmetry; apply Z.leb_gt; lia).
  cbn [cond_Zopp].
  set (P := 2 ^ (- e')) in *.
  assert (HP : 0 < P) by (apply Z.pow_pos_nonneg; lia).
  assert (HT : Z.shiftl (2 * Zpos m' + P) (e' - 1) = (2 * Zpos m' + P) / (2 * P)).
  { rewrite Z.shiftl_div_pow2 by lia. f_equal.
    unfold P. rewrite <- Z.pow_succ_r by lia. f_equal. lia. }
  rewrite HT.
  set (T := (2 * Zpos m' + P) / (2 * P)).
  assert (HTb : 0 <= T <= 10).
  { unfold T. split.
    - apply Z.div_pos; lia.
    - assert ((2 * Zpos m' + P) / (2 * P) < 11); [|lia].
      apply Z.div_lt_upper_bound; lia. }
  exists T. split; [|exact HTb].
  apply to_int_make. unfold Int.max_int. lia.
Qed.

(** [binary_round_short], with the facts about the result spelled out. *)
Lemma binary_round_normal s m e :
  let d := Zpos (digits2_pos m) in
  d <= 53 -> -1074 <= e + d - 53 -> e + d - 53 <= 971 ->
  exists m',
    binary_round Double.prec Double.emax s m e = S754_finite s m' (e + d - 53)
    /\ Double.valid (S754_finite s m' (e + d - 53)) = true
    /\ Zpos (digits2_pos m') = 53
    /\ Zpos m' = Zpos m * 2 ^ (53 - d).
Proof.
  intros d Hd Hlo Hhi.
  rewrite binary_round_short by (fold d; lia). fold d.
  replace (e + d - 53 <=? 971) with true by (symmetry; apply Z.leb_le; lia).
  assert (0 < d) by (unfold d; lia).
  assert (Hpos : 0 < Zpos m * 2 ^ (53 - d))
    by (apply Z.mul_pos_pos; [lia|apply Z.pow_pos_nonneg; lia]).
  assert (Hm : Zpos (Z.to_pos (Zpos m * 2 ^ (53 - d))) = Zpos m * 2 ^ (53 - d))
    by (apply Z2Pos.id; assumption).
  assert (Hdig : Zpos (digits2_pos (Z.to_pos (Zpos m * 2 ^ (53 - d)))) = 53).
  { change (Zpos (digits2_pos ?x)) with (Zdigits2 (Zpos x)).
    rewrite Hm. rewrite (Zdigits2_shift (Zpos m) (53 - d)) by lia.
    cbn [Zdigits2]. fold d. lia. }
  eexists. split; [reflexivity|].
  split; [apply valid_finite; rewrite Hdig; lia|].
  split; [exact Hdig|exact Hm].
Qed.

(** What the two comparisons of the seconds branch say about the
    argument. *)
Lemma seconds_band_shape input :
  Double.valid input = true ->
  Double.leb input Double.lit_0_25 = false ->
  Double.leb input Double.lit_30_0 = true ->
  exists m e,
    input = S754_finite false m e
    /\ Zpos (digits2_pos m) = 53
    /\ -54 <= e <= -48
    /\ Zpos m <= 30 * 2 ^ (- e).
Proof.
  intros V H1 H2.
  destruct input as [s|s| |s m e];
    try (destruct s; discriminate); try discriminate.
  destruct s; [discriminate|].
  change Double.lit_0_25 with (S754_finite false 4503599627370496 (-54)) in H1.
  change Double.lit_30_0 with (S754_finite false 8444249301319680 (-48)) in H2.
  rewrite leb_finite_pos in H1 by (assumption || reflexivity).
  rewrite leb_finite_pos in H2 by (assumption || reflexivity).
  apply Z.leb_gt in H1. apply Z.leb_le in H2.
  pose proof (valid_cases _ _ _ V) as [He Hd].
  pose proof (digits2_bounds m) as [Bl Bu].
  assert (U : Zpos m < 2 ^ 53).
  { eapply Z.lt_le_trans; [exact Bu|]. apply Z.pow_le_mono_r; lia. }
  change (4503599627370496 * 2 ^ (-54 + 1074)) with (2 ^ 1072) in H1.
  change (8444249301319680 * 2 ^ (-48 + 1074)) with (15 * 2 ^ 1075) in H2.
  assert (Hlo : -54 <= e).
  { destruct (Z_le_gt_dec (-54) e); [assumption|exfalso].
    assert (2 ^ (e + 1074) <= 2 ^ 1019) by (apply Z.pow_le_mono_r; lia).
    assert (0 < 2 ^ (e + 1074)) by (apply Z.pow_pos_nonneg; lia).
    change (2 ^ 1072) with (2 ^ 53 * 2 ^ 1019) in H1. nia. }
  assert (Hd53 : Zpos (digits2_pos m) = 53) by lia.
  rewrite Hd53 in Bl. change (53 - 1) with 52 in Bl.
  assert (Hhi : e <= -48).
  { destruct (Z_le_gt_dec e (-48)); [assumption|exfalso].
    assert (2 ^ 1027 <= 2 ^ (e + 1074)) by (apply Z.pow_le_mono_r; lia).
    change (15 * 2 ^ 1075) with (15 * 2 ^ 48 * 2 ^ 1027) in H2.
    assert (0 < 2 ^ 1027) by (apply Z.pow_pos_nonneg; lia).
    change (2 ^ 52) with (16 * 2 ^ 48) in Bl. nia. }
  exists m, e. split; [reflexivity|]. split; [assumption|].
  split; [lia|].
  assert (Hs : 2 ^ 1074 = 2 ^ (- e) * 2 ^ (e + 1074))
    by (rewrite <- Z.pow_add_r by lia; f_equal; lia).
  change (15 * 2 ^ 1075) with (30 * 2 ^ 1074) in H2. rewrite Hs in H2.
  assert (0 < 2 ^ (e + 1074)) by (apply Z.pow_pos_nonneg; lia).
  nia.
Qed.

(** The sign of a rounded result is the sign asked for. *)
Lemma to_int_round_neg m e st :
  Double.to_int (binary_round Double.prec Double.emax true m e) = Some st ->
  st <= 0.
Proof.
  unfold binary_round.
  destruct (shl_align m e _) as [mz ez].
  unfold binary_round_aux.
  destruct (shr_fexp _ _ (Zpos mz) ez loc_Exact) as [mrs' e'].
  destruct (shr_fexp _ _ _ e' loc_Exact) as [mrs'' e''].
  destruct (shr_m mrs'') as [|p|p]; cbn [Double.to_int].
  - intros H; injection H as <-. lia.
  - destruct (e'' <=? _); cbn [Double.to_int]; [|discriminate].
    unfold Int.check. destruct (Int.in_range _); [|discriminate].
    intros H; injection H as <-. cbn [cond_Zopp].
    pose proof (Z.shiftl_nonneg (Zpos p) e''). lia.
  - discriminate.
Qed.

Lemma check_some z st : Int.check z = Some st -> st = z.
Proof.
  unfold Int.check. destruct (Int.in_range z); congruence.
Qed.

End DoubleFacts.

(** ** Sorting *)

Section SortFacts.

Lemma Filter_lt_iff a b : Filter_lt a b = true <-> stops a < stops b.
Proof.
  unfold Filter_lt, Filter_cmp.
  destruct (Z.compare_spec (stops a) (stops b)); split; intros; lia || easy.
Qed.

Lemma not_less_iff a b : not_less a b <-> stops a <= stops b.
Proof.
  unfold not_less. split; intros H.
  - destruct (Z_le_gt_dec (stops a) (stops b)) as [L|G]; [exact L|].
    assert (Filter_lt b a = true) by (apply Filter_lt_iff; lia).
    congruence.
  - destruct (Filter_lt b a) eqn:E; [|reflexivity].
    apply Filter_lt_iff in E. lia.
Qed.

Lemma insert_sorted_perm x l : Permutation (x :: l) (insert_sorted x l).
Proof.
  induction l as [|y l IH]; simpl.
  - apply Permutation_refl.
  - destruct (Filter_lt x y).
    + apply Permutation_refl.
    + eapply perm_trans; [apply perm_swap|].
      apply perm_skip. exact IH.
Qed.

Lemma insert_sorted_sorted x l :
  StronglySorted not_less l -> StronglySorted not_less (insert_sorted x l).
Proof.
  induction 1 as [|y l Hs IH Hy]; simpl.
  - constructor; constructor.
  - destruct (Filter_lt x y) eqn:E.
    + apply Filter_lt_iff in E.
      constructor.
      * constructor; assumption.
      * constructor.
        -- apply not_less_iff. lia.
        -- eapply Forall_impl; [|exact Hy].
           intros z Hz. apply not_less_iff. apply not_less_iff in Hz. lia.
    + constructor; [exact IH|].
      eapply Permutation_Forall; [apply insert_sorted_perm|].
      constructor; [exact E | exact Hy].
Qed.

Lemma insertion_fold_post l : forall acc,
  StronglySorted not_less acc ->
  Permutation (rev l ++ acc)
    (fold_left (fun a x => insert_sorted x a) l acc)
  /\ StronglySorted not_less
       (fold_left (fun a x => insert_sorted x a) l acc).
Proof.
  induction l as [|x l IH]; intros acc Hacc; simpl.
  - split; [apply Permutation_refl | exact Hacc].
  - destruct (IH (insert_sorted x acc) (insert_sorted_sorted x acc Hacc))
      as [Hp Hs].
    split; [|exact Hs].
    eapply perm_trans; [|exact Hp].
    rewrite <- app_assoc. apply Permutation_app_head. simpl.
    apply insert_sorted_perm.
Qed.

(** The insertion sort meets the contract of [std::sort]: the call
    returns, with an arrangement the contract allows. *)
Lemma insertion_sort_post l : std_sort_post l (insertion_sort l).
Proof.
  destruct (insertion_fold_post l [] (SSorted_nil _)) as [Hp Hs].
  split; [|exact Hs].
  eapply perm_trans; [|exact Hp].
  rewrite app_nil_r. apply Permutation_rev.
Qed.

(** Two sorted arrangements of the same entries agree when no two
    entries share a stop count. *)
Lemma sorted_unique l1 : forall l2,
  NoDup (map stops l1) ->
  Permutation l1 l2 ->
  StronglySorted not_less l1 -> StronglySorted not_less l2 ->
  l1 = l2.
Proof.
  induction l1 as [|a l1 IH]; intros l2 Hnd Hp H1 H2.
  - apply Permutation_nil in Hp. congruence.
  - destruct l2 as [|b l2].
    + apply Permutation_sym, Permutation_nil in Hp. discriminate.
    + inversion H1 as [|? ? H1' Ha]; subst.
      inversion H2 as [|? ? H2' Hb]; subst.
      inversion Hnd as [|? ? Hna Hnd']; subst.
      assert (Hab : a = b).
      { assert (Ia : In a (b :: l2))
          by (eapply Permutation_in; [exact Hp | left; reflexivity]).
        assert (Ib : In b (a :: l1))
          by (eapply Permutation_in;
              [apply Permutation_sym; exact Hp | left; reflexivity]).
        destruct Ia as [Ia|Ia]; [congruence|].
        destruct Ib as [Ib|Ib]; [congruence|].
        rewrite Forall_forall in Ha, Hb.
        pose proof (Ha _ Ib) as L1. pose proof (Hb _ Ia) as L2.
        apply not_less_iff in L1. apply not_less_iff in L2.
        exfalso. apply Hna.
        replace (stops a) with (stops b) by lia.
        apply in_map. exact Ib. }
      subst b. f_equal.
      apply IH; try assumption.
      eapply Permutation_cons_inv. exact Hp.
Qed.

Lemma sorted_stops l :
  StronglySorted not_less l ->
  StronglySorted (fun a b => stops a <= stops b) l.
Proof.
  induction 1 as [|a l Hs IH Ha]; constructor; [exact IH|].
  eapply Forall_impl; [|exact Ha].
  intros b Hb. apply not_less_iff. exact Hb.
Qed.

Lemma with_stops_absent n l :
  ~ In n (map stops l) -> with_stops n l = [].
Proof.
  induction l as [|a l IH]; intros Hn; [reflexivity|].
  unfold with_stops in *. cbn [filter].
  destruct (stops a =? n) eqn:E.
  - exfalso. apply Hn. left. apply Z.eqb_eq. exact E.
  - apply IH. intros Hin. apply Hn. right. exact Hin.
Qed.

End SortFacts.

(** ** [std::sort] *)

(** *** Reading and writing a vector *)

Section VectorFacts.

Local Open Scope list_scope.
Local Open Scope nat_scope.

Variable A : Type.
Variable d : A.

Lemma nth_firstn_lt (a : list A) n i :
  i < n -> nth i (firstn n a) d = nth i a d.
Proof.
  intros H. rewrite nth_firstn.
  destruct (Nat.ltb_spec i n); [reflexivity | lia].
Qed.

Lemma get_nth (a : list A) i :
  i < List.length a -> Std.get a i = Some (nth i a d).
Proof. intros H. apply nth_error_nth'. exact H. Qed.

Lemma get_none (a : list A) i :
  List.length a <= i -> Std.get a i = None.
Proof. intros H. apply nth_error_None. exact H. Qed.

Lemma upd_length (a : list A) i x :
  i < List.length a -> List.length (upd a i x) = List.length a.
Proof.
  intros H. unfold upd.
  rewrite length_app, length_firstn. cbn [List.length].
  rewrite length_skipn. lia.
Qed.

Lemma set_upd (a : list A) i x :
  i < List.length a -> Std.set a i x = Some (upd a i x).
Proof.
  revert i. induction a as [|h t IH]; intros i H; cbn [List.length] in H.
  - lia.
  - destruct i as [|i]; [reflexivity|].
    cbn [Std.set]. rewrite IH by lia. reflexivity.
Qed.

Lemma nth_upd (a : list A) i j x :
  i < List.length a ->
  nth j (upd a i x) d = if j =? i then x else nth j a d.
Proof.
  intros H. unfold upd.
  destruct (Nat.eqb_spec j i) as [->|N].
  - rewrite app_nth2; rewrite length_firstn; [|lia].
    replace (i - Nat.min i (List.length a)) with 0 by lia. reflexivity.
  - destruct (Nat.lt_ge_cases j i) as [L|G].
    + rewrite app_nth1 by (rewrite length_firstn; lia).
      apply nth_firstn_lt. exact L.
    + rewrite app_nth2 by (rewrite length_firstn; lia).
      rewrite length_firstn.
      replace (j - Nat.min i (List.length a)) with (S (j - S i)) by lia.
      cbn [nth]. rewrite nth_skipn. f_equal. lia.
Qed.

Lemma upd_app (l1 l2 : list A) y x :
  upd (l1 ++ y :: l2) (List.length l1) x = l1 ++ x :: l2.
Proof.
  unfold upd.
  rewrite firstn_app, Nat.sub_diag, firstn_all, firstn_O, app_nil_r.
  rewrite skipn_app, skipn_all2 by lia.
  replace (S (List.length l1) - List.length l1) with 1 by lia.
  reflexivity.
Qed.

Lemma get_app (l1 l2 : list A) y :
  Std.get (l1 ++ y :: l2) (List.length l1) = Some y.
Proof.
  unfold Std.get. rewrite nth_error_app2 by lia.
  rewrite Nat.sub_diag. reflexivity.
Qed.

Lemma set_app (l1 l2 : list A) y x :
  Std.set (l1 ++ y :: l2) (List.length l1) x = Some (l1 ++ x :: l2).
Proof.
  rewrite set_upd by (rewrite length_app; cbn [List.length]; lia).
  rewrite upd_app. reflexivity.
Qed.

End VectorFacts.

Ltac upd_len :=
  repeat match goal with
         | |- context [List.length (upd ?a ?i ?x)] =>
             rewrite (upd_length _ a i x) by (upd_len; lia)
         end.

Section RearrangeFacts.

Local Open Scope list_scope.
Local Open Scope nat_scope.

Variable A : Type.
Variable d : A.

Lemma upd_same (a : list A) i :
  i < List.length a -> upd a i (nth i a d) = a.
Proof.
  intros H. apply (nth_ext _ _ d d).
  - apply upd_length. exact H.
  - intros j _. rewrite nth_upd by exact H.
    destruct (Nat.eqb_spec j i); congruence.
Qed.

Lemma upd_upd (a : list A) i x y :
  i < List.length a -> upd (upd a i x) i y = upd a i y.
Proof.
  intros H. apply (nth_ext _ _ d d).
  - upd_len. reflexivity.
  - intros j _. rewrite !nth_upd by (upd_len; lia).
    destruct (j =? i); reflexivity.
Qed.

Lemma upd_comm (a : list A) i j x y :
  i < List.length a -> j < List.length a -> i <> j ->
  upd (upd a i x) j y = upd (upd a j y) i x.
Proof.
  intros Hi Hj N. apply (nth_ext _ _ d d).
  - upd_len. reflexivity.
  - intros k _. rewrite !nth_upd by (upd_len; lia).
    destruct (Nat.eqb_spec k i), (Nat.eqb_spec k j); try reflexivity.
    lia.
Qed.

(** Exchanging two places rearranges the vector. *)
Lemma swap_perm (a : list A) i j :
  i < List.length a -> j < List.length a ->
  Permutation a (upd (upd a i (nth j a d)) j (nth i a d)).
Proof.
  assert (W : forall (a : list A) i j, i < j -> j < List.length a ->
            Permutation a (upd (upd a i (nth j a d)) j (nth i a d))).
  { clear. intros a i j Hij Hj.
    assert (E : a = firstn i a ++ nth i a d
                      :: firstn (j - S i) (skipn (S i) a)
                      ++ nth j a d :: skipn (S j) a).
    { apply (nth_ext _ _ d d).
      - rewrite length_app, length_firstn. cbn [List.length].
        rewrite length_app, length_firstn, length_skipn. cbn [List.length].
        rewrite length_skipn. lia.
      - intros k Hk.
        destruct (Nat.lt_ge_cases k i) as [L|G].
        + rewrite app_nth1 by (rewrite length_firstn; lia).
          symmetry. apply nth_firstn_lt. exact L.
        + rewrite app_nth2 by (rewrite length_firstn; lia).
          rewrite length_firstn.
          replace (Nat.min i (List.length a)) with i by lia.
          destruct (k - i) as [|m] eqn:Ek.
          * cbn [nth]. f_equal. lia.
          * cbn [nth].
            destruct (Nat.lt_ge_cases m (j - S i)) as [L'|G'].
            -- rewrite app_nth1
                 by (rewrite length_firstn, length_skipn; lia).
               rewrite nth_firstn_lt by exact L'.
               rewrite nth_skipn. f_equal. lia.
            -- rewrite app_nth2
                 by (rewrite length_firstn, length_skipn; lia).
               rewrite length_firstn, length_skipn.
               replace (Nat.min (j - S i) (List.length a - S i))
                 with (j - S i) by lia.
               destruct (m - (j - S i)) as [|m'] eqn:Em.
               ++ cbn [nth]. f_equal. lia.
               ++ cbn [nth]. rewrite nth_skipn. f_equal. lia. }
    set (l1 := firstn i a) in E.
    set (l2 := firstn (j - S i) (skipn (S i) a)) in E.
    set (l3 := skipn (S j) a) in E.
    assert (L1 : List.length l1 = i)
      by (unfold l1; rewrite length_firstn; lia).
    assert (L2 : List.length l2 = j - S i)
      by (unfold l2; rewrite length_firstn, length_skipn; lia).
    set (x := nth i a d) in *. set (y := nth j a d) in *.
    rewrite E at 2.
    rewrite <- L1 at 1. rewrite upd_app.
    replace (l1 ++ y :: l2 ++ y :: l3)
      with ((l1 ++ y :: l2) ++ y :: l3)
      by (rewrite <- app_assoc; reflexivity).
    replace j with (List.length (l1 ++ y :: l2))
      by (rewrite length_app; cbn [List.length]; lia).
    rewrite upd_app. rewrite E at 1.
    rewrite <- app_assoc. cbn [app].
    apply Permutation_app_head.
    transitivity (x :: y :: l2 ++ l3).
    - apply perm_skip. symmetry. apply Permutation_middle.
    - transitivity (y :: x :: l2 ++ l3); [apply perm_swap|].
      apply perm_skip. apply Permutation_middle. }
  intros Hi Hj.
  destruct (Nat.lt_trichotomy i j) as [L|[->|L]].
  - apply W; assumption.
  - rewrite upd_upd by assumption. rewrite upd_same by assumption.
    reflexivity.
  - transitivity (upd (upd a j (nth i a d)) i (nth j a d)).
    + apply W; assumption.
    + apply Permutation_refl'. apply upd_comm; lia.
Qed.

(** What [iter_swap] does inside the vector. *)
Lemma iter_swap_upd (a : list A) i j :
  i < List.length a -> j < List.length a ->
  Std.iter_swap a i j = Some (upd (upd a i (nth j a d)) j (nth i a d)).
Proof.
  intros Hi Hj. unfold Std.iter_swap.
  rewrite !(get_nth _ d) by assumption. cbn [bind].
  rewrite set_upd by assumption. cbn [bind].
  apply set_upd. upd_len. lia.
Qed.

Lemma slice_length (a : list A) first last :
  first <= last -> last <= List.length a ->
  List.length (slice first last a) = last - first.
Proof.
  intros H1 H2. unfold slice. rewrite length_firstn, length_skipn. lia.
Qed.

Lemma nth_slice (a : list A) first last i :
  i < last - first -> nth i (slice first last a) d = nth (first + i) a d.
Proof.
  intros H. unfold slice. rewrite nth_firstn_lt by exact H.
  apply nth_skipn.
Qed.

Lemma slice_split (a : list A) first last :
  first <= last -> last <= List.length a ->
  a = firstn first a ++ slice first last a ++ skipn last a.
Proof.
  intros H1 H2. unfold slice.
  rewrite <- (firstn_skipn first a) at 1. f_equal.
  rewrite <- (firstn_skipn (last - first) (skipn first a)) at 1. f_equal.
  rewrite skipn_skipn. f_equal. lia.
Qed.

(** A rearrangement that leaves everything outside [first, last) in place
    rearranges what is inside. *)
Lemma perm_slice (a a' : list A) first last :
  first <= last -> last <= List.length a ->
  List.length a' = List.length a ->
  (forall j, j < first \/ last <= j -> nth j a' d = nth j a d) ->
  Permutation a a' ->
  Permutation (slice first last a) (slice first last a').
Proof.
  intros H1 H2 HL Ho Hp.
  assert (F : firstn first a' = firstn first a).
  { apply (nth_ext _ _ d d).
    - rewrite !length_firstn. lia.
    - intros k Hk. rewrite length_firstn in Hk.
      rewrite !nth_firstn_lt by lia. apply Ho. lia. }
  assert (S' : skipn last a' = skipn last a).
  { apply (nth_ext _ _ d d).
    - rewrite !length_skipn. lia.
    - intros k Hk. rewrite !nth_skipn. apply Ho. lia. }
  rewrite (slice_split a first last H1 H2) in Hp.
  rewrite (slice_split a' first last H1) in Hp by lia.
  rewrite F, S' in Hp.
  apply Permutation_app_inv_l in Hp.
  apply Permutation_app_inv_r in Hp. exact Hp.
Qed.

Lemma Forall_slice (P : A -> Prop) (a : list A) first last :
  first <= last -> last <= List.length a ->
  (Forall P (slice first last a)
   <-> forall i, first <= i < last -> P (nth i a d)).
Proof.
  intros H1 H2. rewrite (Forall_nth P (slice first last a)). split.
  - intros H i Hi.
    specialize (H (i - first) d).
    rewrite slice_length in H by assumption.
    rewrite nth_slice in H by lia.
    replace (first + (i - first)) with i in H by lia. apply H. lia.
  - intros H i d' Hi. rewrite slice_length in Hi by assumption.
    rewrite (nth_indep _ d' d) by (rewrite slice_length; assumption).
    rewrite nth_slice by exact Hi. apply H. lia.
Qed.

End RearrangeFacts.

Ltac app_eq :=
  repeat (progress (rewrite <- ?app_assoc; cbn [app])); reflexivity.

(** *** The insertion sort of the last pass *)

Section InsertionFacts.

Local Open Scope list_scope.
Local Open Scope nat_scope.

Local Notation "'ins'" := (fun acc x => insert_sorted x acc).

(** The loop moves [val] down past everything it is less than and stops
    at the first entry it is not less than; there has to be one. *)
Lemma linear_insert_loop_spec (val z : Filter) (l2 : list Filter) :
  forall l1 h rest,
    Filter_lt val z = false ->
    Forall (fun y => Filter_lt val y = true) l2 ->
    Std.linear_insert_loop Filter_lt (l1 ++ z :: l2 ++ h :: rest) val
      (List.length l1 + 1 + List.length l2)
    = Some (l1 ++ z :: val :: l2 ++ rest).
Proof.
  induction l2 as [|y l2 IH] using rev_ind; intros l1 h rest Hz Hl.
  - cbn [List.length app]. replace (List.length l1 + 1 + 0)
      with (S (List.length l1)) by lia.
    cbn [Std.linear_insert_loop].
    rewrite get_app. cbn [bind]. rewrite Hz.
    replace (l1 ++ z :: h :: rest) with ((l1 ++ [z]) ++ h :: rest)
      by app_eq.
    replace (S (List.length l1)) with (List.length (l1 ++ [z]))
      by (rewrite length_app; cbn [List.length]; lia).
    rewrite set_app. f_equal. app_eq.
  - apply Forall_app in Hl. destruct Hl as [Hl Hy].
    inversion Hy as [|? ? Hy' _]; subst.
    rewrite length_app. cbn [List.length].
    replace (List.length l1 + 1 + (List.length l2 + 1))
      with (S (List.length l1 + 1 + List.length l2)) by lia.
    cbn [Std.linear_insert_loop].
    replace (l1 ++ z :: (l2 ++ [y]) ++ h :: rest)
      with ((l1 ++ z :: l2) ++ y :: h :: rest)
      by app_eq.
    replace (List.length l1 + 1 + List.length l2)
      with (List.length (l1 ++ z :: l2))
      by (rewrite length_app; cbn [List.length]; lia).
    rewrite get_app. cbn [bind]. rewrite Hy'.
    replace ((l1 ++ z :: l2) ++ y :: h :: rest)
      with (((l1 ++ z :: l2) ++ [y]) ++ h :: rest)
      by app_eq.
    replace (S (List.length (l1 ++ z :: l2)))
      with (List.length ((l1 ++ z :: l2) ++ [y]))
      by (rewrite !length_app; cbn [List.length]; lia).
    rewrite set_app. cbn [bind].
    replace (((l1 ++ z :: l2) ++ [y]) ++ y :: rest)
      with (l1 ++ z :: l2 ++ y :: y :: rest)
      by app_eq.
    replace (List.length (l1 ++ z :: l2))
      with (List.length l1 + 1 + List.length l2)
      by (rewrite length_app; cbn [List.length]; lia).
    rewrite IH by assumption. f_equal. app_eq.
Qed.

(** Where the functional insertion puts a new entry into a sorted list:
    behind the entries it is not less than, before those it is less
    than. *)
Lemma insert_sorted_split (x : Filter) (pre : list Filter) :
  StronglySorted not_less pre ->
  exists l1 l2,
    pre = l1 ++ l2
    /\ Forall (fun y => Filter_lt x y = false) l1
    /\ Forall (fun y => Filter_lt x y = true) l2
    /\ insert_sorted x pre = l1 ++ x :: l2.
Proof.
  induction 1 as [|y t Hs IH Hy].
  - exists [], []. repeat split; constructor.
  - cbn [insert_sorted]. destruct (Filter_lt x y) eqn:E.
    + exists [], (y :: t). repeat split; [constructor|].
      constructor; [exact E|].
      eapply Forall_impl; [|exact Hy].
      intros b Hb. apply Filter_lt_iff. apply Filter_lt_iff in E.
      apply not_less_iff in Hb. lia.
    + destruct IH as (l1 & l2 & -> & F1 & F2 & Ei).
      exists (y :: l1), l2. repeat split.
      * constructor; assumption.
      * exact F2.
      * rewrite Ei. reflexivity.
Qed.

Lemma unguarded_linear_insert_spec (x : Filter) (pre post : list Filter) :
  StronglySorted not_less pre ->
  (exists z, In z pre /\ Filter_lt x z = false) ->
  Std.unguarded_linear_insert Filter_lt (pre ++ x :: post) (List.length pre)
  = Some (insert_sorted x pre ++ post).
Proof.
  intros Hs (z & Hz & Hxz).
  destruct (insert_sorted_split x pre Hs) as (l1 & l2 & -> & F1 & F2 & Ei).
  unfold Std.unguarded_linear_insert. rewrite get_app. cbn [bind].
  destruct (exists_last (l := l1)) as (l1' & z' & ->).
  { intros ->. cbn [app] in Hz. rewrite Forall_forall in F2.
    specialize (F2 _ Hz). congruence. }
  apply Forall_app in F1. destruct F1 as [_ Fz].
  inversion Fz as [|? ? Fz' _]; subst.
  rewrite Ei.
  replace ((l1' ++ [z']) ++ l2) with (l1' ++ z' :: l2)
    by app_eq.
  replace (List.length (l1' ++ z' :: l2))
    with (List.length l1' + 1 + List.length l2)
    by (rewrite length_app; cbn [List.length]; lia).
  replace ((l1' ++ z' :: l2) ++ x :: post)
    with (l1' ++ z' :: l2 ++ x :: post)
    by app_eq.
  rewrite linear_insert_loop_spec by assumption. f_equal. app_eq.
Qed.

Lemma move_backward_spec (l : list Filter) :
  forall h rest,
    Std.move_backward (l ++ h :: rest) 0 (List.length l)
    = Some (match l with
            | [] => h :: rest
            | x0 :: _ => x0 :: l ++ rest
            end).
Proof.
  induction l as [|y l IH] using rev_ind; intros h rest; [reflexivity|].
  rewrite length_app. cbn [List.length].
  replace (List.length l + 1) with (S (List.length l)) by lia.
  cbn [Std.move_backward]. rewrite Nat.add_0_l.
  replace ((l ++ [y]) ++ h :: rest) with (l ++ y :: h :: rest)
    by app_eq.
  rewrite get_app. cbn [bind].
  replace (l ++ y :: h :: rest) with ((l ++ [y]) ++ h :: rest)
    by app_eq.
  replace (S (List.length l)) with (List.length (l ++ [y]))
    by (rewrite length_app; cbn [List.length]; lia).
  rewrite set_app. cbn [bind].
  replace ((l ++ [y]) ++ y :: rest) with (l ++ y :: y :: rest)
    by app_eq.
  rewrite IH. destruct l as [|x0 l]; [reflexivity|].
  f_equal. app_eq.
Qed.

(** One turn of the loop of [__insertion_sort] is one functional
    insertion, whichever branch it takes. *)
Lemma insertion_sort_loop_spec (rest : list Filter) :
  forall pre post,
    pre <> [] -> StronglySorted not_less pre ->
    Std.insertion_sort_loop Filter_lt (pre ++ rest ++ post) 0
      (List.length pre) (List.length rest)
    = Some (fold_left ins rest pre ++ post).
Proof.
  induction rest as [|x rest IH]; intros pre post Hne Hs; [reflexivity|].
  cbn [List.length Std.insertion_sort_loop app fold_left].
  rewrite get_app. cbn [bind].
  destruct pre as [|f pre]; [congruence|].
  cbn [app Std.get nth_error bind].
  assert (Hlen : List.length (insert_sorted x (f :: pre))
                 = S (List.length (f :: pre))).
  { symmetry. apply (Permutation_length (insert_sorted_perm x (f :: pre))). }
  assert (Hne' : insert_sorted x (f :: pre) <> []).
  { intros E. rewrite E in Hlen. discriminate. }
  destruct (Filter_lt x f) eqn:E.
  - rewrite Nat.sub_0_r.
    change (f :: pre ++ x :: rest ++ post)
      with ((f :: pre) ++ x :: rest ++ post).
    rewrite move_backward_spec. cbn [bind Std.set].
    change (Some (x :: (f :: pre) ++ rest ++ post))
      with (Some ((x :: f :: pre) ++ rest ++ post)).
    cbn [insert_sorted]. rewrite E.
    change (S (List.length (f :: pre)))
      with (List.length (x :: f :: pre)).
    apply (IH (x :: f :: pre) post); [discriminate|].
    constructor; [exact Hs|]. constructor.
    + apply not_less_iff. apply Filter_lt_iff in E. lia.
    + inversion Hs as [|? ? _ Hf]; subst.
      eapply Forall_impl; [|exact Hf].
      intros b Hb. apply not_less_iff. apply Filter_lt_iff in E.
      apply not_less_iff in Hb. lia.
  - change (f :: pre ++ x :: rest ++ post)
      with ((f :: pre) ++ x :: rest ++ post).
    rewrite unguarded_linear_insert_spec;
      [|exact Hs | exists f; split; [left; reflexivity | exact E]].
    cbn [bind]. rewrite <- Hlen.
    apply (IH (insert_sorted x (f :: pre)) post); [exact Hne'|]. apply insert_sorted_sorted. exact Hs.
Qed.

Lemma unguarded_insertion_sort_spec (rest : list Filter) :
  forall pre post,
    StronglySorted not_less pre ->
    (forall x, In x rest -> exists z, In z pre /\ Filter_lt x z = false) ->
    Std.unguarded_insertion_sort Filter_lt (pre ++ rest ++ post)
      (List.length pre) (List.length rest)
    = Some (fold_left ins rest pre ++ post).
Proof.
  induction rest as [|x rest IH]; intros pre post Hs Hz; [reflexivity|].
  cbn [List.length Std.unguarded_insertion_sort app fold_left].
  rewrite unguarded_linear_insert_spec;
    [|exact Hs | apply Hz; left; reflexivity].
  cbn [bind].
  replace (S (List.length pre)) with (List.length (insert_sorted x pre))
    by (symmetry; apply (Permutation_length (insert_sorted_perm x pre))).
  apply IH; [apply insert_sorted_sorted; exact Hs|].
  intros y Hy. destruct (Hz y (or_intror Hy)) as (z & Iz & Lz).
  exists z. split; [|exact Lz].
  eapply Permutation_in; [apply insert_sorted_perm|]. right. exact Iz.
Qed.

(** The last pass is the functional insertion sort of the whole vector,
    as soon as every entry from place 16 on has an entry among the first
    16 that is not greater. *)
Lemma final_insertion_sort_spec (a : list Filter) :
  (forall i, 16 <= i < List.length a ->
     exists j, j < 16 /\ (key a j <= key a i)%Z) ->
  Std.final_insertion_sort Filter_lt a 0 (List.length a)
  = Some (insertion_sort a).
Proof.
  intros Hq. unfold Std.final_insertion_sort, Std.S_threshold.
  rewrite Nat.sub_0_r, Nat.add_0_l.
  assert (Small : forall (b post : list Filter),
             Std.insertion_sort Filter_lt (b ++ post) 0 (List.length b)
             = Some (fold_left ins b [] ++ post)).
  { intros b post. unfold Std.insertion_sort.
    destruct b as [|x b]; [reflexivity|].
    cbn [List.length Nat.eqb fold_left insert_sorted].
    replace (S (List.length b) - 1) with (List.length b) by lia.
    change ((x :: b) ++ post) with ([x] ++ b ++ post).
    change 1 with (List.length [x]).
    apply insertion_sort_loop_spec; [discriminate|].
    repeat constructor. }
  destruct (Nat.ltb_spec 16 (List.length a)) as [L|G].
  - pose proof (firstn_skipn 16 a) as Ea.
    assert (Lb : List.length (firstn 16 a) = 16)
      by (rewrite length_firstn; lia).
    assert (Lr : List.length (skipn 16 a) = List.length a - 16)
      by (rewrite length_skipn; lia).
    set (b := firstn 16 a) in *. set (r := skipn 16 a) in *.
    pose proof (Small b r) as S1. rewrite Lb, Ea in S1.
    rewrite S1. cbn [bind].
    set (pre := fold_left ins b []).
    destruct (insertion_fold_post b [] (SSorted_nil _)) as [Hp Hs].
    fold pre in Hp, Hs. rewrite app_nil_r in Hp.
    assert (Lp : List.length pre = 16).
    { rewrite <- (Permutation_length Hp), length_rev. exact Lb. }
    pose proof (unguarded_insertion_sort_spec r pre [] Hs) as S2.
    rewrite !app_nil_r, Lp, Lr in S2. rewrite S2.
    + unfold pre, insertion_sort.
      rewrite <- fold_left_app, Ea. reflexivity.
    + intros x Hx. apply (In_nth _ _ dflt) in Hx.
      destruct Hx as (k & Hk & <-). unfold r. rewrite nth_skipn.
      destruct (Hq (16 + k)) as (j & Hj & Hle); [lia|].
      exists (nth j a dflt). split.
      * eapply Permutation_in; [exact Hp|].
        apply in_rev. rewrite rev_involutive. unfold b.
        rewrite <- (nth_firstn_lt _ dflt a 16 j) by exact Hj.
        apply nth_In. fold b. lia.
      * destruct (Filter_lt (nth (16 + k) a dflt) (nth j a dflt)) eqn:E;
          [|reflexivity].
        apply Filter_lt_iff in E. unfold key in Hle. lia.
  - pose proof (Small a []) as S1. rewrite app_nil_r in S1.
    rewrite S1. rewrite app_nil_r. reflexivity.
Qed.

End InsertionFacts.

(** *** The partition *)

Section PartitionFacts.

Local Open Scope list_scope.
Local Open Scope nat_scope.

Lemma Filter_lt_ltb (x y : Filter) : Filter_lt x y = (stops x <? stops y)%Z.
Proof. reflexivity. Qed.

Lemma key_upd (a : list Filter) i j x :
  i < List.length a ->
  key (upd a i x) j = if j =? i then stops x else key a j.
Proof.
  intros H. unfold key. rewrite (nth_upd _ dflt) by exact H.
  destruct (j =? i); reflexivity.
Qed.

Lemma scan_up_spec (a : list Filter) (p : nat) (n : nat) :
  forall first,
    p < List.length a ->
    n = List.length a - first ->
    (exists j, first <= j < List.length a /\ (key a p <= key a j)%Z) ->
    exists f,
      Std.scan_up Filter_lt a p first n = Some f
      /\ first <= f < List.length a
      /\ (key a p <= key a f)%Z
      /\ forall i, first <= i < f -> (key a i < key a p)%Z.
Proof.
  induction n as [|n IH]; intros first Hp Hn (j & Hj & Hk); [lia|].
  cbn [Std.scan_up].
  rewrite !(get_nth _ dflt) by lia. cbn [bind].
  rewrite Filter_lt_ltb. fold (key a first). fold (key a p).
  destruct (Z.ltb_spec (key a first) (key a p)) as [L|G].
  - destruct (IH (S first) Hp) as (f & E & Hf & Hkf & Hlt); [lia| |].
    + exists j. split; [|exact Hk].
      assert (j <> first) by (intros ->; lia). lia.
    + exists f. split; [exact E|]. split; [lia|]. split; [exact Hkf|].
      intros i Hi. destruct (Nat.eq_dec i first) as [->|N]; [exact L|].
      apply Hlt. lia.
  - exists first. split; [reflexivity|]. split; [lia|].
    split; [exact G|]. intros i Hi. lia.
Qed.

Lemma scan_down_spec (a : list Filter) (p : nat) (last : nat) :
  p < List.length a ->
  last <= List.length a ->
  (exists j, j < last /\ (key a j <= key a p)%Z) ->
  exists l,
    Std.scan_down Filter_lt a p last = Some l
    /\ l < last
    /\ (key a l <= key a p)%Z
    /\ forall i, l < i < last -> (key a p < key a i)%Z.
Proof.
  induction last as [|last IH]; intros Hp Hl (j & Hj & Hk); [lia|].
  cbn [Std.scan_down].
  rewrite !(get_nth _ dflt) by lia. cbn [bind].
  rewrite Filter_lt_ltb. fold (key a last). fold (key a p).
  destruct (Z.ltb_spec (key a p) (key a last)) as [L|G].
  - destruct IH as (l & E & Hlt & Hkl & Hgt); [exact Hp | lia | |].
    + exists j. split; [|exact Hk].
      assert (j <> last) by (intros ->; lia). lia.
    + exists l. split; [exact E|]. split; [lia|]. split; [exact Hkl|].
      intros i Hi. destruct (Nat.eq_dec i last) as [->|N]; [exact L|].
      apply Hgt. lia.
  - exists last. split; [reflexivity|]. split; [lia|].
    split; [exact G|]. intros i Hi. lia.
Qed.

(** The loop of [__unguarded_partition], from any of its states: below
    [first] nothing is greater than the pivot, from [last] on nothing is
    less, and an entry not less than the pivot is still ahead of
    [first]. *)
Lemma unguarded_partition_spec (p first0 last0 : nat) (fuel : nat) :
  forall (a : list Filter) first last,
    p < first0 -> first0 <= first -> first <= last -> last <= last0 ->
    last0 <= List.length a ->
    last0 - first < fuel ->
    (forall i, first0 <= i < first -> (key a i <= key a p)%Z) ->
    (forall i, last <= i < last0 -> (key a p <= key a i)%Z) ->
    (exists j, first <= j < last0 /\ (key a p <= key a j)%Z) ->
    exists a' cut,
      Std.unguarded_partition Filter_lt fuel a first last p = Some (a', cut)
      /\ first0 <= cut < last0
      /\ List.length a' = List.length a
      /\ Permutation a a'
      /\ (forall j, j < first0 \/ last0 <= j -> nth j a' dflt = nth j a dflt)
      /\ (forall i, first0 <= i < cut -> (key a' i <= key a' p)%Z)
      /\ (forall i, cut <= i < last0 -> (key a' p <= key a' i)%Z).
Proof.
  induction fuel as [|fuel IH];
    intros a first last Hp H0 Hfl Hl Hl0 Hfuel Hlow Hhigh (j & Hj & Hkj);
    [lia|].
  cbn [Std.unguarded_partition].
  destruct (scan_up_spec a p (List.length a - first) first)
    as (f & Ef & Hf & Hkf & Hltf); [lia | reflexivity | |].
  { exists j. split; [lia | exact Hkj]. }
  rewrite Ef. cbn [bind].
  assert (Hfj : f <= j).
  { destruct (Nat.le_gt_cases f j) as [L|G]; [exact L|].
    specialize (Hltf j). lia. }
  destruct (scan_down_spec a p last) as (l & El & Hll & Hkl & Hgtl);
    [lia | lia | |].
  { exists p. split; [lia|]. lia. }
  rewrite El. cbn [bind].
  destruct (Nat.ltb_spec f l) as [L|G].
  - rewrite (iter_swap_upd _ dflt) by lia. cbn [bind].
    set (a1 := upd (upd a f (nth l a dflt)) l (nth f a dflt)).
    assert (L1 : List.length a1 = List.length a)
      by (unfold a1; upd_len; reflexivity).
    assert (K1 : forall i, key a1 i = if i =? l then key a f
                                    else if i =? f then key a l else key a i).
    { intros i. unfold a1. rewrite !key_upd by (upd_len; lia).
      destruct (i =? l), (i =? f); reflexivity. }
    assert (Kp : key a1 p = key a p).
    { rewrite K1. destruct (Nat.eqb_spec p l), (Nat.eqb_spec p f); lia. }
    assert (I1 : forall i, first0 <= i < S f -> (key a1 i <= key a1 p)%Z).
    { intros i Hi. rewrite K1, Kp.
      destruct (Nat.eqb_spec i l); [lia|].
      destruct (Nat.eqb_spec i f); [lia|].
      destruct (Nat.lt_ge_cases i first) as [B|B].
      * apply Hlow. lia.
      * specialize (Hltf i). lia. }
    assert (I2 : forall i, l <= i < last0 -> (key a1 p <= key a1 i)%Z).
    { intros i Hi. rewrite Kp, K1.
      destruct (Nat.eqb_spec i l); [lia|].
      destruct (Nat.eqb_spec i f); [lia|].
      destruct (Nat.lt_ge_cases i last) as [B|B].
      * specialize (Hgtl i). lia.
      * apply Hhigh. lia. }
    assert (I3 : exists j, S f <= j < last0 /\ (key a1 p <= key a1 j)%Z).
    { exists l. split; [lia|]. rewrite Kp, K1, Nat.eqb_refl. exact Hkf. }
    destruct (IH a1 (S f) l Hp ltac:(lia) ltac:(lia) ltac:(lia)
                ltac:(lia) ltac:(lia) I1 I2 I3)
      as (a' & cut & E & Hc & La & Pa & Oa & Lo & Hi).
    exists a', cut. split; [exact E|]. split; [lia|].
      split; [lia|]. split.
      * etransitivity; [|exact Pa]. unfold a1.
        apply (swap_perm _ dflt); lia.
      * split; [|split; assumption].
        intros k Hk. rewrite Oa by exact Hk. unfold a1.
        rewrite !(nth_upd _ dflt) by (upd_len; lia).
        destruct (Nat.eqb_spec k l); [lia|].
        destruct (Nat.eqb_spec k f); [lia|]. reflexivity.
  - exists a, f. split; [reflexivity|]. split; [lia|].
    split; [reflexivity|]. split; [reflexivity|].
    split; [reflexivity|]. split.
    + intros i Hi. destruct (Nat.lt_ge_cases i first) as [B|B].
      * apply Hlow. lia.
      * specialize (Hltf i). lia.
    + intros i Hi. destruct (Nat.eq_dec i f) as [->|N]; [exact Hkf|].
      destruct (Nat.lt_ge_cases i last) as [B|B].
      * specialize (Hgtl i). lia.
      * apply Hhigh. lia.
Qed.

(** [__unguarded_partition_pivot] on a range of at least four entries:
    the median of three leaves an entry not less than the pivot inside
    the range, which keeps the scans of the partition inside it. *)
Lemma unguarded_partition_pivot_spec (a : list Filter) (first last : nat) :
  4 <= last - first -> last <= List.length a ->
  exists a' cut,
    Std.unguarded_partition_pivot Filter_lt a first last = Some (a', cut)
    /\ first < cut < last
    /\ List.length a' = List.length a
    /\ Permutation a a'
    /\ (forall j, j < first \/ last <= j -> nth j a' dflt = nth j a dflt)
    /\ (forall i, first <= i < cut -> (key a' i <= key a' first)%Z)
    /\ (forall i, cut <= i < last -> (key a' first <= key a' i)%Z).
Proof.
  intros Hn Hl. unfold Std.unguarded_partition_pivot.
  set (mid := first + (last - first) / 2).
  assert (Hmid : first + 2 <= mid <= last - 2).
  { unfold mid.
    pose proof (Nat.div_mod_eq (last - first) 2) as D.
    pose proof (Nat.mod_upper_bound (last - first) 2) as U. lia. }
  clearbody mid.
  assert (M : exists m,
             Std.move_median_to_first Filter_lt a first (first + 1) mid
               (last - 1)
             = Some (upd (upd a first (nth m a dflt)) m (nth first a dflt))
             /\ first < m < last
             /\ exists j, first < j < last /\ j <> m
                          /\ (key a m <= key a j)%Z).
  { unfold Std.move_median_to_first.
    rewrite !(get_nth _ dflt) by lia. cbn [bind].
    rewrite !Filter_lt_ltb.
    fold (key a (first + 1)). fold (key a mid). fold (key a (last - 1)).
    destruct (Z.ltb_spec (key a (first + 1)) (key a mid));
      destruct (Z.ltb_spec (key a mid) (key a (last - 1)));
      destruct (Z.ltb_spec (key a (first + 1)) (key a (last - 1)));
      rewrite (iter_swap_upd _ dflt) by lia;
      match goal with
      | |- context [upd (upd a first (nth ?m a dflt)) ?m _] =>
          exists m; split; [reflexivity|]; split; [lia|]
      end;
      first [ (exists (first + 1); split; [lia|]; split; lia)
            | (exists mid; split; [lia|]; split; lia)
            | (exists (last - 1); split; [lia|]; split; lia) ]. }
  destruct M as (m & Em & Hm & j & Hj & Njm & Hkj).
  rewrite Em. cbn [bind].
  set (a1 := upd (upd a first (nth m a dflt)) m (nth first a dflt)).
  assert (L1 : List.length a1 = List.length a)
    by (unfold a1; upd_len; reflexivity).
  assert (K1 : forall i, key a1 i = if i =? m then key a first
                                  else if i =? first then key a m else key a i).
  { intros i. unfold a1. rewrite !key_upd by (upd_len; lia).
    destruct (i =? m), (i =? first); reflexivity. }

  assert (I1 : forall i, first + 1 <= i < first + 1 ->
                         (key a1 i <= key a1 first)%Z) by (intros i Hi; lia).
  assert (I2 : forall i, last <= i < last -> (key a1 first <= key a1 i)%Z)
    by (intros i Hi; lia).
  assert (I3 : exists j, first + 1 <= j < last
                         /\ (key a1 first <= key a1 j)%Z).
  { exists j. split; [lia|]. rewrite !K1.
    destruct (Nat.eqb_spec first m); [lia|]. rewrite Nat.eqb_refl.
    destruct (Nat.eqb_spec j m); [lia|].
    destruct (Nat.eqb_spec j first); [lia|]. exact Hkj. }
  destruct (unguarded_partition_spec first (first + 1) last
              (List.length a) a1 (first + 1) last
              ltac:(lia) ltac:(lia) ltac:(lia) ltac:(lia) ltac:(lia)
              ltac:(lia) I1 I2 I3)
    as (a' & cut & E & Hc & La & Pa & Oa & Lo & Hi).
  exists a', cut. split; [exact E|]. split; [lia|]. split; [lia|].
    split.
    + etransitivity; [|exact Pa]. unfold a1. apply (swap_perm _ dflt); lia.
    + split.
      * intros k Hk. rewrite Oa by lia. unfold a1.
        rewrite !(nth_upd _ dflt) by (upd_len; lia).
        destruct (Nat.eqb_spec k m); [lia|].
        destruct (Nat.eqb_spec k first); [lia|]. reflexivity.
      * split.
        -- intros i Hi'. destruct (Nat.eq_dec i first) as [->|N]; [lia|].
           apply Lo. lia.
        -- exact Hi.
Qed.

End PartitionFacts.

(** *** The heap sort *)

Ltac div2_step x :=
  let q := fresh "q" in
  let r := fresh "r" in
  pose proof (Nat.div_mod_eq x 2);
  pose proof (Nat.mod_upper_bound x 2 ltac:(discriminate));
  set (q := (x / 2)%nat) in *; set (r := (x mod 2)%nat) in *;
  clearbody q r.

(** Linear arithmetic with halves. *)
Ltac dlia :=
  repeat match goal with
         | |- context [(?x / 2)%nat] => div2_step x
         | H : context [(?x / 2)%nat] |- _ => div2_step x
         | |- context [(?x mod 2)%nat] => div2_step x
         | H : context [(?x mod 2)%nat] |- _ => div2_step x
         end;
  lia.

Section HeapFacts.

Local Open Scope list_scope.
Local Open Scope nat_scope.

Lemma even_mod2 n : Nat.even n = (n mod 2 =? 0).
Proof.
  destruct (Nat.even n) eqn:E.
  - apply Nat.even_spec in E. destruct E as [m ->].
    symmetry. apply Nat.eqb_eq. rewrite Nat.mul_comm. apply Nat.Div0.mod_mul.
  - symmetry. apply Nat.eqb_neq. intros H.
    assert (Nat.even n = true); [|congruence].
    apply Nat.even_spec. exists (n / 2).
    pose proof (Nat.div_mod_eq n 2). lia.
Qed.

Lemma below_ge top h : below top h -> top <= h.
Proof. induction 1; lia. Qed.

Lemma below_parent top h :
  below top h -> h <> top ->
  below top ((h - 1) / 2) /\ top <= (h - 1) / 2 /\ 1 <= h.
Proof.
  intros B N. inversion B as [E|h' B' E|h' B' E]; [congruence| |].
  - replace ((2 * h' + 1 - 1) / 2) with h' by dlia.
    pose proof (below_ge _ _ B'). split; [exact B'|lia].
  - replace ((2 * h' + 2 - 1) / 2) with h' by dlia.
    pose proof (below_ge _ _ B'). split; [exact B'|lia].
Qed.

Lemma below_child top h c :
  below top h -> 1 <= c -> (c - 1) / 2 = h -> below top c.
Proof.
  intros B Hc E.
  assert (C : c = 2 * h + 1 \/ c = 2 * h + 2) by dlia.
  destruct C as [->| ->]; constructor; exact B.
Qed.

(** Moving the content of place [j] into the hole at [i] moves the hole
    to [j]. *)
Lemma hole_move_perm (a : list Filter) i j v :
  i < List.length a -> j < List.length a -> i <> j ->
  Permutation (upd a i v) (upd (upd a i (nth j a dflt)) j v).
Proof.
  intros Hi Hj N.
  pose proof (swap_perm _ dflt (upd a i v) i j) as P.
  rewrite !(upd_length _ a i v) in P by exact Hi.
  specialize (P Hi Hj).
  rewrite !(nth_upd _ dflt) in P by exact Hi.
  rewrite Nat.eqb_refl in P.
  destruct (Nat.eqb_spec j i) as [->|_]; [congruence|].
  rewrite (upd_upd _ dflt) in P by exact Hi. exact P.
Qed.

Section Heap.

Variables first len top : nat.

(** The hole goes down to its greatest child. *)
Lemma hole_down (a : list Filter) h c :
  first + len <= List.length a ->
  below top h -> 1 <= c < len -> (c - 1) / 2 = h ->
  (forall j, 1 <= j < len -> (j - 1) / 2 = h ->
     (key a (first + j) <= key a (first + c))%Z) ->
  hole_inv a first len top h ->
  hole_inv (upd a (first + h) (nth (first + c) a dflt)) first len top c.
Proof.
  intros Hlen B Hc Ec Hmax [I1 I2].
  pose proof (below_ge _ _ B) as Hge.
  assert (KU : forall j, key (upd a (first + h) (nth (first + c) a dflt))
                           (first + j)
                         = if j =? h then key a (first + c)
                           else key a (first + j)).
  { intros j. rewrite key_upd by dlia. fold (key a (first + c)).
    destruct (Nat.eqb_spec (first + j) (first + h)),
      (Nat.eqb_spec j h); try lia; reflexivity. }
  split.
  - intros j Hj Ht Nc Npc. rewrite !KU.
    destruct (Nat.eqb_spec j h) as [->|Njh].
    + destruct (Nat.eqb_spec ((h - 1) / 2) h) as [E|_]; [dlia|].
      apply I2; [dlia | lia | exact Ec].
    + destruct (Nat.eqb_spec ((j - 1) / 2) h) as [E|Nph].
      * apply Hmax; assumption.
      * apply I1; assumption.
  - intros Nct j Hj Ej. rewrite !KU.
    destruct (Nat.eqb_spec j h) as [->|Njh]; [dlia|].
    rewrite Ec, Nat.eqb_refl.
    rewrite <- Ej. apply I1; [exact Hj | dlia | exact Njh | dlia].
Qed.

(** The hole goes up when the value to place is greater than what is
    above it. *)
Lemma hole_up (a : list Filter) h v :
  first + len <= List.length a ->
  below top h -> h < len -> h <> top ->
  hole_inv a first len top h ->
  (forall j, 1 <= j < len -> (j - 1) / 2 = h ->
     (key a (first + j) <= stops v)%Z) ->
  (key a (first + (h - 1) / 2) < stops v)%Z ->
  hole_inv (upd a (first + h) (nth (first + (h - 1) / 2) a dflt))
    first len top ((h - 1) / 2)
  /\ (forall j, 1 <= j < len -> (j - 1) / 2 = (h - 1) / 2 ->
        (key (upd a (first + h) (nth (first + (h - 1) / 2) a dflt))
           (first + j) <= stops v)%Z).
Proof.
  intros Hlen B Hh Nt [I1 I2] Hch Hlt.
  destruct (below_parent _ _ B Nt) as (Bp & Hp & H1).
  set (g := (h - 1) / 2) in *.
  assert (Hg : g < h) by (unfold g; dlia).
  assert (Eg : (h - 1) / 2 = g) by reflexivity.
  assert (KU : forall j, key (upd a (first + h) (nth (first + g) a dflt))
                           (first + j)
                         = if j =? h then key a (first + g)
                           else key a (first + j)).
  { intros j. rewrite key_upd by lia. fold (key a (first + g)).
    destruct (Nat.eqb_spec (first + j) (first + h)),
      (Nat.eqb_spec j h); try lia; reflexivity. }
  split; [split|].
  - intros j Hj Ht Ng Npg. rewrite !KU.
    destruct (Nat.eqb_spec j h) as [->|Njh]; [congruence|].
    destruct (Nat.eqb_spec ((j - 1) / 2) h) as [E|Nph].
    + exact (I2 Nt j Hj E).
    + apply I1; assumption.
  - intros Ngt j Hj Ej. rewrite !KU.
    destruct (below_parent _ _ Bp Ngt) as (_ & Hpg & Hg1).
    destruct (Nat.eqb_spec ((g - 1) / 2) h) as [E|_]; [dlia|].
    assert (Gp : (key a (first + g) <= key a (first + (g - 1) / 2))%Z).
    { apply I1; [lia | exact Hpg | lia | dlia]. }
    destruct (Nat.eqb_spec j h) as [->|Njh]; [exact Gp|].
    assert (Jg : (key a (first + j) <= key a (first + g))%Z).
    { rewrite <- Ej. apply I1; [exact Hj | rewrite Ej; exact Hp
                               | exact Njh | rewrite Ej; lia]. }
    lia.
  - intros j Hj Ej. rewrite KU.
    destruct (Nat.eqb_spec j h) as [->|Njh]; [lia|].
    assert (Jg : (key a (first + j) <= key a (first + g))%Z).
    { rewrite <- Ej. apply I1; [exact Hj | rewrite Ej; exact Hp
                               | exact Njh | rewrite Ej; lia]. }
    lia.
Qed.

(** The value goes into the hole once it fits there. *)
Lemma hole_fill (a : list Filter) h v :
  first + len <= List.length a ->
  below top h -> h < len ->
  hole_inv a first len top h ->
  (forall j, 1 <= j < len -> (j - 1) / 2 = h ->
     (key a (first + j) <= stops v)%Z) ->
  (h = top \/ (stops v <= key a (first + (h - 1) / 2))%Z) ->
  heap_from (upd a (first + h) v) first len top.
Proof.
  intros Hlen B Hh [I1 I2] Hch Hfit j Hj Ht.
  assert (KU : forall j, key (upd a (first + h) v) (first + j)
                         = if j =? h then stops v else key a (first + j)).
  { intros i. rewrite key_upd by lia.
    destruct (Nat.eqb_spec (first + i) (first + h)),
      (Nat.eqb_spec i h); try lia; reflexivity. }
  rewrite !KU.
  destruct (Nat.eqb_spec j h) as [->|Njh].
  - destruct (Nat.eqb_spec ((h - 1) / 2) h) as [E|_]; [dlia|].
    destruct Hfit as [->|Hfit]; [dlia | exact Hfit].
  - destruct (Nat.eqb_spec ((j - 1) / 2) h) as [E|Nph].
    + apply Hch; assumption.
    + apply I1; assumption.
Qed.

Lemma sink_spec (fuel : nat) :
  forall (a : list Filter) h,
    first + len <= List.length a ->
    below top h -> h < len -> len - h <= fuel ->
    hole_inv a first len top h ->
    exists a' h',
      Std.sink Filter_lt fuel a first h len = Some (a', h')
      /\ below top h' /\ h' < len /\ (len - 1) / 2 <= h'
      /\ List.length a' = List.length a
      /\ hole_inv a' first len top h'
      /\ (forall v, Permutation (upd a (first + h) v)
                      (upd a' (first + h') v))
      /\ (forall j, j < first + top \/ first + len <= j ->
            nth j a' dflt = nth j a dflt).
Proof.
  induction fuel as [|fuel IH]; intros a h Hlen B Hh Hfuel Inv; [lia|].
  pose proof (below_ge _ _ B) as Hge.
  cbn [Std.sink].
  destruct (Nat.ltb_spec h ((len - 1) / 2)) as [L|G].
  - assert (Hr : 2 * (h + 1) < len) by dlia.
    rewrite !(get_nth _ dflt) by lia. cbn [bind].
    rewrite Filter_lt_ltb.
    fold (key a (first + 2 * (h + 1))).
    fold (key a (first + (2 * (h + 1) - 1))).
    set (c := if (key a (first + 2 * (h + 1))
               <? key a (first + (2 * (h + 1) - 1)))%Z
              then 2 * (h + 1) - 1 else 2 * (h + 1)).
    assert (Hc : 1 <= c < len /\ (c - 1) / 2 = h
                 /\ forall j, 1 <= j < len -> (j - 1) / 2 = h ->
                      (key a (first + j) <= key a (first + c))%Z).
    { unfold c.
      destruct (Z.ltb_spec (key a (first + 2 * (h + 1)))
                  (key a (first + (2 * (h + 1) - 1)))) as [Lt|Ge].
      - split; [lia|]. split; [dlia|]. intros j Hj Ej.
        assert (C : j = 2 * (h + 1) - 1 \/ j = 2 * (h + 1)) by dlia.
        destruct C as [->| ->]; lia.
      - split; [lia|]. split; [dlia|]. intros j Hj Ej.
        assert (C : j = 2 * (h + 1) - 1 \/ j = 2 * (h + 1)) by dlia.
        destruct C as [->| ->]; lia. }
    clearbody c. destruct Hc as (Hc & Ec & Hmax).
    rewrite (get_nth _ dflt) by lia. cbn [bind].
    rewrite (set_upd _ a) by lia. cbn [bind].
    set (a1 := upd a (first + h) (nth (first + c) a dflt)).
    assert (L1 : List.length a1 = List.length a)
      by (unfold a1; upd_len; reflexivity).
    assert (Hch : h < c) by dlia.
    destruct (IH a1 c) as (a' & h' & E & B' & Hh' & Hb & La & Inv' & Pm & Out).
    + lia.
    + apply (below_child top h c); [exact B | lia | exact Ec].
    + lia.
    + lia.
    + apply hole_down; assumption.
    + exists a', h'. split; [exact E|]. split; [exact B'|].
      split; [exact Hh'|]. split; [exact Hb|]. split; [lia|].
      split; [exact Inv'|]. split.
      * intros v. etransitivity; [|apply Pm]. unfold a1.
        apply hole_move_perm; lia.
      * intros j Hj. rewrite Out by exact Hj. unfold a1.
        rewrite (nth_upd _ dflt) by lia.
        destruct (Nat.eqb_spec j (first + h)); [lia|reflexivity].
  - exists a, h. split; [reflexivity|]. split; [exact B|].
    split; [exact Hh|]. split; [exact G|]. split; [reflexivity|].
    split; [exact Inv|]. split; [reflexivity|]. reflexivity.
Qed.

Lemma push_heap_spec (v : Filter) (fuel : nat) :
  forall (a : list Filter) h,
    first + len <= List.length a ->
    below top h -> h < len -> h < fuel ->
    hole_inv a first len top h ->
    (forall j, 1 <= j < len -> (j - 1) / 2 = h ->
       (key a (first + j) <= stops v)%Z) ->
    exists a',
      Std.push_heap Filter_lt fuel a first h top v = Some a'
      /\ List.length a' = List.length a
      /\ heap_from a' first len top
      /\ Permutation (upd a (first + h) v) a'
      /\ (forall j, j < first + top \/ first + len <= j ->
            nth j a' dflt = nth j a dflt).
Proof.
  induction fuel as [|fuel IH]; intros a h Hlen B Hh Hfuel Inv Hch; [lia|].
  pose proof (below_ge _ _ B) as Hge.
  assert (Fill : (h = top \/ (stops v <= key a (first + (h - 1) / 2))%Z) ->
                 exists a',
                   Std.set a (first + h) v = Some a'
                   /\ List.length a' = List.length a
                   /\ heap_from a' first len top
                   /\ Permutation (upd a (first + h) v) a'
                   /\ (forall j, j < first + top \/ first + len <= j ->
                         nth j a' dflt = nth j a dflt)).
  { intros Hfit. exists (upd a (first + h) v).
    split; [apply set_upd; lia|]. split; [upd_len; reflexivity|].
    split; [apply hole_fill; assumption|]. split; [reflexivity|].
    intros j Hj. rewrite (nth_upd _ dflt) by lia.
    destruct (Nat.eqb_spec j (first + h)); [lia|reflexivity]. }
  cbn [Std.push_heap].
  destruct (Nat.ltb_spec top h) as [L|G].
  - assert (Nt : h <> top) by lia.
    destruct (below_parent _ _ B Nt) as (Bp & Hp & H1).
    rewrite (get_nth _ dflt) by dlia. cbn [bind].
    rewrite Filter_lt_ltb. fold (key a (first + (h - 1) / 2)).
    destruct (Z.ltb_spec (key a (first + (h - 1) / 2)) (stops v)) as [Lt|Ge].
    + rewrite (set_upd _ a) by lia. cbn [bind].
      destruct (hole_up a h v Hlen B Hh Nt Inv Hch Lt) as [Inv' Hch'].
      set (a1 := upd a (first + h) (nth (first + (h - 1) / 2) a dflt))
        in *.
      assert (L1 : List.length a1 = List.length a)
        by (unfold a1; upd_len; reflexivity).
      destruct (IH a1 ((h - 1) / 2)) as (a' & E & La & Hp' & Pm & Out);
        [lia | exact Bp | dlia | dlia | exact Inv' | exact Hch' |].
      exists a'. split; [exact E|]. split; [lia|]. split; [exact Hp'|].
      split.
      * etransitivity; [|exact Pm]. unfold a1.
        apply hole_move_perm; dlia.
      * intros j Hj. rewrite Out by exact Hj. unfold a1.
        rewrite (nth_upd _ dflt) by lia.
        destruct (Nat.eqb_spec j (first + h)); [lia|reflexivity].
    + apply Fill. right. exact Ge.
  - apply Fill. left. lia.
Qed.

(** [__adjust_heap] with the hole at the top of a subtree whose parts
    below are heaps: [value] finds its place. *)
Lemma adjust_heap_spec (a : list Filter) (v : Filter) :
  first + len <= List.length a -> top < len ->
  heap_from a first len (top + 1) ->
  exists a',
    Std.adjust_heap Filter_lt a first top len v = Some a'
    /\ List.length a' = List.length a
    /\ heap_from a' first len top
    /\ Permutation (upd a (first + top) v) a'
    /\ (forall j, j < first + top \/ first + len <= j ->
          nth j a' dflt = nth j a dflt).
Proof.
  intros Hlen Ht Hp. unfold Std.adjust_heap.
  assert (Inv : hole_inv a first len top top).
  { split; [|congruence]. intros j Hj Hpj _ N. apply Hp; [exact Hj|lia]. }
  destruct (sink_spec (S len) a top Hlen (below_top top) Ht ltac:(lia) Inv)
    as (a1 & h1 & E1 & B1 & Hh1 & Hb1 & L1 & Inv1 & Pm1 & Out1).
  rewrite E1. cbn [bind].
  rewrite even_mod2.
  assert (Step2 : exists a2 h2,
             (if (len mod 2 =? 0) && (h1 =? (len - 2) / 2)
              then x <- Std.get a1 (first + (2 * (h1 + 1) - 1)) ;;
                   a2 <- Std.set a1 (first + h1) x ;;
                   Some (a2, 2 * (h1 + 1) - 1)
              else Some (a1, h1)) = Some (a2, h2)
             /\ below top h2 /\ h2 < len
             /\ List.length a2 = List.length a
             /\ hole_inv a2 first len top h2
             /\ (forall j, 1 <= j < len -> (j - 1) / 2 <> h2)
             /\ (forall v, Permutation (upd a (first + top) v)
                             (upd a2 (first + h2) v))
             /\ (forall j, j < first + top \/ first + len <= j ->
                   nth j a2 dflt = nth j a dflt)).
  { pose proof (below_ge _ _ B1) as Hge.
    destruct (Nat.eqb_spec (len mod 2) 0) as [Ev|Od];
      [destruct (Nat.eqb_spec h1 ((len - 2) / 2)) as [Eh|Nh]|];
      cbn [andb].
    - set (c := 2 * (h1 + 1) - 1).
      assert (Hc : c = len - 1 /\ (c - 1) / 2 = h1 /\ 1 <= c < len)
        by (unfold c; dlia).
      destruct Hc as (Hc & Ec & Hc1).
      rewrite (get_nth _ dflt) by lia. cbn [bind].
      rewrite (set_upd _ a1) by lia. cbn [bind].
      exists (upd a1 (first + h1) (nth (first + c) a1 dflt)), c.
      split; [reflexivity|].
      split; [apply (below_child top h1 c); [exact B1 | lia | exact Ec]|].
      split; [lia|]. split; [upd_len; lia|]. split.
      + apply hole_down; try assumption; [lia|].
        intros j Hj Ej. replace j with c by dlia. lia.
      + split; [intros j Hj; dlia|]. split.
        * intros w. etransitivity; [apply Pm1|].
          apply hole_move_perm; dlia.
        * intros j Hj. rewrite (nth_upd _ dflt) by lia.
          destruct (Nat.eqb_spec j (first + h1)); [lia|].
          apply Out1. exact Hj.
    - exists a1, h1. split; [reflexivity|]. split; [exact B1|].
      split; [exact Hh1|]. split; [exact L1|]. split; [exact Inv1|].
      split; [intros j Hj; dlia|]. split; [exact Pm1 | exact Out1].
    - exists a1, h1. split; [reflexivity|]. split; [exact B1|].
      split; [exact Hh1|]. split; [exact L1|]. split; [exact Inv1|].
      split; [intros j Hj; dlia|]. split; [exact Pm1 | exact Out1]. }
  destruct Step2 as (a2 & h2 & E2 & B2 & Hh2 & L2 & Inv2 & Leaf & Pm2 & Out2).
  rewrite E2. cbn [bind].
  destruct (push_heap_spec v (S h2) a2 h2) as (a' & E & La & Hp' & Pm & Out);
    [lia | exact B2 | exact Hh2 | lia | exact Inv2 | |].
  { intros j Hj Ej. exfalso. apply (Leaf j Hj Ej). }
  exists a'. split; [exact E|]. split; [lia|]. split; [exact Hp'|].
  split.
  - etransitivity; [apply Pm2 | exact Pm].
  - intros j Hj. rewrite Out by exact Hj. apply Out2. exact Hj.
Qed.

End Heap.

End HeapFacts.

(** *** The heap sort, from the heap to the sorted range *)

Section HeapSortFacts.

Local Open Scope list_scope.
Local Open Scope nat_scope.

(** Rearranging inside a range keeps what holds for every entry of the
    range. *)
Lemma rearranged_Forall (P : Filter -> Prop) (a a' : list Filter)
    first last :
  first <= last -> last <= List.length a ->
  rearranged first last a a' ->
  (forall i, first <= i < last -> P (nth i a dflt)) ->
  forall i, first <= i < last -> P (nth i a' dflt).
Proof.
  intros H1 H2 (L & Pm & Out) H.
  apply (Forall_slice _ dflt P a' first last H1); [lia|].
  eapply Permutation_Forall.
  - apply (perm_slice _ dflt a a' first last); assumption.
  - apply (Forall_slice _ dflt P a first last H1 H2). exact H.
Qed.

Lemma rearranged_refl first last a : rearranged first last a a.
Proof. split; [reflexivity|]. split; [reflexivity|]. reflexivity. Qed.

Lemma rearranged_trans first last a b c :
  rearranged first last a b -> rearranged first last b c ->
  rearranged first last a c.
Proof.
  intros (L1 & P1 & O1) (L2 & P2 & O2).
  split; [lia|]. split; [etransitivity; eassumption|].
  intros j Hj. rewrite O2, O1 by exact Hj. reflexivity.
Qed.

Lemma rearranged_wider first last first' last' a b :
  first' <= first -> last <= last' ->
  rearranged first last a b -> rearranged first' last' a b.
Proof.
  intros H1 H2 (L & P & O). split; [exact L|]. split; [exact P|].
  intros j Hj. apply O. lia.
Qed.

(** The root of a heap is its greatest entry. *)
Lemma root_max (a : list Filter) first len :
  heap_from a first len 0 ->
  forall j, j < len -> (key a (first + j) <= key a (first + 0))%Z.
Proof.
  intros H j. induction j as [j IH] using lt_wf_ind. intros Hj.
  destruct j as [|j]; [lia|].
  specialize (H (S j) ltac:(lia) ltac:(lia)).
  specialize (IH ((S j - 1) / 2) ltac:(dlia) ltac:(dlia)). lia.
Qed.

(** [__pop_heap(first, last, last)]: the greatest entry goes to [last],
    the others are a heap again. *)
Lemma pop_heap_spec (a : list Filter) first len :
  1 <= len -> first + len < List.length a ->
  heap_from a first (len + 1) 0 ->
  exists a',
    Std.pop_heap Filter_lt a first (first + len) (first + len) = Some a'
    /\ rearranged first (first + len + 1) a a'
    /\ heap_from a' first len 0
    /\ nth (first + len) a' dflt = nth first a dflt.
Proof.
  intros H1 Hlen Hp. unfold Std.pop_heap.
  rewrite !(get_nth _ dflt) by lia. cbn [bind].
  rewrite (set_upd _ a) by lia. cbn [bind].
  replace (first + len - first) with len by lia.
  set (a0 := upd a (first + len) (nth first a dflt)).
  assert (L0 : List.length a0 = List.length a)
    by (unfold a0; upd_len; reflexivity).
  destruct (adjust_heap_spec first len 0 a0 (nth (first + len) a dflt))
    as (a' & E & La & Hp' & Pm & Out); [lia | lia | |].
  { intros j Hj Hk. unfold a0. rewrite !key_upd by lia.
    destruct (Nat.eqb_spec (first + j) (first + len)); [lia|].
    destruct (Nat.eqb_spec (first + (j - 1) / 2) (first + len)); [dlia|].
    apply Hp; lia. }
  exists a'. split; [exact E|]. split; [|split; [exact Hp'|]].
  - split; [lia|]. split.
    + etransitivity; [|exact Pm]. unfold a0.
      rewrite Nat.add_0_r.
      apply (swap_perm _ dflt a (first + len) first); lia.
    + intros j Hj. rewrite Out by lia. unfold a0.
      rewrite (nth_upd _ dflt) by lia.
      destruct (Nat.eqb_spec j (first + len)); [lia|reflexivity].
  - rewrite Out by lia. unfold a0. rewrite (nth_upd _ dflt) by lia.
    rewrite Nat.eqb_refl. reflexivity.
Qed.

Lemma make_heap_loop_spec first len (parent : nat) :
  forall (a : list Filter),
    first + len <= List.length a -> parent < len ->
    heap_from a first len (parent + 1) ->
    exists a',
      Std.make_heap_loop Filter_lt parent a first len = Some a'
      /\ rearranged first (first + len) a a'
      /\ heap_from a' first len 0.
Proof.
  induction parent as [|parent IH]; intros a Hlen Hp Hh;
    cbn [Std.make_heap_loop];
    rewrite (get_nth _ dflt) by lia; cbn [bind].
  - destruct (adjust_heap_spec first len 0 a (nth (first + 0) a dflt))
      as (a' & E & La & Hp' & Pm & Out); [lia | lia | exact Hh |].
    rewrite E. cbn [bind]. exists a'. split; [reflexivity|].
    split; [|exact Hp'].
    split; [exact La|]. split.
    + rewrite (upd_same _ dflt) in Pm by lia. exact Pm.
    + intros j Hj. apply Out. lia.
  - destruct (adjust_heap_spec first len (S parent) a
                (nth (first + S parent) a dflt))
      as (a1 & E & La & Hp' & Pm & Out); [lia | lia | |].
    { intros j Hj Hk. apply Hh; [exact Hj | lia]. }
    rewrite E. cbn [bind].
    destruct (IH a1) as (a' & E' & R' & Hp''); [lia | lia | |].
    { intros j Hj Hk. apply Hp'; [exact Hj | lia]. }
    exists a'. split; [exact E'|]. split; [|exact Hp''].
    eapply rearranged_trans; [|exact R'].
    split; [exact La|]. split.
    + rewrite (upd_same _ dflt) in Pm by lia. exact Pm.
    + intros j Hj. apply Out. lia.
Qed.

Lemma make_heap_spec (a : list Filter) first last :
  first <= last -> last <= List.length a ->
  exists a',
    Std.make_heap Filter_lt a first last = Some a'
    /\ rearranged first last a a'
    /\ heap_from a' first (last - first) 0.
Proof.
  intros H1 H2. unfold Std.make_heap.
  destruct (Nat.ltb_spec (last - first) 2) as [L|G].
  - exists a. split; [reflexivity|]. split; [apply rearranged_refl|].
    intros j Hj. lia.
  - destruct (make_heap_loop_spec first (last - first)
                ((last - first - 2) / 2) a)
      as (a' & E & R & Hp); [lia | dlia | |].
    { intros j Hj Hk. dlia. }
    exists a'. split; [exact E|]. split; [|exact Hp].
    replace (first + (last - first)) with last in R by lia. exact R.
Qed.

(** [__sort_heap]: the heap of [n] entries shrinks from the right, its
    greatest entry going in front of the sorted part behind it. *)
Lemma sort_heap_spec first total (n : nat) :
  forall (a : list Filter),
    n <= total -> first + total <= List.length a ->
    heap_from a first n 0 ->
    sorted_range a (first + n) (first + total) ->
    (forall i j, i < n -> n <= j < total ->
       (key a (first + i) <= key a (first + j))%Z) ->
    exists a',
      Std.sort_heap Filter_lt a first n = Some a'
      /\ rearranged first (first + n) a a'
      /\ sorted_range a' first (first + total).
Proof.
  induction n as [|n IH]; intros a Hn Hlen Hp Hs Hle.
  - exists a. split; [reflexivity|]. split; [apply rearranged_refl|].
    rewrite Nat.add_0_r in Hs. exact Hs.
  - destruct n as [|m].
    + exists a. split; [reflexivity|]. split; [apply rearranged_refl|].
      intros i j Hi Hij Hj.
      destruct (Nat.eq_dec i first) as [->|Ni].
      * destruct (Nat.eq_dec j first) as [->|Nj]; [lia|].
        specialize (Hle 0 (j - first) ltac:(lia) ltac:(lia)).
        rewrite Nat.add_0_r in Hle.
        replace (first + (j - first)) with j in Hle by lia. exact Hle.
      * apply Hs; lia.
    + cbn [Std.sort_heap].
      destruct (pop_heap_spec a first (S m))
        as (a1 & E & R1 & Hp1 & Top); [lia | lia | |].
      { replace (S m + 1) with (S (S m)) by lia. exact Hp. }
      rewrite E. cbn [bind].
      pose proof R1 as (L1 & Pm1 & Out1).
      pose proof (root_max a first (S (S m)) Hp) as Rm.
      assert (In1 : forall i, i < S (S m) ->
                forall bound : Z,
                  (forall k, k < S (S m) -> (key a (first + k) <= bound)%Z) ->
                  (key a1 (first + i) <= bound)%Z).
      { intros i Hi bound Hb.
        apply (rearranged_Forall (fun x => (stops x <= bound)%Z) a a1
                 first (first + S m + 1)); [lia | lia | exact R1 | | lia].
        intros k Hk. specialize (Hb (k - first) ltac:(lia)).
        replace (first + (k - first)) with k in Hb by lia. exact Hb. }
      assert (Kt : key a1 (first + S m) = key a (first + 0)).
      { unfold key. rewrite Top, Nat.add_0_r. reflexivity. }
      assert (Kout : forall j, S (S m) <= j ->
                key a1 (first + j) = key a (first + j)).
      { intros j Hj. unfold key. rewrite Out1 by lia. reflexivity. }
      destruct (IH a1) as (a' & E' & R' & Hs');
        [lia | lia | exact Hp1 | | |].
      * intros i j Hi Hij Hj.
        destruct (Nat.eq_dec i (first + S m)) as [->|Ni].
        -- destruct (Nat.eq_dec j (first + S m)) as [->|Nj]; [lia|].
           rewrite Kt. replace j with (first + (j - first)) by lia.
           rewrite Kout by lia. apply Hle; lia.
        -- replace i with (first + (i - first)) by lia.
           replace j with (first + (j - first)) by lia.
           rewrite !Kout by lia.
           apply Hs; lia.
      * intros i j Hi Hj.
        destruct (Nat.eq_dec j (S m)) as [->|Nj].
        -- rewrite Kt. apply In1; [lia|]. intros k Hk. apply Rm. exact Hk.
        -- rewrite (Kout j) by lia. apply In1; [lia|].
           intros k Hk. apply Hle; lia.
      * exists a'. split; [exact E'|]. split; [|exact Hs'].
        eapply rearranged_trans.
        -- eapply rearranged_wider; [| |exact R1]; lia.
        -- eapply rearranged_wider; [| |exact R']; lia.
Qed.

(** [__partial_sort(first, last, last)], the heap sort of the range. *)
Lemma partial_sort_spec (a : list Filter) first last :
  first <= last -> last <= List.length a ->
  exists a',
    Std.partial_sort Filter_lt a first last last = Some a'
    /\ rearranged first last a a'
    /\ sorted_range a' first last.
Proof.
  intros H1 H2. unfold Std.partial_sort, Std.heap_select.
  destruct (make_heap_spec a first last H1 H2) as (a1 & E1 & R1 & Hp).
  rewrite E1. cbn [bind].
  rewrite Nat.sub_diag. cbn [Std.heap_select_loop bind].
  pose proof R1 as (L1 & _ & _).
  destruct (sort_heap_spec first (last - first) (last - first) a1)
    as (a' & E & R & Hs); [lia | lia | exact Hp | | |].
  - intros i j Hi Hij Hj. lia.
  - intros i j Hi Hj. lia.
  - exists a'. split; [exact E|].
    replace (first + (last - first)) with last in * by lia.
    split; [|exact Hs].
    eapply rearranged_trans; [exact R1 | exact R].
Qed.

End HeapSortFacts.

(** *** Introsort *)

Section IntrosortFacts.

Local Open Scope list_scope.
Local Open Scope nat_scope.

Lemma introsort_loop_spec (depth_limit : nat) :
  forall (a : list Filter) first last,
    first <= last -> last <= List.length a ->
    exists a',
      Std.introsort_loop Filter_lt depth_limit a first last = Some a'
      /\ rearranged first last a a'
      /\ nearly_sorted a' first last.
Proof.
  induction depth_limit as [|d IH]; intros a first last H1 H2;
    cbn [Std.introsort_loop]; unfold Std.S_threshold;
    destruct (Nat.ltb_spec 16 (last - first)) as [L|G].
  - destruct (partial_sort_spec a first last H1 H2) as (a' & E & R & Hs).
    exists a'. split; [exact E|]. split; [exact R|].
    intros i Hi Hl. apply Hs; lia.
  - exists a. split; [reflexivity|]. split; [apply rearranged_refl|].
    intros i Hi Hl. lia.
  - destruct (unguarded_partition_pivot_spec a first last)
      as (a1 & cut & E & Hc & L1 & P1 & O1 & Lo & Hi); [lia | lia |].
    rewrite E. cbn [bind].
    destruct (IH a1 cut last) as (a2 & E2 & R2 & N2); [lia | lia |].
    rewrite E2. cbn [bind].
    pose proof R2 as (L2 & P2 & O2).
    destruct (IH a2 first cut) as (a3 & E3 & R3 & N3); [lia | lia |].
    pose proof R3 as (L3 & P3 & O3).
    set (pv := key a1 first) in *.
    assert (Lo2 : forall i, first <= i < cut -> (key a2 i <= pv)%Z).
    { intros i Hi'. unfold key. rewrite O2 by lia. apply Lo. exact Hi'. }
    assert (Hi2 : forall i, cut <= i < last -> (pv <= key a2 i)%Z).
    { apply (rearranged_Forall (fun x => (pv <= stops x)%Z) a1 a2 cut last);
        [lia | lia | exact R2 | exact Hi]. }
    assert (Lo3 : forall i, first <= i < cut -> (key a3 i <= pv)%Z).
    { apply (rearranged_Forall (fun x => (stops x <= pv)%Z) a2 a3 first cut);
        [lia | lia | exact R3 | exact Lo2]. }
    assert (Hi3 : forall i, cut <= i < last -> (pv <= key a3 i)%Z).
    { intros i Hi'. unfold key. rewrite O3 by lia. apply Hi2. exact Hi'. }
    exists a3. split; [exact E3|]. split.
    + eapply rearranged_trans; [|eapply rearranged_trans].
      * split; [exact L1|]. split; [exact P1 | exact O1].
      * eapply rearranged_wider; [| |exact R2]; lia.
      * eapply rearranged_wider; [| |exact R3]; lia.
    + intros i Hi' Hl.
      destruct (Nat.lt_ge_cases i cut) as [B|B].
      * apply N3; lia.
      * destruct (Nat.lt_ge_cases (i - 16) cut) as [B'|B'].
        -- specialize (Lo3 (i - 16) ltac:(lia)).
           specialize (Hi3 i ltac:(lia)). lia.
        -- unfold key. rewrite !O3 by lia. apply N2; lia.
  - exists a. split; [reflexivity|]. split; [apply rearranged_refl|].
    intros i Hi Hl. lia.
Qed.

(** [std::sort] returns, and what it returns is the functional insertion
    sort of a rearrangement of the vector; up to 16 entries, of the
    vector itself. *)
Lemma sort_spec (a : list Filter) :
  exists a',
    Std.sort Filter_lt a = Some (insertion_sort a')
    /\ Permutation a a'
    /\ (List.length a <= 16 -> a' = a).
Proof.
  unfold Std.sort.
  destruct (Nat.eqb_spec (List.length a) 0) as [E0|N0].
  - exists a. destruct a; [|discriminate].
    split; [reflexivity|]. split; [reflexivity|]. reflexivity.
  - destruct (Nat.le_gt_cases (List.length a) 16) as [S|B].
    + exists a. split; [|split; reflexivity].
      replace (Std.introsort_loop Filter_lt (Nat.log2 (List.length a) * 2)
                 a 0 (List.length a)) with (Some a).
      * cbn [bind]. apply final_insertion_sort_spec. intros i Hi. lia.
      * destruct (Nat.log2 (List.length a) * 2);
          cbn [Std.introsort_loop]; unfold Std.S_threshold;
          destruct (Nat.ltb_spec 16 (List.length a - 0)); try lia;
          reflexivity.
    + destruct (introsort_loop_spec (Nat.log2 (List.length a) * 2) a 0
                  (List.length a)) as (a' & E & (L & P & O) & Ns);
        [lia | lia |].
      rewrite E. cbn [bind]. exists a'.
      split; [|split; [exact P | lia]].
      rewrite <- L. apply final_insertion_sort_spec.
      intros i. induction i as [i IHi] using lt_wf_ind. intros Hi.
      destruct (Nat.lt_ge_cases (i - 16) 16) as [C|C].
      * exists (i - 16). split; [exact C|]. apply Ns; lia.
      * destruct (IHi (i - 16)) as (j & Hj & Hk); [lia | lia |].
        exists j. split; [exact Hj|].
        specialize (Ns i ltac:(lia) ltac:(lia)). lia.
Qed.

End IntrosortFacts.

(** *** Stability of the insertion sort *)

Section StabilityFacts.

Local Open Scope list_scope.

Lemma with_stops_app n l1 l2 :
  with_stops n (l1 ++ l2) = with_stops n l1 ++ with_stops n l2.
Proof. apply filter_app. Qed.

(** A new entry goes behind the entries of its own stop count. *)
Lemma insert_sorted_stable n x acc :
  StronglySorted not_less acc ->
  with_stops n (insert_sorted x acc) = with_stops n acc ++ with_stops n [x].
Proof.
  induction 1 as [|y t Hs IH Hy].
  - reflexivity.
  - cbn [insert_sorted]. destruct (Filter_lt x y) eqn:E.
    + change (x :: y :: t) with ([x] ++ y :: t).
      rewrite with_stops_app.
      assert (Hx : with_stops n [x] = if stops x =? n then [x] else [])
        by (unfold with_stops; cbn [filter]; destruct (stops x =? n);
            reflexivity).
      rewrite Hx.
      destruct (Z.eqb_spec (stops x) n) as [En|Nn];
        [|rewrite app_nil_r; reflexivity].
      rewrite (with_stops_absent n (y :: t)); [reflexivity|].
      intros Hin. apply in_map_iff in Hin. destruct Hin as (z & Ez & Hz).
      apply Filter_lt_iff in E.
      destruct Hz as [->|Hz]; [lia|].
      rewrite Forall_forall in Hy. specialize (Hy z Hz).
      apply not_less_iff in Hy. lia.
    + change (y :: insert_sorted x t) with ([y] ++ insert_sorted x t).
      change (y :: t) with ([y] ++ t).
      rewrite !with_stops_app, IH, app_assoc. reflexivity.
Qed.

Lemma insertion_fold_stable n l : forall acc,
  StronglySorted not_less acc ->
  with_stops n (fold_left (fun a x => insert_sorted x a) l acc)
  = with_stops n acc ++ with_stops n l.
Proof.
  induction l as [|x l IH]; intros acc Hs; cbn [fold_left].
  - rewrite app_nil_r. reflexivity.
  - rewrite IH by (apply insert_sorted_sorted; exact Hs).
    rewrite insert_sorted_stable by exact Hs.
    change (x :: l) with ([x] ++ l).
    rewrite with_stops_app, app_assoc. reflexivity.
Qed.

Lemma insertion_sort_stable l : order_stable l (insertion_sort l).
Proof.
  intros n. unfold insertion_sort.
  rewrite insertion_fold_stable by constructor. reflexivity.
Qed.

End StabilityFacts.


(** ** The CSV loop *)

Section CsvFacts.

Variable cf : list Filter.

Lemma map_opt_app {A B : Type} (f : A -> option B) l1 : forall l2 r,
  map_opt f (l1 ++ l2)%list = Some r ->
  map_opt f l1 = Some (firstn (List.length l1) r)
  /\ map_opt f l2 = Some (skipn (List.length l1) r).
Proof.
  induction l1 as [|a l1 IH]; intros l2 r H; cbn [app map_opt List.length firstn skipn] in *.
  - split; [reflexivity|exact H].
  - destruct (f a) as [b|]; [|discriminate]. cbn [bind] in *.
    destruct (map_opt f (l1 ++ l2)%list) as [r'|] eqn:E; [|discriminate].
    cbn [bind] in H. injection H as <-.
    destruct (IH l2 r' E) as [H1 H2].
    rewrite H1. cbn [bind firstn skipn]. split; [reflexivity|exact H2].
Qed.

Lemma map_opt_length {A B : Type} (f : A -> option B) l : forall r,
  map_opt f l = Some r -> List.length r = List.length l.
Proof.
  induction l as [|a l IH]; intros r H; cbn [map_opt] in H.
  - injection H as <-. reflexivity.
  - destruct (f a); [|discriminate]. cbn [bind] in H.
    destruct (map_opt f l) as [r'|]; [|discriminate].
    cbn [bind] in H. injection H as <-. cbn [List.length].
    f_equal. apply IH. reflexivity.
Qed.

(** Rows whose index is no multiple of [middle] are printed bare. *)
Lemma csvLoop_plain middle rest : forall i rows,
  middle <> 0 ->
  (forall j, i <= j < i + Z.of_nat (List.length rest) -> Z.rem j middle <> 0) ->
  map_opt (displayCsvRow cf) rest = Some rows ->
  csvLoop cf middle i rest = Some rows.
Proof.
  induction rest as [|s rest IH]; intros i rows Hm Hj Hr; cbn [map_opt csvLoop] in *.
  - exact Hr.
  - unfold int_rem. replace (middle =? 0) with false
      by (symmetry; apply Z.eqb_neq; exact Hm).
    cbn [bind].
    destruct (displayCsvRow cf s) as [row|]; [|discriminate].
    cbn [bind] in *.
    destruct (map_opt (displayCsvRow cf) rest) as [rows'|] eqn:E; [|discriminate].
    cbn [bind] in Hr. injection Hr as <-.
    rewrite (IH (i + 1) rows' Hm).
    + cbn [bind].
      replace (Z.rem i middle =? 0) with false; [reflexivity|].
      symmetry. apply Z.eqb_neq. apply Hj.
      cbn [List.length]. lia.
    + intros j Hjr. apply Hj. cbn [List.length]. lia.
    + reflexivity.
Qed.

(** A block that starts on a multiple of [middle] and holds no other:
    the header, then the bare rows. *)
Lemma csvLoop_block middle rest i rows :
  middle <> 0 ->
  rest <> [] ->
  Z.rem i middle = 0 ->
  (forall j, i < j < i + Z.of_nat (List.length rest) -> Z.rem j middle <> 0) ->
  map_opt (displayCsvRow cf) rest = Some rows ->
  csvLoop cf middle i rest = Some (displayCsvHeader cf ++ rows)%list.
Proof.
  intros Hm Hne Hi Hj Hr.
  destruct rest as [|s rest]; [congruence|].
  cbn [map_opt csvLoop] in *.
  unfold int_rem. replace (middle =? 0) with false
    by (symmetry; apply Z.eqb_neq; exact Hm).
  cbn [bind].
  destruct (displayCsvRow cf s) as [row|]; [|discriminate].
  cbn [bind] in *.
  destruct (map_opt (displayCsvRow cf) rest) as [rows'|] eqn:E; [|discriminate].
  cbn [bind] in Hr. injection Hr as <-.
  rewrite (csvLoop_plain middle rest (i + 1) rows' Hm).
  - cbn [bind]. rewrite Hi. reflexivity.
  - intros j Hjr. apply Hj. cbn [List.length]. lia.
  - exact E.
Qed.

Lemma csvLoop_app middle l1 : forall l2 i t1 t2,
  csvLoop cf middle i l1 = Some t1 ->
  csvLoop cf middle (i + Z.of_nat (List.length l1)) l2 = Some t2 ->
  csvLoop cf middle i (l1 ++ l2)%list = Some (t1 ++ t2)%list.
Proof.
  induction l1 as [|s l1 IH]; intros l2 i t1 t2 H1 H2; cbn [app csvLoop List.length] in *.
  - injection H1 as <-. rewrite Z.add_0_r in H2. exact H2.
  - destruct (int_rem i middle) as [r|]; [|discriminate]. cbn [bind] in *.
    destruct (displayCsvRow cf s) as [row|]; [|discriminate]. cbn [bind] in *.
    destruct (csvLoop cf middle (i + 1) l1) as [t|] eqn:E; [|discriminate].
    cbn [bind] in H1. injection H1 as <-.
    rewrite (IH l2 (i + 1) t t2 E).
    + cbn [bind]. rewrite <- app_assoc. reflexivity.
    + replace (i + 1 + Z.of_nat (List.length l1))
        with (i + Z.of_nat (S (List.length l1))) by lia.
      exact H2.
Qed.

End CsvFacts.


(** * The claims of the specification *)

(** ** The duration formatter *)


(** X6. The general shape of the seconds band. For every double above 0.25
    and up to 30.0 the formatter returns; the text is the whole seconds
    [sec], the floor of the argument, in five columns, the seconds mark,
    and the tenths [tenth] computed as in the source. The tenths lie
    between 0 and 10: the subtraction is exact, the product with ten is
    rounded once, and rounding cannot pass the representable number 10. *)
Theorem seconds_band input :
  Double.valid input = true ->
  Double.leb input Double.lit_0_25 = false ->
  Double.leb input Double.lit_30_0 = true ->
  exists u sec tenth,
    Double.units input = Some u
    /\ sec * 2 ^ 1074 <= u < (sec + 1) * 2 ^ 1074
    /\ 0 <= sec <= 30
    /\ Double.to_int (Double.floor input) = Some sec
    /\ Double.to_int
         (Double.round
            (Double.mul (Double.sub input (Double.of_int sec))
               (Double.of_int 10))) = Some tenth
    /\ 0 <= tenth <= 10
    /\ doubleToString input
       = Some (Fmt.int_width 5 sec ++ Fmt.dquote ++ Fmt.dec tenth).
Proof.
  intros V H1 H2.
  destruct (seconds_band_shape input V H1 H2) as (m & e & -> & Hd & He & Hm30).
  pose proof (digits2_bounds m) as [Bl Bu]. rewrite Hd in Bl, Bu.
  change (53 - 1) with 52 in Bl.
  set (P := 2 ^ (- e)) in *.
  assert (HP : 0 < P) by (apply Z.pow_pos_nonneg; lia).
  set (S := Zpos m / P).
  assert (HS : S * P <= Zpos m < (S + 1) * P).
  { unfold S. pose proof (Z.div_mod (Zpos m) P ltac:(lia)).
    pose proof (Z.mod_pos_bound (Zpos m) P HP). nia. }
  assert (HS30 : 0 <= S <= 30).
  { split; [apply Z.div_pos; lia|]. unfold S.
    assert (Zpos m / P < 31); [|lia].
    apply Z.div_lt_upper_bound; lia. }
  assert (Hfloor : Double.to_int (Double.floor (S754_finite false m e)) = Some S).
  { unfold Double.floor.
    replace (0 <=? e) with false by (symmetry; apply Z.leb_gt; lia).
    cbn [Double.smant cond_Zopp].
    rewrite Z.shiftl_div_pow2 by lia. fold P. fold S.
    apply to_int_make. unfold Int.max_int. lia. }
  assert (HT : exists T,
             Double.to_int
               (Double.round
                  (Double.mul (Double.sub (S754_finite false m e) (Double.of_int S))
                     (Double.of_int 10))) = Some T /\ 0 <= T <= 10).
  { destruct (Z.eq_dec S 0) as [E0|N0].
    - (* below one second: the whole argument is the fraction *)
      rewrite E0. change (Double.of_int 0) with (S754_zero false).
      cbn [Double.sub SFsub].
      apply tenths_bound; [assumption|assumption|].
      destruct (Z_le_gt_dec e (-53)); [assumption|exfalso].
      assert (P <= 2 ^ 52) by (apply Z.pow_le_mono_r; lia).
      rewrite E0 in HS. lia.
    - (* one second and more: the integral part has the exponent of the
         argument, and the difference is exact *)
      assert (He52 : -52 <= e).
      { destruct (Z_le_gt_dec (-52) e); [assumption|exfalso].
        assert (2 ^ 53 <= P) by (apply Z.pow_le_mono_r; lia).
        assert (S = 0); [|lia].
        unfold S. apply Z.div_small. lia. }
      assert (Hsplit52 : 2 ^ 52 = 2 ^ (52 + e) * P)
        by (unfold P; rewrite <- Z.pow_add_r by lia; f_equal; lia).
      assert (Hsplit53 : 2 ^ 53 = 2 ^ (53 + e) * P)
        by (unfold P; rewrite <- Z.pow_add_r by lia; f_equal; lia).
      assert (HSd : 2 ^ (52 + e) <= S < 2 ^ (53 + e)).
      { unfold S. split.
        - apply Z.div_le_lower_bound; lia.
        - apply Z.div_lt_upper_bound; lia. }
      destruct S as [|pS|pS] eqn:ES; try lia.
      assert (HdS : Zpos (digits2_pos pS) = 53 + e).
      { apply digits2_unique. replace (53 + e - 1) with (52 + e) by lia.
        exact HSd. }
      destruct (binary_round_normal false pS 0) as (mS & HmS & _ & _ & HvS);
        try (rewrite HdS; lia).
      rewrite HdS in HmS, HvS.
      replace (0 + (53 + e) - 53) with e in HmS by lia.
      replace (53 - (53 + e)) with (- e) in HvS by lia. fold P in HvS.
      unfold Double.of_int, Double.make, binary_normalize.
      fold Double.prec Double.emax. rewrite HmS.
      unfold Double.sub, SFsub, shl_align.
      rewrite Z.min_id, Z.sub_diag. cbn [fst cond_Zopp].
      rewrite HvS.
      set (r := Zpos m - Zpos pS * P).
      assert (Hr : 0 <= r < P) by (unfold r; lia).
      destruct r as [|pr|pr] eqn:Er; try lia.
      + (* a whole number of seconds *)
        exists 0. split; [reflexivity|lia].
      + cbn [binary_normalize].
        pose proof (digits2_bounds pr) as [Rl Ru].
        assert (Hdr : Zpos (digits2_pos pr) <= - e).
        { assert (Zpos (digits2_pos pr) - 1 < - e); [|lia].
          apply pow2_lt_inv; [lia|]. fold P. lia. }
        destruct (binary_round_normal false pr e) as (mf & Hmf & Vf & Hdf & _);
          try lia.
        rewrite Hmf. apply tenths_bound; [assumption|assumption|lia]. }
  destruct HT as (T & HT & HTb).
  exists (Zpos m * 2 ^ (e + 1074)), S, T.
  split; [reflexivity|].
  split.
  { assert (Hs : 2 ^ 1074 = P * 2 ^ (e + 1074))
      by (unfold P; rewrite <- Z.pow_add_r by lia; f_equal; lia).
    assert (0 < 2 ^ (e + 1074)) by (apply Z.pow_pos_nonneg; lia).
    rewrite Hs. nia. }
  split; [assumption|]. split; [assumption|].
  split; [assumption|]. split; [assumption|].
  unfold doubleToString. rewrite H1, H2, Hfloor. cbn [bind].
  rewrite HT. reflexivity.
Qed.

(** At 0.96 s. *)
Lemma seconds_band_witness :
  Double.valid (decimal 96 100) = true
  /\ Double.leb (decimal 96 100) Double.lit_0_25 = false
  /\ Double.leb (decimal 96 100) Double.lit_30_0 = true
  /\ exists sec tenth,
       0 <= sec <= 30 /\ 0 <= tenth <= 10
       /\ doubleToString (decimal 96 100)
          = Some (Fmt.int_width 5 sec ++ Fmt.dquote ++ Fmt.dec tenth).
Proof.
  assert (V : Double.valid (decimal 96 100) = true) by (vm_compute; reflexivity).
  assert (A : Double.leb (decimal 96 100) Double.lit_0_25 = false)
    by (vm_compute; reflexivity).
  assert (B : Double.leb (decimal 96 100) Double.lit_30_0 = true)
    by (vm_compute; reflexivity).
  split; [exact V|]. split; [exact A|]. split; [exact B|].
  destruct (seconds_band (decimal 96 100) V A B)
    as (u & sec & tenth & _ & _ & Hs & _ & _ & Ht & Hout).
  exists sec, tenth. split; [exact Hs|]. split; [exact Ht | exact Hout].
Defined.

(** The bound 10 is reached, so the tenths are not always one digit. *)
Lemma tenths_reach_ten :
  ~ (forall input,
        Double.valid input = true ->
        Double.leb input Double.lit_0_25 = false ->
        Double.leb input Double.lit_30_0 = true ->
        exists sec tenth,
          Double.to_int (Double.floor input) = Some sec
          /\ Double.to_int
               (Double.round
                  (Double.mul (Double.sub input (Double.of_int sec))
                     (Double.of_int 10))) = Some tenth
          /\ 0 <= tenth <= 9
          /\ doubleToString input
             = Some (Fmt.int_width 5 sec ++ Fmt.dquote ++ Fmt.dec tenth)).
Proof.
  intros H.
  destruct (H (decimal 96 100)) as (sec & tenth & Hs & Ht & Hb & _);
    try (vm_compute; reflexivity).
  vm_compute in Hs. injection Hs as <-.
  vm_compute in Ht. injection Ht as <-.
  lia.
Qed.

(** C2. On the seconds band the tenths must be a single digit. The code
    rounds the fraction to tenths without carrying into the seconds:
    at 0.96 s the whole seconds are 0 and the tenths come out as 10, so
    the text has eight characters where every other notation has seven.
    The same happens through the public method, for a 1/65 s shutter
    behind six stops (64/65 s). *)
Theorem tenths_not_a_digit_at_0_96 :
  Double.leb (decimal 96 100) Double.lit_0_25 = false
  /\ Double.leb (decimal 96 100) Double.lit_30_0 = true
  /\ Double.to_int (Double.floor (decimal 96 100)) = Some 0
  /\ Double.to_int
       (Double.round
          (Double.mul (Double.sub (decimal 96 100) (Double.of_int 0))
             (Double.of_int 10))) = Some 10
  /\ doubleToString (decimal 96 100) = Some ("    0" ++ Fmt.dquote ++ "10")
  /\ option_map String.length (doubleToString (decimal 96 100)) = Some 8%nat
  /\ toStringWithFilterStops (Shutter_frac 65) 6
     = Some ("    0" ++ Fmt.dquote ++ "10").
Proof.
  repeat split; vm_compute; reflexivity.
Qed.

(** ** Applying filter stops *)

(** The durations of the table are binary64 numbers above zero, far from
    the end of the range. *)
Lemma shutters_valid :
  Forall (fun d =>
            Double.valid (time d) = true
            /\ Double.leb Double.zero (time d) = true
            /\ exists u,
                 Double.units (time d) = Some u /\ 0 < u <= 30 * 2 ^ 1074)
    shutters.
Proof.
  assert (B : forallb (fun d =>
                Double.valid (time d)
                && Double.leb Double.zero (time d)
                && match Double.units (time d) with
                   | Some u => (0 <? u) && (u <=? 30 * 2 ^ 1074)
                   | None => false
                   end) shutters = true)
    by (vm_compute; reflexivity).
  rewrite forallb_forall in B. apply Forall_forall. intros d Hd.
  specialize (B d Hd).
  apply andb_true_iff in B. destruct B as [B B3].
  apply andb_true_iff in B. destruct B as [B1 B2].
  split; [exact B1|]. split; [exact B2|].
  destruct (Double.units (time d)) as [u|]; [|discriminate].
  exists u. split; [reflexivity|].
  apply andb_true_iff in B3. destruct B3 as [L U].
  apply Z.ltb_lt in L. apply Z.leb_le in U. lia.
Qed.

Lemma applyStops_defined d n :
  0 <= n <= 30 ->
  applyStops d n = Some (Double.mul (time d) (Double.of_int (2 ^ n))).
Proof.
  intros Hn. unfold applyStops, Int.shl1.
  replace ((0 <=? n) && (n <? 31)) with true; [reflexivity|].
  symmetry. apply andb_true_iff. split; [apply Z.leb_le|apply Z.ltb_lt]; lia.
Qed.

(** C3. For a shutter value and a stop count from 0 to 30 the shift
    [1 << n] is the power [2^n], and the duration handed to the formatter
    is the double product of the shutter time with it. That product is
    exact: counted in units of [2^-1074] the result is the time multiplied
    by [2^n], as long as the product stays in the range of [double].
    For a time that is not negative (the data model has durations above
    zero) the duration does not decrease when the stop count grows. *)
Theorem applyStops_doubles (d : Shutter) (n : Z) :
  Double.valid (time d) = true ->
  0 <= n <= 30 ->
  exists r,
    applyStops d n = Some r /\
    r = Double.mul (time d) (Double.of_int (2 ^ n)) /\
    toStringWithFilterStops d n = doubleToString r /\
    (forall u, Double.units (time d) = Some u ->
               Z.abs u * 2 ^ n < 2 ^ 2098 ->
               Double.units r = Some (u * 2 ^ n)) /\
    (Double.leb Double.zero (time d) = true ->
     forall n', n <= n' <= 30 ->
       exists r', applyStops d n' = Some r' /\ Double.leb r r' = true).
Proof.
  intros V Hn. eexists. split; [apply applyStops_defined; assumption|].
  split; [reflexivity|].
  split; [unfold toStringWithFilterStops; rewrite applyStops_defined by assumption; reflexivity|].
  destruct d as [t]. cbn [time] in *.
  split.
  - intros u Hu Hb.
    destruct t as [s| | |s m e]; try discriminate.
    + rewrite of_int_pow2 by assumption.
      cbn in Hu. injection Hu as <-. reflexivity.
    + assert (Eu : u = cond_Zopp s (Zpos m * 2 ^ (e + 1074)))
        by (unfold Double.units in Hu; congruence).
      subst u. clear Hu.
      destruct (mul_pow2_spec s m e n V Hn) as [[Hr Ho]|(m' & e' & Hr & Vr & Hval)].
      * exfalso. pose proof (valid_units_bound _ _ _ V) as B.
        set (v := Zpos m * 2 ^ (e + 1074)) in *.
        assert (Ha : Z.abs (cond_Zopp s v) = v) by (destruct s; unfold cond_Zopp; lia).
        rewrite Ha in Hb. lia.
      * rewrite Hr. cbn [Double.units]. f_equal. rewrite Hval.
        destruct s; unfold cond_Zopp; lia.
  - intros Hpos n' Hn'. eexists. split; [apply applyStops_defined; lia|].
    cbn [time].
    destruct t as [s|s| |s m e]; try discriminate.
    + rewrite !of_int_pow2 by lia. reflexivity.
    + destruct s; [discriminate|]. rewrite !of_int_pow2 by lia. reflexivity.
    + destruct s; [discriminate|].
      assert (0 < 2 ^ n) by (apply Z.pow_pos_nonneg; lia).
      assert (2 ^ n <= 2 ^ n') by (apply Z.pow_le_mono_r; lia).
      pose proof (valid_units_bound _ _ _ V) as B.
      destruct (mul_pow2_spec false m e n V Hn) as [[Hr Ho]|(m1 & e1 & Hr & Vr & Hval)];
      destruct (mul_pow2_spec false m e n' V ltac:(lia)) as [[Hr' Ho']|(m2 & e2 & Hr' & Vr' & Hval')];
      rewrite Hr, Hr'.
      * reflexivity.
      * exfalso. rewrite Hr' in Vr'.
        pose proof (valid_units_bound _ _ _ Vr'). nia.
      * reflexivity.
      * rewrite Hr in Vr. rewrite Hr' in Vr'.
        rewrite leb_finite_pos by assumption.
        apply Z.leb_le. rewrite Hval, Hval'. nia.
Qed.

(** The 0.3 s shutter behind ten stops. *)
Lemma applyStops_doubles_witness :
  Double.valid (time (Shutter_secs 0 3)) = true
  /\ 0 <= 10 <= 30
  /\ exists r,
       applyStops (Shutter_secs 0 3) 10 = Some r
       /\ toStringWithFilterStops (Shutter_secs 0 3) 10 = doubleToString r.
Proof.
  assert (V : Double.valid (time (Shutter_secs 0 3)) = true)
    by (vm_compute; reflexivity).
  assert (N : 0 <= 10 <= 30) by lia.
  split; [exact V|]. split; [exact N|].
  destruct (applyStops_doubles (Shutter_secs 0 3) 10 V N)
    as (r & H1 & _ & H2 & _).
  exists r. split; [exact H1 | exact H2].
Defined.

(** ** The sentinel of BULB mode *)

(** C4. When the hours computed from the whole seconds exceed 99, the
    formatter returns normally: the argument is necessarily beyond both
    earlier bands, and the text is the marker [x] followed by six spaces,
    seven characters in all. *)
Theorem bulb_sentinel input secondTotal :
  Double.valid input = true ->
  Double.to_int (Double.ceil input) = Some secondTotal ->
  99 < Z.quot (Z.quot secondTotal 60) 60 ->
  doubleToString input = Some (Fmt.char_width 7 "x")
  /\ Fmt.char_width 7 "x" = "x      "%string
  /\ String.length (Fmt.char_width 7 "x") = 7%nat.
Proof.
  intros V Hc Hh.
  assert (Hst : 360000 <= secondTotal).
  { destruct (Z_le_gt_dec 360000 secondTotal); [assumption|exfalso].
    destruct (Z_le_gt_dec 0 secondTotal).
    - assert (Z.quot secondTotal 60 < 6000)
        by (apply Z.quot_lt_upper_bound; lia).
      assert (0 <= Z.quot secondTotal 60) by (apply Z.quot_pos; lia).
      assert (Z.quot (Z.quot secondTotal 60) 60 < 100)
        by (apply Z.quot_lt_upper_bound; lia).
      lia.
    - assert (Z.quot secondTotal 60 <= 0).
      { rewrite <- (Z.opp_involutive secondTotal), Z.quot_opp_l by lia.
        assert (0 <= Z.quot (- secondTotal) 60) by (apply Z.quot_pos; lia).
        lia. }
      assert (Z.quot (Z.quot secondTotal 60) 60 <= 0).
      { rewrite <- (Z.opp_involutive (Z.quot secondTotal 60)), Z.quot_opp_l by lia.
        assert (0 <= Z.quot (- Z.quot secondTotal 60) 60) by (apply Z.quot_pos; lia).
        lia. }
      lia. }
  split; [|split; reflexivity].
  assert (Hbr : Double.leb input Double.lit_0_25 = false
                /\ Double.leb input Double.lit_30_0 = false).
  { destruct input as [s|s| |s m e]; try discriminate.
    - cbn in Hc. injection Hc as <-. lia.
    - pose proof (valid_cases _ _ _ V) as [He Hd].
      unfold Double.ceil in Hc.
      destruct (0 <=? e) eqn:E0.
      + (* an integer already *)
        apply Z.leb_le in E0. cbn [Double.to_int] in Hc.
        apply check_some in Hc.
        destruct s.
        * cbn [cond_Zopp] in Hc.
          pose proof (Z.shiftl_nonneg (Zpos m) e). lia.
        * unfold Double.leb, SFleb, SFcompare.
          change Double.lit_0_25 with (S754_finite false 4503599627370496 (-54)).
          change Double.lit_30_0 with (S754_finite false 8444249301319680 (-48)).
          cbv iota.
          replace (e ?= -54) with Gt by (symmetry; apply Z.compare_gt_iff; lia).
          replace (e ?= -48) with Gt by (symmetry; apply Z.compare_gt_iff; lia).
          split; reflexivity.
      + apply Z.leb_gt in E0.
        destruct s.
        * (* negative: the ceiling is not positive *)
          exfalso. cbn [Double.smant cond_Zopp] in Hc.
          rewrite Z.opp_involutive in Hc.
          rewrite Z.shiftl_div_pow2 in Hc by lia.
          assert (0 <= Zpos m / 2 ^ (- e))
            by (apply Z.div_pos; [lia|apply Z.pow_pos_nonneg; lia]).
          destruct (Zpos m / 2 ^ (- e)) as [|p|p] eqn:Eq; try lia.
          -- cbn in Hc. injection Hc as <-. lia.
          -- cbn [Z.opp binary_normalize] in Hc.
             apply to_int_round_neg in Hc. lia.
        * cbn [Double.smant cond_Zopp] in Hc.
          rewrite Z.shiftl_div_pow2 in Hc by lia.
          set (P := 2 ^ (- e)) in *.
          assert (HP : 0 < P) by (apply Z.pow_pos_nonneg; lia).
          pose proof (digits2_bounds m) as [Bl Bu].
          assert (U : Zpos m < 2 ^ 53).
          { eapply Z.lt_le_trans; [exact Bu|]. apply Z.pow_le_mono_r; lia. }
          set (c := - (- Zpos m / P)) in *.
          assert (Hcm : (c - 1) * P < Zpos m <= c * P).
          { unfold c. pose proof (Z.div_mod (- Zpos m) P ltac:(lia)).
            pose proof (Z.mod_pos_bound (- Zpos m) P HP). nia. }
          assert (Hc53 : 0 <= c < 2 ^ 53) by nia.
          rewrite to_int_make_check in Hc by assumption.
          apply check_some in Hc. subst secondTotal.
          change Double.lit_0_25 with (S754_finite false 4503599627370496 (-54)).
          change Double.lit_30_0 with (S754_finite false 8444249301319680 (-48)).
          rewrite !leb_finite_pos by (assumption || reflexivity).
          change (4503599627370496 * 2 ^ (-54 + 1074)) with (2 ^ 1072).
          change (8444249301319680 * 2 ^ (-48 + 1074)) with (30 * 2 ^ 1074).
          assert (Hs : 2 ^ 1074 = P * 2 ^ (e + 1074))
            by (unfold P; rewrite <- Z.pow_add_r by lia; f_equal; lia).
          assert (0 < 2 ^ (e + 1074)) by (apply Z.pow_pos_nonneg; lia).
          change (2 ^ 1072) with (2 ^ 1074 / 4).
          assert (2 ^ 1074 / 4 <= 2 ^ 1074) by (apply Z.div_le_upper_bound; lia).
          rewrite Hs in *.
          split; apply Z.leb_gt; nia. }
  destruct Hbr as [B1 B2].
  unfold doubleToString. rewrite B1, B2, Hc. cbn [bind].
  replace (Z.quot secondTotal 60 <=? 60) with false.
  - replace (99 <? Z.quot (Z.quot secondTotal 60) 60) with true; [reflexivity|].
    symmetry. apply Z.ltb_lt. assumption.
  - symmetry. apply Z.leb_gt.
    destruct (Z_le_gt_dec (Z.quot secondTotal 60) 60); [exfalso|lia].
    assert (Z.quot (Z.quot secondTotal 60) 60 <= Z.quot 60 60)
      by (apply Z.quot_le_mono; lia).
    change (Z.quot 60 60) with 1 in *. lia.
Qed.

(** At one hundred hours. *)
Lemma bulb_sentinel_witness :
  Double.valid (Double.of_int 360000) = true
  /\ Double.to_int (Double.ceil (Double.of_int 360000)) = Some 360000
  /\ 99 < Z.quot (Z.quot 360000 60) 60
  /\ doubleToString (Double.of_int 360000) = Some "x      ".
Proof.
  assert (V : Double.valid (Double.of_int 360000) = true)
    by (vm_compute; reflexivity).
  assert (C : Double.to_int (Double.ceil (Double.of_int 360000)) = Some 360000)
    by (vm_compute; reflexivity).
  assert (Hh : 99 < Z.quot (Z.quot 360000 60) 60) by (vm_compute; reflexivity).
  split; [exact V|]. split; [exact C|]. split; [exact Hh|].
  destruct (bulb_sentinel (Double.of_int 360000) 360000 V C Hh) as (H1 & H2 & _).
  rewrite H1, H2. reflexivity.
Defined.

(** ** Filters *)

(** C5. [operator+] returns a new filter: the stop counts are added and
    the names are joined with one space, left operand first. The sum of
    the stops does not depend on the order of the operands, the name does:
    ND1000 with ND64 is [1k 64] one way and [64 1k] the other. The sum has
    to be representable in [int]; beyond that C++ defines no result. *)
Theorem Filter_add_sums_and_joins (a b : Filter) :
  Int.in_range (stops a + stops b) = true ->
  Filter_add a b
  = Some {| stops := stops a + stops b; name := name a ++ " " ++ name b |}
  /\ Filter_add b a
     = Some {| stops := stops b + stops a; name := name b ++ " " ++ name a |}
  /\ option_map stops (Filter_add a b) = option_map stops (Filter_add b a)
  /\ (exists c d,
         Int.in_range (stops c + stops d) = true
         /\ option_map name (Filter_add c d)
            <> option_map name (Filter_add d c)).
Proof.
  intros H.
  assert (H' : Int.in_range (stops b + stops a) = true)
    by (rewrite Z.add_comm; exact H).
  unfold Filter_add, Int.add, Int.check. rewrite H, H'. cbn [bind option_map stops].
  split; [reflexivity|]. split; [reflexivity|].
  split; [f_equal; apply Z.add_comm|].
  exists (mkFilter 10 "1k"), (mkFilter 6 "64").
  split; [reflexivity|]. cbn. discriminate.
Qed.

(** ND1000 with ND64. *)
Lemma Filter_add_sums_and_joins_witness :
  Int.in_range (stops (mkFilter 10 "1k") + stops (mkFilter 6 "64")) = true
  /\ Filter_add (mkFilter 10 "1k") (mkFilter 6 "64")
     = Some (mkFilter 16 "1k 64")
  /\ Filter_add (mkFilter 6 "64") (mkFilter 10 "1k")
     = Some (mkFilter 16 "64 1k").
Proof.
  split; [reflexivity|].
  destruct (Filter_add_sums_and_joins (mkFilter 10 "1k") (mkFilter 6 "64")
              eq_refl) as (H1 & H2 & _).
  split; [exact H1 | exact H2].
Defined.

(** ** Sorting the combinations *)

(** Seventeen entries of one stop count come out of [std::sort] in
    another order: beyond 16 entries the sort starts with a quicksort
    partition, which exchanges equal entries. *)
Lemma sort_not_stable_beyond_16 :
  ~ (forall before after,
        sortFilters before = Some after ->
        StronglySorted (fun a b => stops a <= stops b) after
        /\ order_stable before after).
Proof.
  intros H.
  destruct (H (map (mkFilter 1)
                 ["a"; "b"; "c"; "d"; "e"; "f"; "g"; "h"; "i"; "j"; "k";
                  "l"; "m"; "n"; "o"; "p"; "q"])
              (map (mkFilter 1)
                 ["i"; "q"; "p"; "o"; "n"; "m"; "l"; "k"; "j"; "a"; "h";
                  "g"; "f"; "e"; "d"; "c"; "b"]))
    as [_ Hst].
  - vm_compute. reflexivity.
  - specialize (Hst 1). vm_compute in Hst. discriminate Hst.
Qed.

(** C6. The specification asks for a stable sort by stops; the code
    calls [std::sort]. For every content of the vector the call returns,
    and the vector is then a rearrangement of what was there,
    non-decreasing in stops. Up to 16 entries, and the program has 12,
    the sort is a straight insertion, which keeps entries of equal stops
    in their order; for longer vectors that order is not kept. When no
    two entries share a stop count, as in the program, the result is the
    only one the contract of [std::sort] allows, whatever the library. *)
Theorem sortFilters_sorts (before : list Filter) :
  exists after,
    sortFilters before = Some after
    /\ Permutation before after
    /\ StronglySorted (fun a b => stops a <= stops b) after
    /\ ((List.length before <= 16)%nat ->
        after = insertion_sort before /\ order_stable before after)
    /\ (NoDup (map stops before) ->
        forall after', sortFilters_post before after' -> after' = after).
Proof.
  unfold sortFilters.
  destruct (sort_spec before) as (b & E & P & Small).
  destruct (insertion_sort_post b) as [Pb Sb].
  exists (insertion_sort b). split; [exact E|]. split.
  - etransitivity; [exact P | exact Pb].
  - split; [apply sorted_stops; exact Sb|]. split.
    + intros L. rewrite (Small L).
      split; [reflexivity | apply insertion_sort_stable].
    + intros Hnd after' [Hp Hs].
      apply sorted_unique; try assumption.
      * eapply Permutation_NoDup; [apply Permutation_map; exact Hp|].
        exact Hnd.
      * eapply perm_trans; [apply Permutation_sym; exact Hp|].
        eapply perm_trans; [exact P | exact Pb].
Qed.

(** The twelve combinations of the program: sorted by insertion, in the
    one order their stops allow. *)
Lemma sortFilters_sorts_witness :
  exists v after,
    initCombinedFilters = Some v
    /\ (List.length v <= 16)%nat
    /\ NoDup (map stops v)
    /\ sortFilters v = Some after
    /\ after = insertion_sort v
    /\ order_stable v after
    /\ forall after', sortFilters_post v after' -> after' = after.
Proof.
  destruct initCombinedFilters as [v|] eqn:Ev;
    [|vm_compute in Ev; discriminate Ev].
  assert (L : (List.length v <= 16)%nat).
  { vm_compute in Ev. injection Ev as <-. vm_compute. lia. }
  assert (N : NoDup (map stops v)).
  { vm_compute in Ev. injection Ev as <-. cbn [map stops].
    repeat (constructor; [cbn [In]; intuition discriminate|]).
    constructor. }
  destruct (sortFilters_sorts v) as (after & E & _ & _ & St & Un).
  exists v, after. split; [reflexivity|]. split; [exact L|].
  split; [exact N|]. split; [exact E|].
  destruct (St L) as [S1 S2].
  split; [exact S1|]. split; [exact S2 | exact (Un N)].
Defined.

(** ** Generating the combinations *)

(** C7. Initialisation fills the list with exactly twelve combinations:
    the four filters themselves, the six pairs [filters[i] + filters[j]]
    with [i < j] in index order, and the two triples
    [filters[0] + filters[1] + filters[3]] and
    [filters[0] + filters[2] + filters[3]]. Sorting rearranges these
    twelve by stops. *)
Theorem combinations_twelve :
  exists f0 f1 f2 f3 p01 p02 p03 p12 p13 p23 t013 t023,
    filters = [f0; f1; f2; f3]
    /\ (Filter_add f0 f1 = Some p01 /\ Filter_add f0 f2 = Some p02
        /\ Filter_add f0 f3 = Some p03 /\ Filter_add f1 f2 = Some p12
        /\ Filter_add f1 f3 = Some p13 /\ Filter_add f2 f3 = Some p23)
    /\ (Filter_add p01 f3 = Some t013 /\ Filter_add p02 f3 = Some t023)
    /\ initCombinedFilters
       = Some ([f0; f1; f2; f3] ++ [p01; p02; p03; p12; p13; p23]
                 ++ [t013; t023])%list
    /\ initCombinedFilters
       = Some [ mkFilter 10 "1k"; mkFilter 6 "64"; mkFilter 3 "8";
                mkFilter 2 "4";
                mkFilter 16 "1k 64"; mkFilter 13 "1k 8"; mkFilter 12 "1k 4";
                mkFilter 9 "64 8"; mkFilter 8 "64 4"; mkFilter 5 "8 4";
                mkFilter 18 "1k 64 4"; mkFilter 15 "1k 8 4" ]
    /\ (forall v, initCombinedFilters = Some v ->
                  List.length v = 12%nat
                  /\ insertion_sort v
                     = [ mkFilter 2 "4"; mkFilter 3 "8"; mkFilter 5 "8 4";
                         mkFilter 6 "64"; mkFilter 8 "64 4";
                         mkFilter 9 "64 8"; mkFilter 10 "1k";
                         mkFilter 12 "1k 4"; mkFilter 13 "1k 8";
                         mkFilter 15 "1k 8 4"; mkFilter 16 "1k 64";
                         mkFilter 18 "1k 64 4" ]).
Proof.
  do 12 eexists.
  split; [reflexivity|].
  split; [repeat split; reflexivity|].
  split; [repeat split; reflexivity|].
  split; [reflexivity|]. split; [reflexivity|].
  intros v Hv. vm_compute in Hv. injection Hv as <-.
  split; reflexivity.
Qed.

(** ** The CSV table *)




(** ** The shutter table *)

(** The table does not have 36 entries. *)
Lemma shutters_are_not_36 : List.length shutters <> 36%nat.
Proof. vm_compute. discriminate. Qed.

(** C9. The shutter table is a constant of 52 values, not 36, the three
    fastest speeds being commented out: 31 given as fractions of a second
    and 21 given as seconds and tenths. *)
Theorem shutters_are_52 :
  List.length shutters = 52%nat
  /\ exists fractions seconds,
       shutters = (map Shutter_frac fractions
                   ++ map (fun p => Shutter_secs (fst p) (snd p)) seconds)%list
       /\ List.length fractions = 31%nat
       /\ List.length seconds = 21%nat.
Proof.
  split; [vm_compute; reflexivity|].
  eexists _, _. split; [reflexivity|]. split; reflexivity.
Qed.

(** ** Cell widths *)

Lemma seven_wideb_spec cell : seven_wideb cell = true -> seven_wide cell.
Proof.
  destruct cell as [t|]; cbn; [|discriminate].
  intros H. exists t. split; [reflexivity|]. apply Nat.eqb_eq. exact H.
Qed.

(** C10. For every shutter of the table the formatter returns, and the
    text is seven characters wide: for the shutter time itself, for zero
    stops, and for the stops of every generated combination, in whatever
    order the sort leaves them. *)
Theorem cells_seven_wide (v after : list Filter) :
  initCombinedFilters = Some v ->
  sortFilters_post v after ->
  Forall (fun s =>
            seven_wide (Shutter_toString s)
            /\ seven_wide (toStringWithFilterStops s 0)
            /\ Forall (fun f => seven_wide (toStringWithFilterStops s (stops f)))
                 after)
    shutters.
Proof.
  intros Hv [Hp _].
  assert (B : forallb (fun s =>
                seven_wideb (Shutter_toString s)
                && seven_wideb (toStringWithFilterStops s 0)
                && forallb (fun f => seven_wideb (toStringWithFilterStops s (stops f))) v)
                shutters = true).
  { vm_compute in Hv. injection Hv as <-. vm_compute. reflexivity. }
  rewrite forallb_forall in B. apply Forall_forall. intros s Hs.
  specialize (B s Hs). apply andb_true_iff in B. destruct B as [B B3].
  apply andb_true_iff in B. destruct B as [B1 B2].
  split; [apply seven_wideb_spec; exact B1|].
  split; [apply seven_wideb_spec; exact B2|].
  eapply Permutation_Forall; [exact Hp|].
  apply Forall_forall. intros f Hf.
  rewrite forallb_forall in B3. apply seven_wideb_spec. apply B3. exact Hf.
Qed.

(** The combinations of the program, sorted by insertion. *)
Lemma cells_seven_wide_witness :
  exists v,
    initCombinedFilters = Some v
    /\ sortFilters_post v (insertion_sort v)
    /\ Forall (fun s =>
                 seven_wide (Shutter_toString s)
                 /\ seven_wide (toStringWithFilterStops s 0)
                 /\ Forall (fun f =>
                              seven_wide (toStringWithFilterStops s (stops f)))
                      (insertion_sort v))
         shutters.
Proof.
  destruct initCombinedFilters as [v|] eqn:E; [|vm_compute in E; discriminate E].
  exists v. split; [reflexivity|].
  split; [apply insertion_sort_post|].
  apply (cells_seven_wide v (insertion_sort v) E (insertion_sort_post v)).
Defined.

(** ** The complete run *)

(** [main] sorts with [sortFilters]: for the twelve combinations the call
    of [std::sort] is the insertion sort the run is written with. *)
Lemma main_calls_sortFilters :
  main = v <- initCombinedFilters ;; cf <- sortFilters v ;; render cf.
Proof.
  unfold main, render.
  destruct initCombinedFilters as [v|] eqn:Ev; [|reflexivity].
  cbn [bind].
  assert (L : (List.length v <= 16)%nat).
  { vm_compute in Ev. injection Ev as <-. vm_compute. lia. }
  destruct (sort_spec v) as (b & E & _ & Small).
  rewrite (Small L) in E. unfold sortFilters. rewrite E. reflexivity.
Qed.

(** The run of the program is defined from start to end: two header lines
    and 52 rows of the Markdown table, 132 characters each, then the CSV
    table with its header of two lines twice and 52 rows, 127 characters
    each but for the empty lines. *)
Lemma main_defined :
  exists out,
    main = Some out
    /\ List.length out = 110%nat
    /\ Forall (fun line => String.length line = 132%nat) (firstn 54 out)
    /\ Forall (fun line =>
                 line = EmptyString \/ String.length line = 127%nat)
         (skipn 54 out).
Proof.
  destruct main as [out|] eqn:E; [|vm_compute in E; discriminate E].
  exists out. split; [reflexivity|].
  assert (B : (Nat.eqb (List.length out) 110
               && forallb (fun line => Nat.eqb (String.length line) 132)
                    (firstn 54 out)
               && forallb (fun line =>
                             Nat.eqb (String.length line) 0
                             || Nat.eqb (String.length line) 127)
                    (skipn 54 out))%bool
              = true).
  { vm_compute in E. injection E as <-. vm_compute. reflexivity. }
  apply andb_true_iff in B. destruct B as [B W2].
  apply andb_true_iff in B. destruct B as [L W1].
  split; [apply Nat.eqb_eq; exact L|]. split.
  - rewrite forallb_forall in W1. apply Forall_forall. intros line Hl.
    apply Nat.eqb_eq. apply W1. exact Hl.
  - rewrite forallb_forall in W2. apply Forall_forall. intros line Hl.
    specialize (W2 line Hl). apply orb_true_iff in W2.
    destruct W2 as [W|W].
    + left. apply Nat.eqb_eq in W.
      destruct line; [reflexivity|discriminate W].
    + right. apply Nat.eqb_eq. exact W.
Qed.

(** * Further properties of the code *)

(** ** Filters *)

Section FmtFacts.

Lemma append_length (s t : string) :
  String.length (s ++ t) = (String.length s + String.length t)%nat.
Proof.
  induction s as [|c s IH]; cbn; [reflexivity|]. rewrite IH. reflexivity.
Qed.

Lemma append_assoc (s t u : string) : (s ++ t) ++ u = s ++ (t ++ u).
Proof.
  induction s as [|c s IH]; cbn; [reflexivity|]. rewrite IH. reflexivity.
Qed.

Lemma replicate_length n c : String.length (Fmt.replicate n c) = n.
Proof.
  induction n as [|n IH]; cbn; [reflexivity|]. rewrite IH. reflexivity.
Qed.

Lemma pad_left_length w c s :
  String.length (Fmt.pad_left w c s) = Nat.max w (String.length s).
Proof.
  unfold Fmt.pad_left. rewrite append_length, replicate_length. lia.
Qed.

End FmtFacts.

(** X2. [operator+] is associative wherever the sums are representable: the
    stops add up and the names are chained with single spaces either
    way. *)
Theorem Filter_add_assoc (a b c ab bc : Filter) :
  Filter_add a b = Some ab ->
  Filter_add b c = Some bc ->
  Filter_add ab c = Filter_add a bc.
Proof.
  unfold Filter_add, Int.add, Int.check. intros Hab Hbc.
  destruct (Int.in_range (stops a + stops b)); [|discriminate].
  destruct (Int.in_range (stops b + stops c)); [|discriminate].
  cbn [bind] in *. injection Hab as <-. injection Hbc as <-.
  cbn [stops name].
  replace (stops a + (stops b + stops c)) with (stops a + stops b + stops c)
    by lia.
  destruct (Int.in_range (stops a + stops b + stops c)); [|reflexivity].
  cbn [bind]. f_equal. f_equal.
  rewrite !append_assoc. reflexivity.
Qed.

(** ND1000, ND64 and ND4. *)
Lemma Filter_add_assoc_witness :
  Filter_add (mkFilter 10 "1k") (mkFilter 6 "64") = Some (mkFilter 16 "1k 64")
  /\ Filter_add (mkFilter 6 "64") (mkFilter 2 "4") = Some (mkFilter 8 "64 4")
  /\ Filter_add (mkFilter 16 "1k 64") (mkFilter 2 "4")
     = Filter_add (mkFilter 10 "1k") (mkFilter 8 "64 4").
Proof.
  split; [reflexivity|]. split; [reflexivity|].
  exact (Filter_add_assoc (mkFilter 10 "1k") (mkFilter 6 "64") (mkFilter 2 "4")
           (mkFilter 16 "1k 64") (mkFilter 8 "64 4") eq_refl eq_refl).
Defined.

(** X3. The order [std::sort] is given is a strict weak order, as its contract
    demands: irreflexive, transitive, and with a transitive
    incomparability. It looks at the stops alone, so two filters are
    incomparable exactly when their stops agree, whatever their names;
    [operator<=>] reversed is the opposite comparison. *)
Theorem Filter_lt_strict_weak_order :
  (forall a, Filter_lt a a = false)
  /\ (forall a b c, Filter_lt a b = true -> Filter_lt b c = true ->
                    Filter_lt a c = true)
  /\ (forall a b, Filter_lt a b = false /\ Filter_lt b a = false
                  <-> stops a = stops b)
  /\ (forall a b c,
         Filter_lt a b = false -> Filter_lt b a = false ->
         Filter_lt b c = false -> Filter_lt c b = false ->
         Filter_lt a c = false /\ Filter_lt c a = false)
  /\ (forall a b, Filter_cmp b a = CompOpp (Filter_cmp a b))
  /\ (exists a b, Filter_cmp a b = Eq /\ a <> b).
Proof.
  assert (F : forall a b, Filter_lt a b = false <-> stops b <= stops a).
  { intros a b. split; intros H.
    - destruct (Z_le_gt_dec (stops b) (stops a)) as [L|G]; [exact L|].
      assert (Filter_lt a b = true) by (apply Filter_lt_iff; lia). congruence.
    - destruct (Filter_lt a b) eqn:E; [|reflexivity].
      apply Filter_lt_iff in E. lia. }
  split; [intros a; apply F; lia|].
  split.
  { intros a b c H1 H2. apply Filter_lt_iff in H1, H2. apply Filter_lt_iff. lia. }
  split.
  { intros a b. rewrite !F. lia. }
  split.
  { intros a b c H1 H2 H3 H4. apply F in H1, H2, H3, H4.
    split; apply F; lia. }
  split.
  { intros a b. unfold Filter_cmp. apply Z.compare_antisym. }
  exists (mkFilter 1 "a"), (mkFilter 1 "b"). split; [reflexivity|discriminate].
Qed.

(** ** The width of a cell *)

Section FmtWidths.

Lemma dec_nonempty z : (1 <= String.length (Fmt.dec z))%nat.
Proof.
  unfold Fmt.dec. destruct (Z.to_int z) as [d|d]; cbn.
  - destruct d; cbn; lia.
  - destruct d; cbn; lia.
Qed.

Lemma int_width_length w z :
  String.length (Fmt.int_width w z) = Nat.max w (String.length (Fmt.dec z)).
Proof. apply pad_left_length. Qed.

Lemma int_zero_length_ge z : (2 <= String.length (Fmt.int_zero 2 z))%nat.
Proof.
  unfold Fmt.int_zero. destruct (z <? 0).
  - cbn [append String.length]. rewrite pad_left_length.
    pose proof (dec_nonempty (- z)). lia.
  - rewrite pad_left_length. lia.
Qed.

(** Numbers of at most two digits. *)
Lemma dec_two_digits z :
  0 <= z <= 99 -> (String.length (Fmt.dec z) <= 2)%nat.
Proof.
  intros Hz.
  assert (B : forallb (fun n => Nat.leb (String.length (Fmt.dec (Z.of_nat n))) 2)
                (seq 0 100) = true) by (vm_compute; reflexivity).
  rewrite forallb_forall in B.
  specialize (B (Z.to_nat z)). rewrite Z2Nat.id in B by lia.
  apply Nat.leb_le. apply B. apply in_seq. lia.
Qed.

Lemma int_width_two z :
  0 <= z <= 99 -> String.length (Fmt.int_width 2 z) = 2%nat.
Proof.
  intros Hz. rewrite int_width_length. pose proof (dec_two_digits z Hz). lia.
Qed.

Lemma int_zero_two z :
  0 <= z <= 99 -> String.length (Fmt.int_zero 2 z) = 2%nat.
Proof.
  intros Hz. unfold Fmt.int_zero.
  replace (z <? 0) with false by (symmetry; apply Z.ltb_ge; lia).
  rewrite pad_left_length. pose proof (dec_two_digits z Hz). lia.
Qed.

End FmtWidths.

Ltac widths :=
  repeat first [ rewrite append_length
               | rewrite int_width_length
               | progress cbn [String.length Fmt.dquote] ].

(** X4. Whatever the argument, a text the formatter returns has at least
    seven characters: no cell is ever narrower than its column. *)
Theorem doubleToString_at_least_seven (input : Double.double) (out : string) :
  doubleToString input = Some out -> (7 <= String.length out)%nat.
Proof.
  unfold doubleToString.
  destruct (Double.leb input Double.lit_0_25).
  - destruct (Double.to_int _) as [n|]; [|discriminate].
    cbn [bind]. intros H; injection H as <-.
    widths. lia.
  - destruct (Double.leb input Double.lit_30_0).
    + destruct (Double.to_int (Double.floor input)) as [second|]; [|discriminate].
      cbn [bind].
      destruct (Double.to_int _) as [leftOver|]; [|discriminate].
      cbn [bind]. intros H; injection H as <-.
      widths. pose proof (dec_nonempty leftOver). lia.
    + destruct (Double.to_int (Double.ceil input)) as [st|]; [|discriminate].
      cbn [bind].
      destruct (Z.quot st 60 <=? 60).
      * intros H; injection H as <-.
        widths. pose proof (int_zero_length_ge (Z.rem st 60)). lia.
      * destruct (99 <? Z.quot (Z.quot st 60) 60).
        -- intros H; injection H as <-. reflexivity.
        -- intros H; injection H as <-.
           widths.
           pose proof (int_zero_length_ge (Z.rem (Z.quot st 60) 60)). lia.
Qed.

(** At 0.96 s the text has eight characters. *)
Lemma doubleToString_at_least_seven_witness :
  doubleToString (decimal 96 100) = Some ("    0" ++ Fmt.dquote ++ "10")
  /\ (7 <= String.length ("    0" ++ Fmt.dquote ++ "10"))%nat.
Proof.
  assert (H : doubleToString (decimal 96 100)
              = Some ("    0" ++ Fmt.dquote ++ "10"))
    by (vm_compute; reflexivity).
  split; [exact H|].
  exact (doubleToString_at_least_seven _ _ H).
Defined.

(** ** BULB mode *)

(** The ceiling of a positive double, converted to [int], is the value
    rounded up to a whole number. *)
Lemma ceil_to_int_pos m e st :
  Double.valid (S754_finite false m e) = true ->
  Double.to_int (Double.ceil (S754_finite false m e)) = Some st ->
  (st - 1) * 2 ^ 1074 < Zpos m * 2 ^ (e + 1074) <= st * 2 ^ 1074.
Proof.
  intros V Hc.
  pose proof (valid_cases _ _ _ V) as [He Hd].
  assert (Q : 0 < 2 ^ (e + 1074)) by (apply Z.pow_pos_nonneg; lia).
  unfold Double.ceil in Hc. destruct (0 <=? e) eqn:E0.
  - apply Z.leb_le in E0. cbn [Double.to_int cond_Zopp] in Hc.
    apply check_some in Hc. rewrite Z.shiftl_mul_pow2 in Hc by lia.
    subst st. rewrite Z.pow_add_r by lia.
    assert (0 < 2 ^ 1074) by (apply Z.pow_pos_nonneg; lia). nia.
  - apply Z.leb_gt in E0.
    cbn [Double.smant cond_Zopp] in Hc.
    rewrite Z.shiftl_div_pow2 in Hc by lia.
    set (P := 2 ^ (- e)) in *.
    assert (HP : 0 < P) by (apply Z.pow_pos_nonneg; lia).
    pose proof (digits2_bounds m) as [Bl Bu].
    assert (U : Zpos m < 2 ^ 53).
    { eapply Z.lt_le_trans; [exact Bu|]. apply Z.pow_le_mono_r; lia. }
    set (c := - (- Zpos m / P)) in *.
    assert (Hcm : (c - 1) * P < Zpos m <= c * P).
    { unfold c. pose proof (Z.div_mod (- Zpos m) P ltac:(lia)).
      pose proof (Z.mod_pos_bound (- Zpos m) P HP). nia. }
    assert (Hc53 : 0 <= c < 2 ^ 53) by nia.
    rewrite to_int_make_check in Hc by assumption.
    apply check_some in Hc. subst st.
    assert (Hs : 2 ^ 1074 = P * 2 ^ (e + 1074))
      by (unfold P; rewrite <- Z.pow_add_r by lia; f_equal; lia).
    rewrite Hs. nia.
Qed.

(** X7. BULB mode. For every double above 30 whose ceiling fits an [int] the
    formatter returns seven characters. The whole seconds [st] are the
    argument rounded up. Up to 60 total minutes the text is minutes and
    seconds; beyond, hours and minutes with the seconds dropped; beyond 99
    hours, the marker. *)
Theorem bulb_band (input : Double.double) (st : Z) :
  Double.valid input = true ->
  Double.leb input Double.lit_30_0 = false ->
  Double.to_int (Double.ceil input) = Some st ->
  exists u out,
    Double.units input = Some u
    /\ (st - 1) * 2 ^ 1074 < u <= st * 2 ^ 1074
    /\ 30 < st
    /\ doubleToString input = Some out
    /\ String.length out = 7%nat
    /\ ((st / 60 <= 60
         /\ out = Fmt.int_width 2 (st / 60) ++ "' "
                  ++ Fmt.int_zero 2 (st mod 60) ++ Fmt.dquote)
        \/ (60 < st / 60 /\ st / 3600 <= 99
            /\ out = Fmt.int_width 2 (st / 3600) ++ "h "
                     ++ Fmt.int_zero 2 ((st / 60) mod 60) ++ "'")
        \/ (99 < st / 3600 /\ out = "x      ")).
Proof.
  intros V H30 Hc.
  destruct input as [s|s| |s m e]; try discriminate.
  destruct s; [discriminate|].
  pose proof (ceil_to_int_pos m e st V Hc) as Hu.
  change Double.lit_30_0 with (S754_finite false 8444249301319680 (-48)) in H30.
  rewrite leb_finite_pos in H30 by (assumption || reflexivity).
  apply Z.leb_gt in H30.
  change (8444249301319680 * 2 ^ (-48 + 1074)) with (30 * 2 ^ 1074) in H30.
  set (u := Zpos m * 2 ^ (e + 1074)) in *.
  assert (T : 0 < 2 ^ 1074) by (apply Z.pow_pos_nonneg; lia).
  assert (Hst : 30 < st) by nia.
  assert (H25 : Double.leb (S754_finite false m e) Double.lit_0_25 = false).
  { change Double.lit_0_25 with (S754_finite false 4503599627370496 (-54)).
    rewrite leb_finite_pos by (assumption || reflexivity).
    fold u. apply Z.leb_gt.
    change (4503599627370496 * 2 ^ (-54 + 1074)) with (2 ^ 1074 / 4).
    assert (2 ^ 1074 / 4 <= 2 ^ 1074) by (apply Z.div_le_upper_bound; lia).
    lia. }
  assert (H30' : Double.leb (S754_finite false m e) Double.lit_30_0 = false).
  { change Double.lit_30_0 with (S754_finite false 8444249301319680 (-48)).
    rewrite leb_finite_pos by (assumption || reflexivity).
    fold u. apply Z.leb_gt.
    change (8444249301319680 * 2 ^ (-48 + 1074)) with (30 * 2 ^ 1074). lia. }
  assert (Q1 : Z.quot st 60 = st / 60) by (apply Z.quot_div_nonneg; lia).
  assert (R1 : Z.rem st 60 = st mod 60) by (apply Z.rem_mod_nonneg; lia).
  assert (M0 : 0 <= st / 60) by (apply Z.div_pos; lia).
  assert (Q2 : Z.quot (st / 60) 60 = st / 3600).
  { rewrite Z.quot_div_nonneg by lia. rewrite Z.div_div by lia. reflexivity. }
  assert (R2 : Z.rem (st / 60) 60 = (st / 60) mod 60)
    by (apply Z.rem_mod_nonneg; lia).
  pose proof (Z.mod_pos_bound st 60 ltac:(lia)) as S60.
  pose proof (Z.mod_pos_bound (st / 60) 60 ltac:(lia)) as M60.
  assert (H0 : 0 <= st / 3600) by (apply Z.div_pos; lia).
  unfold doubleToString. rewrite H25, H30', Hc. cbn [bind].
  rewrite Q1, R1, Q2, R2.
  exists u. destruct (st / 60 <=? 60) eqn:E1.
  - apply Z.leb_le in E1. eexists. split; [reflexivity|].
    split; [exact Hu|]. split; [exact Hst|]. split; [reflexivity|].
    split.
    + widths. rewrite int_zero_two by lia.
      pose proof (dec_two_digits (st / 60) ltac:(lia)). lia.
    + left. split; [exact E1|reflexivity].
  - apply Z.leb_gt in E1. destruct (99 <? st / 3600) eqn:E2.
    + apply Z.ltb_lt in E2. eexists. split; [reflexivity|].
      split; [exact Hu|]. split; [exact Hst|]. split; [reflexivity|].
      split; [reflexivity|]. right. right. split; [exact E2|reflexivity].
    + apply Z.ltb_ge in E2. eexists. split; [reflexivity|].
      split; [exact Hu|]. split; [exact Hst|]. split; [reflexivity|].
      split.
      * widths. rewrite int_zero_two by lia.
        pose proof (dec_two_digits (st / 3600) ltac:(lia)). lia.
      * right. left. split; [exact E1|]. split; [exact E2|reflexivity].
Qed.

(** At 30.1 s. *)
Lemma bulb_band_witness :
  Double.valid (decimal 301 10) = true
  /\ Double.leb (decimal 301 10) Double.lit_30_0 = false
  /\ Double.to_int (Double.ceil (decimal 301 10)) = Some 31
  /\ exists out,
       doubleToString (decimal 301 10) = Some out
       /\ String.length out = 7%nat.
Proof.
  assert (V : Double.valid (decimal 301 10) = true) by (vm_compute; reflexivity).
  assert (A : Double.leb (decimal 301 10) Double.lit_30_0 = false)
    by (vm_compute; reflexivity).
  assert (C : Double.to_int (Double.ceil (decimal 301 10)) = Some 31)
    by (vm_compute; reflexivity).
  split; [exact V|]. split; [exact A|]. split; [exact C|].
  destruct (bulb_band (decimal 301 10) 31 V A C)
    as (u & out & _ & _ & _ & Ho & Hl & _).
  exists out. split; [exact Ho | exact Hl].
Defined.

(** ** Stops *)

Section StopFacts.

(** A valid double is determined by its sign and its value. *)
Lemma valid_units_inj s m1 e1 m2 e2 :
  Double.valid (S754_finite s m1 e1) = true ->
  Double.valid (S754_finite s m2 e2) = true ->
  Zpos m1 * 2 ^ (e1 + 1074) = Zpos m2 * 2 ^ (e2 + 1074) ->
  S754_finite s m1 e1 = S754_finite s m2 e2.
Proof.
  intros V1 V2 Hu.
  change (Double.valid (S754_finite false m1 e1) = true) in V1.
  change (Double.valid (S754_finite false m2 e2) = true) in V2.
  pose proof (leb_finite_pos m1 e1 m2 e2 V1 V2) as L12.
  pose proof (leb_finite_pos m2 e2 m1 e1 V2 V1) as L21.
  rewrite Hu in L12. rewrite Hu in L21.
  rewrite Z.leb_refl in L12, L21.
  pose proof (valid_cases _ _ _ V1) as [He1 _].
  unfold Double.leb, SFleb, SFcompare in L12, L21.
  rewrite (Z.compare_antisym e1 e2) in L21.
  destruct (Z.compare_spec e1 e2) as [E|E|E]; cbn [CompOpp] in L21;
    try discriminate.
  subst e2.
  assert (0 < 2 ^ (e1 + 1074)) by (apply Z.pow_pos_nonneg; lia).
  assert (Zpos m1 = Zpos m2) by nia.
  congruence.
Qed.

(** Multiplying by one changes nothing. *)
Lemma mul_one x :
  Double.valid x = true -> Double.mul x (Double.of_int 1) = x.
Proof.
  intros V.
  change (Double.of_int 1) with (S754_finite false 4503599627370496 (-52)).
  destruct x as [s|s| |s m e]; try (destruct s; reflexivity); try reflexivity.
  unfold Double.mul, SFmul. rewrite xorb_false_r.
  pose proof (valid_cases _ _ _ V) as [He _].
  assert (Hc : canonical_mantissa Double.prec Double.emax m (e + -52 + 52) = true).
  { replace (e + -52 + 52) with e by lia.
    unfold Double.valid, valid_binary, bounded in V.
    apply andb_true_iff in V. apply V. }
  assert (HM : Zpos (m * 4503599627370496) = Zpos m * 2 ^ 52)
    by (rewrite Pos2Z.inj_mul; reflexivity).
  rewrite (round_aux_exact s m (e + -52) 52 _ ltac:(lia) HM Hc).
  replace (e + -52 + 52) with e by lia.
  replace (e <=? 971) with true by (symmetry; apply Z.leb_le; lia).
  reflexivity.
Qed.

End StopFacts.

(** X11. With no stops the shutter time is formatted as it is: the column
    without filter, printed by [toString], is what
    [toStringWithFilterStops(0)] would print. *)
Theorem zero_stops_is_toString (d : Shutter) :
  Double.valid (time d) = true ->
  toStringWithFilterStops d 0 = Shutter_toString d.
Proof.
  intros V. unfold toStringWithFilterStops, Shutter_toString, applyStops.
  cbn [Int.shl1 Z.leb Z.ltb Z.compare andb bind]. change (2 ^ 0) with 1.
  rewrite mul_one by assumption. reflexivity.
Qed.

(** The 1/4000 s shutter. *)
Lemma zero_stops_is_toString_witness :
  Double.valid (time (Shutter_frac 4000)) = true
  /\ toStringWithFilterStops (Shutter_frac 4000) 0
     = Shutter_toString (Shutter_frac 4000).
Proof.
  assert (V : Double.valid (time (Shutter_frac 4000)) = true)
    by (vm_compute; reflexivity).
  split; [exact V|]. exact (zero_stops_is_toString (Shutter_frac 4000) V).
Defined.

(** X12. Stops add up. The duration behind [a] stops, taken as a shutter time
    of its own and put behind [b] more, is the duration behind [a + b]
    stops, bit for bit: stacking two filters is the same as one filter of
    the summed stops, also where the product overflows or is
    subnormal. *)
Theorem applyStops_compose (d : Shutter) (a b : Z) (r : Double.double) :
  Double.valid (time d) = true ->
  0 <= a -> 0 <= b -> a + b <= 30 ->
  applyStops d a = Some r ->
  Double.valid r = true
  /\ applyStops (mkShutter r) b = applyStops d (a + b)
  /\ toStringWithFilterStops (mkShutter r) b
     = toStringWithFilterStops d (a + b).
Proof.
  intros V Ha Hb Hab Hr.
  rewrite applyStops_defined in Hr by lia. injection Hr as <-.
  assert (Main : Double.valid (Double.mul (time d) (Double.of_int (2 ^ a))) = true
                 /\ Double.mul (Double.mul (time d) (Double.of_int (2 ^ a)))
                      (Double.of_int (2 ^ b))
                    = Double.mul (time d) (Double.of_int (2 ^ (a + b)))).
  { destruct d as [t]. cbn [time] in *.
    destruct t as [s|s| |s m e].
    - rewrite !of_int_pow2 by lia. destruct s; split; reflexivity.
    - rewrite !of_int_pow2 by lia. destruct s; split; reflexivity.
    - rewrite !of_int_pow2 by lia. split; reflexivity.
    - assert (Pa : 0 < 2 ^ a) by (apply Z.pow_pos_nonneg; lia).
      assert (Pb : 0 < 2 ^ b) by (apply Z.pow_pos_nonneg; lia).
      assert (Pab : 2 ^ (a + b) = 2 ^ a * 2 ^ b)
        by (apply Z.pow_add_r; lia).
      pose proof (valid_units_bound _ _ _ V) as B.
      destruct (mul_pow2_spec s m e (a + b) V ltac:(lia))
        as [[Hab' Oab]|(m3 & e3 & Hab' & Vab & Uab)];
      destruct (mul_pow2_spec s m e a V ltac:(lia))
        as [[Ha' Oa]|(m1 & e1 & Ha' & Va & Ua)];
      rewrite Ha', Hab'.
      + split; [reflexivity|]. rewrite of_int_pow2 by lia.
        destruct s; reflexivity.
      + rewrite Ha' in Va. split; [exact Va|].
        destruct (mul_pow2_spec s m1 e1 b Va ltac:(lia))
          as [[Hb' Ob]|(m2 & e2 & Hb' & Vb & Ub)]; rewrite Hb'.
        * reflexivity.
        * exfalso. rewrite Hb' in Vb.
          pose proof (valid_units_bound _ _ _ Vb). nia.
      + exfalso. rewrite Hab' in Vab.
        pose proof (valid_units_bound _ _ _ Vab). nia.
      + rewrite Ha' in Va. split; [exact Va|].
        rewrite Hab' in Vab.
        destruct (mul_pow2_spec s m1 e1 b Va ltac:(lia))
          as [[Hb' Ob]|(m2 & e2 & Hb' & Vb & Ub)]; rewrite Hb'.
        * exfalso. pose proof (valid_units_bound _ _ _ Vab). nia.
        * rewrite Hb' in Vb. apply valid_units_inj; try assumption. nia. }
  destruct Main as [Vr Heq].
  split; [exact Vr|].
  assert (E : applyStops {| time := Double.mul (time d) (Double.of_int (2 ^ a)) |} b
              = applyStops d (a + b)).
  { rewrite !applyStops_defined by lia. cbn [time]. rewrite Heq. reflexivity. }
  split; [exact E|].
  unfold toStringWithFilterStops. rewrite E. reflexivity.
Qed.

(** The 0.3 s shutter behind ND1000 and ND64. *)
Lemma applyStops_compose_witness :
  Double.valid (time (Shutter_secs 0 3)) = true
  /\ 0 <= 10 /\ 0 <= 6 /\ 10 + 6 <= 30
  /\ exists r,
       applyStops (Shutter_secs 0 3) 10 = Some r
       /\ toStringWithFilterStops (mkShutter r) 6
          = toStringWithFilterStops (Shutter_secs 0 3) (10 + 6).
Proof.
  assert (V : Double.valid (time (Shutter_secs 0 3)) = true)
    by (vm_compute; reflexivity).
  assert (A : 0 <= 10) by lia. assert (B : 0 <= 6) by lia.
  assert (C : 10 + 6 <= 30) by lia.
  split; [exact V|]. split; [exact A|]. split; [exact B|]. split; [exact C|].
  destruct (applyStops (Shutter_secs 0 3) 10) as [r|] eqn:E;
    [|vm_compute in E; discriminate E].
  exists r. split; [reflexivity|].
  destruct (applyStops_compose (Shutter_secs 0 3) 10 6 r V A B C E)
    as (_ & _ & H).
  exact H.
Defined.

(** ** Arguments without a duration *)

(** X8. At zero the reciprocal is infinite, and at plus infinity or NaN
    neither comparison holds and the ceiling is taken: in each case the
    conversion to [int] has no defined result, and so has the formatter.
    [Shutter(0)] (an infinite time) and [Shutter(0, 0)] (a zero time) are
    such shutters. Minus infinity is below 0.25, its reciprocal is a zero,
    and it prints as the fraction 0. *)
Theorem doubleToString_undefined_at_specials :
  (forall s, doubleToString (S754_zero s) = None)
  /\ doubleToString (S754_infinity false) = None
  /\ doubleToString (S754_infinity true) = Some "      0"
  /\ doubleToString S754_nan = None
  /\ (time (Shutter_frac 0) = S754_infinity false
      /\ Shutter_toString (Shutter_frac 0) = None)
  /\ (time (Shutter_secs 0 0) = S754_zero false
      /\ Shutter_toString (Shutter_secs 0 0) = None).
Proof.
  split; [intros []; reflexivity|].
  split; [reflexivity|]. split; [reflexivity|].
  split; [reflexivity|].
  split; split; reflexivity.
Qed.

(** ** The populate functions *)

(** X13. Both populate functions only append: whatever the vector holds stays
    in place, the first adds the four filters and the six pairs, the
    second the two triples. Called in the other order they leave the
    same entries in another arrangement. *)
Theorem populate_appends (v : list Filter) :
  populateFiltersWithGeneratedCombinations v
  = Some (v ++ [ mkFilter 10 "1k"; mkFilter 6 "64"; mkFilter 3 "8";
                 mkFilter 2 "4";
                 mkFilter 16 "1k 64"; mkFilter 13 "1k 8"; mkFilter 12 "1k 4";
                 mkFilter 9 "64 8"; mkFilter 8 "64 4"; mkFilter 5 "8 4" ])%list
  /\ populateFiltersWithHandPickedCombinations v
     = Some (v ++ [ mkFilter 18 "1k 64 4"; mkFilter 15 "1k 8 4" ])%list
  /\ (exists w w',
         (x <- populateFiltersWithGeneratedCombinations v ;;
          populateFiltersWithHandPickedCombinations x) = Some w
         /\ (x <- populateFiltersWithHandPickedCombinations v ;;
             populateFiltersWithGeneratedCombinations x) = Some w'
         /\ Permutation w w').
Proof.
  assert (G : forall u,
             populateFiltersWithGeneratedCombinations u
             = Some (u ++ [ mkFilter 10 "1k"; mkFilter 6 "64"; mkFilter 3 "8";
                            mkFilter 2 "4";
                            mkFilter 16 "1k 64"; mkFilter 13 "1k 8";
                            mkFilter 12 "1k 4"; mkFilter 9 "64 8";
                            mkFilter 8 "64 4"; mkFilter 5 "8 4" ])%list).
  { intros u. unfold populateFiltersWithGeneratedCombinations.
    cbn. unfold push_back. repeat rewrite <- app_assoc. reflexivity. }
  assert (P : forall u,
             populateFiltersWithHandPickedCombinations u
             = Some (u ++ [ mkFilter 18 "1k 64 4"; mkFilter 15 "1k 8 4" ])%list).
  { intros u. unfold populateFiltersWithHandPickedCombinations.
    cbn. unfold push_back. repeat rewrite <- app_assoc. reflexivity. }
  split; [apply G|]. split; [apply P|].
  eexists _, _. rewrite G, P. cbn [bind]. rewrite G, P.
  split; [reflexivity|]. split; [reflexivity|].
  rewrite <- !app_assoc. apply Permutation_app_head.
  apply Permutation_app_comm.
Qed.

(** ** Table geometry *)

Section TableFacts.

Lemma concat_fixed_width {A : Type} (g : A -> string) (w : nat) (l : list A) :
  Forall (fun a => String.length (g a) = w) l ->
  String.length (String.concat EmptyString (map g l)) = (w * List.length l)%nat.
Proof.
  induction 1 as [|a l Ha Hl IH]; [cbn; lia|].
  cbn [map String.concat List.length].
  destruct (map g l) as [|y ys] eqn:E.
  - destruct l; [|discriminate]. cbn. lia.
  - rewrite !append_length. cbn [String.length].
    rewrite IH, Ha. lia.
Qed.

Lemma concat_map_fixed_width {A : Type} (g : A -> option string) (w : nat)
  (l : list A) :
  Forall (fun a => exists t, g a = Some t /\ String.length t = w) l ->
  exists r, concat_map g l = Some r
            /\ String.length r = (w * List.length l)%nat.
Proof.
  induction 1 as [|a l (t & Ht & Hw) Hl (r & Hr & Hlen)]; cbn [concat_map].
  - exists EmptyString. split; [reflexivity|cbn; lia].
  - rewrite Ht, Hr. cbn [bind]. eexists. split; [reflexivity|].
    rewrite append_length. cbn [List.length]. lia.
Qed.

Lemma map_opt_Forall {A B : Type} (f : A -> option B) (P : B -> Prop)
  (l : list A) :
  Forall (fun a => exists b, f a = Some b /\ P b) l ->
  exists r, map_opt f l = Some r
            /\ List.length r = List.length l /\ Forall P r.
Proof.
  induction 1 as [|a l (b & Hb & Pb) Hl (r & Hr & Hlen & HP)]; cbn [map_opt].
  - exists []. repeat split; constructor.
  - rewrite Hb, Hr. cbn [bind]. eexists. split; [reflexivity|].
    split; [cbn; lia|]. constructor; assumption.
Qed.

End TableFacts.

(** X15. The Markdown table is a rectangle. When no filter name is longer than
    seven characters and every cell is seven wide, the table is printed:
    two header lines and one line per shutter, each of
    [12 + 10 * n] characters for [n] combinations. *)
Theorem markdown_table_rectangular (shs : list Shutter) (cf : list Filter) :
  Forall (fun f => (String.length (name f) <= 7)%nat) cf ->
  Forall (fun s =>
            seven_wide (Shutter_toString s)
            /\ Forall (fun f => seven_wide (toStringWithFilterStops s (stops f)))
                 cf) shs ->
  exists out,
    displayMarkdownTable shs cf = Some out
    /\ List.length out = (2 + List.length shs)%nat
    /\ Forall (fun line =>
                 String.length line = (12 + 10 * List.length cf)%nat) out.
Proof.
  intros Hn Hc.
  assert (Hrows : Forall (fun s => exists row,
                    markdownRow cf s = Some row
                    /\ String.length row = (12 + 10 * List.length cf)%nat) shs).
  { eapply Forall_impl; [|exact Hc].
    intros s [(own & Ho & Hw) Hcells]. unfold markdownRow.
    rewrite Ho. cbn [bind].
    destruct (concat_map_fixed_width
                (fun f => x <- toStringWithFilterStops s (stops f) ;;
                          Some (x ++ " | ")) 10 cf) as (r & Hr & Hlen).
    { eapply Forall_impl; [|exact Hcells].
      intros f (t & Ht & Hwt). rewrite Ht. cbn [bind].
      eexists. split; [reflexivity|].
      rewrite append_length, Hwt. reflexivity. }
    rewrite Hr. cbn [bind]. eexists. split; [reflexivity|].
    widths. lia. }
  destruct (map_opt_Forall _ _ _ Hrows) as (rows & Hr & Hlen & Hw).
  unfold displayMarkdownTable. rewrite Hr. cbn [bind].
  eexists. split; [reflexivity|].
  split; [rewrite length_app; cbn [displayMarkdownTableHeader List.length]; lia|].
  apply Forall_app. split; [|exact Hw].
  unfold displayMarkdownTableHeader. constructor; [|constructor; [|constructor]].
  - rewrite append_length.
    rewrite (concat_fixed_width (fun f => Filter_toString f ++ " | ") 10).
    + cbn [String.length]. lia.
    + eapply Forall_impl; [|exact Hn]. intros f Hf. cbn beta in Hf |- *.
      rewrite append_length. unfold Filter_toString, Fmt.str_right.
      rewrite pad_left_length. cbn [String.length]. lia.
  - rewrite append_length.
    rewrite (concat_fixed_width (fun _ : Filter => "------- | ") 10).
    + cbn [String.length]. lia.
    + apply Forall_forall. intros; reflexivity.
Qed.

(** X16. The CSV table has lines of one width too: under the same conditions
    the label line of the header and every row have [7 + 10 * n]
    characters; the header starts with an empty line. *)
Theorem csv_lines_width (shs : list Shutter) (cf : list Filter) :
  Forall (fun f => (String.length (name f) <= 7)%nat) cf ->
  Forall (fun s =>
            seven_wide (Shutter_toString s)
            /\ Forall (fun f => seven_wide (toStringWithFilterStops s (stops f)))
                 cf) shs ->
  (exists labels,
      displayCsvHeader cf = [EmptyString; labels]
      /\ String.length labels = (7 + 10 * List.length cf)%nat)
  /\ exists rows,
       map_opt (displayCsvRow cf) shs = Some rows
       /\ List.length rows = List.length shs
       /\ Forall (fun row =>
                    String.length row = (7 + 10 * List.length cf)%nat) rows.
Proof.
  intros Hn Hc. split.
  - eexists. split; [reflexivity|].
    rewrite append_length.
    rewrite (concat_fixed_width (fun f => ",  " ++ Filter_toString f) 10).
    + cbn [String.length]. lia.
    + eapply Forall_impl; [|exact Hn]. intros f Hf. cbn beta in Hf |- *.
      rewrite append_length. unfold Filter_toString, Fmt.str_right.
      rewrite pad_left_length. cbn [String.length]. lia.
  - apply map_opt_Forall.
    eapply Forall_impl; [|exact Hc].
    intros s [(own & Ho & Hw) Hcells]. unfold displayCsvRow.
    rewrite Ho. cbn [bind].
    destruct (concat_map_fixed_width
                (fun f => x <- toStringWithFilterStops s (stops f) ;;
                          Some (",  " ++ x)) 10 cf) as (r & Hr & Hlen).
    { eapply Forall_impl; [|exact Hcells].
      intros f (t & Ht & Hwt). rewrite Ht. cbn [bind].
      eexists. split; [reflexivity|].
      rewrite append_length, Hwt. reflexivity. }
    rewrite Hr. cbn [bind]. eexists. split; [reflexivity|].
    rewrite append_length. lia.
Qed.

(** The names of the four filters and the cells of their columns meet
    the conditions. *)
Lemma table_conditions_hold :
  Forall (fun f => (String.length (name f) <= 7)%nat) filters
  /\ Forall (fun s =>
               seven_wide (Shutter_toString s)
               /\ Forall (fun f =>
                            seven_wide (toStringWithFilterStops s (stops f)))
                    filters) shutters.
Proof.
  split.
  - repeat constructor.
  - assert (B : forallb (fun s =>
                  seven_wideb (Shutter_toString s)
                  && forallb (fun f =>
                                seven_wideb (toStringWithFilterStops s (stops f)))
                       filters) shutters = true)
      by (vm_compute; reflexivity).
    rewrite forallb_forall in B. apply Forall_forall. intros s Hs.
    specialize (B s Hs). apply andb_true_iff in B. destruct B as [B1 B2].
    split; [apply seven_wideb_spec; exact B1|].
    rewrite forallb_forall in B2. apply Forall_forall. intros f Hf.
    apply seven_wideb_spec. apply B2. exact Hf.
Qed.

(** The table of the program with the four filters as columns. *)
Lemma markdown_table_rectangular_witness :
  Forall (fun f => (String.length (name f) <= 7)%nat) filters
  /\ Forall (fun s =>
               seven_wide (Shutter_toString s)
               /\ Forall (fun f =>
                            seven_wide (toStringWithFilterStops s (stops f)))
                    filters) shutters
  /\ exists out,
    displayMarkdownTable shutters filters = Some out
    /\ List.length out = (2 + List.length shutters)%nat
    /\ Forall (fun line =>
                 String.length line = (12 + 10 * List.length filters)%nat) out.
Proof.
  destruct table_conditions_hold as [Hn Hc].
  split; [exact Hn|]. split; [exact Hc|].
  exact (markdown_table_rectangular shutters filters Hn Hc).
Defined.

(** The same table as CSV. *)
Lemma csv_lines_width_witness :
  Forall (fun f => (String.length (name f) <= 7)%nat) filters
  /\ Forall (fun s =>
               seven_wide (Shutter_toString s)
               /\ Forall (fun f =>
                            seven_wide (toStringWithFilterStops s (stops f)))
                    filters) shutters
  /\ exists rows,
    map_opt (displayCsvRow filters) shutters = Some rows
    /\ List.length rows = List.length shutters
    /\ Forall (fun row =>
                 String.length row = (7 + 10 * List.length filters)%nat) rows.
Proof.
  destruct table_conditions_hold as [Hn Hc].
  split; [exact Hn|]. split; [exact Hc|].
  destruct (csv_lines_width shutters filters Hn Hc) as [_ H].
  exact H.
Defined.

(** ** The CSV table at other lengths *)

(** X18. Without shutters nothing is printed, not even the header; with a
    single one the midpoint is zero and the remainder by it has no
    result. *)
Theorem csv_table_degenerate (cf : list Filter) :
  displayCsvTable [] cf = Some []
  /\ forall s, displayCsvTable [s] cf = None.
Proof.
  split; reflexivity.
Qed.

(** X17. For an odd number [2k + 1] of shutters, three at least, the header is
    printed three times: before rows 0 and [k], and once more before the
    last row, whose index [2k] is a multiple of the midpoint again. *)
Theorem csv_header_odd (shs : list Shutter) (cf : list Filter)
  (rows : list string) (k : nat) :
  List.length shs = (2 * k + 1)%nat ->
  (0 < k)%nat ->
  map_opt (displayCsvRow cf) shs = Some rows ->
  displayCsvTable shs cf
  = Some (displayCsvHeader cf ++ firstn k rows
            ++ displayCsvHeader cf ++ firstn k (skipn k rows)
            ++ displayCsvHeader cf ++ skipn (2 * k) rows)%list.
Proof.
  intros Hlen Hk Hrows.
  unfold displayCsvTable. rewrite Hlen.
  replace (Z.quot (Z.of_nat (2 * k + 1)) 2) with (Z.of_nat k).
  2:{ apply Z.quot_unique with 1; lia. }
  assert (Hsplit : shs = (firstn k shs ++ firstn k (skipn k shs)
                            ++ skipn k (skipn k shs))%list)
    by (rewrite !firstn_skipn; reflexivity).
  assert (Hl1 : List.length (firstn k shs) = k)
    by (rewrite length_firstn; lia).
  assert (Hl2 : List.length (firstn k (skipn k shs)) = k)
    by (rewrite length_firstn, length_skipn; lia).
  assert (Hl3 : List.length (skipn k (skipn k shs)) = 1%nat)
    by (rewrite !length_skipn; lia).
  rewrite Hsplit in Hrows.
  destruct (map_opt_app _ _ _ _ Hrows) as [R1 R23].
  destruct (map_opt_app _ _ _ _ R23) as [R2 R3].
  rewrite Hl1 in R1, R2, R3. rewrite Hl2 in R2, R3.
  rewrite (skipn_skipn k k rows) in R3. replace (k + k)%nat with (2 * k)%nat in R3 by lia.
  rewrite Hsplit at 1.
  replace (displayCsvHeader cf ++ firstn k rows
             ++ displayCsvHeader cf ++ firstn k (skipn k rows)
             ++ displayCsvHeader cf ++ skipn (2 * k) rows)%list
    with ((displayCsvHeader cf ++ firstn k rows)
            ++ (displayCsvHeader cf ++ firstn k (skipn k rows))
            ++ (displayCsvHeader cf ++ skipn (2 * k) rows))%list
    by (rewrite <- !app_assoc; reflexivity).
  apply csvLoop_app.
  - apply csvLoop_block; try assumption.
    + lia.
    + intros E. rewrite E in Hl1. cbn in Hl1. lia.
    + apply Z.rem_0_l. lia.
    + intros j Hj. rewrite Hl1 in Hj. rewrite Z.rem_small by lia. lia.
  - rewrite Hl1. cbn [Z.add]. apply csvLoop_app.
    + apply csvLoop_block; try assumption.
      * lia.
      * intros E. rewrite E in Hl2. cbn in Hl2. lia.
      * apply Z.rem_same. lia.
      * intros j Hj. rewrite Hl2 in Hj.
        replace j with ((j - Z.of_nat k) + 1 * Z.of_nat k) by lia.
        rewrite Z.rem_add by nia. rewrite Z.rem_small by lia. lia.
    + rewrite Hl2. apply csvLoop_block; try assumption.
      * lia.
      * intros E. rewrite E in Hl3. cbn in Hl3. lia.
      * replace (Z.of_nat k + Z.of_nat k) with (0 + 2 * Z.of_nat k) by lia.
        rewrite Z.rem_add by nia. apply Z.rem_0_l. lia.
      * intros j Hj. rewrite Hl3 in Hj. lia.
Qed.

(** Five rows. *)
Lemma csv_header_odd_witness :
  exists rows,
    List.length (firstn 5 shutters) = (2 * 2 + 1)%nat
    /\ (0 < 2)%nat
    /\ map_opt (displayCsvRow filters) (firstn 5 shutters) = Some rows
    /\ displayCsvTable (firstn 5 shutters) filters
       = Some (displayCsvHeader filters ++ firstn 2 rows
                 ++ displayCsvHeader filters ++ firstn 2 (skipn 2 rows)
                 ++ displayCsvHeader filters ++ skipn (2 * 2) rows)%list.
Proof.
  destruct (map_opt (displayCsvRow filters) (firstn 5 shutters)) as [rows|] eqn:E;
    [|vm_compute in E; discriminate E].
  exists rows.
  assert (L : List.length (firstn 5 shutters) = (2 * 2 + 1)%nat)
    by (vm_compute; reflexivity).
  assert (K : (0 < 2)%nat) by lia.
  split; [exact L|]. split; [exact K|]. split; [reflexivity|].
  exact (csv_header_odd (firstn 5 shutters) filters rows 2 L K E).
Defined.

(** ** The run of the program *)

(** X14. Under the contract of [std::sort] the program has one outcome, the
    run computed with the insertion sort: the stops of the twelve
    combinations are all different, so no sort can arrange them
    otherwise. *)
Theorem main_outcome_unique :
  (exists out, main_post out)
  /\ forall out, main_post out <-> main = Some out.
Proof.
  assert (M : main = v <- initCombinedFilters ;; render (insertion_sort v))
    by reflexivity.
  assert (U : forall out, main_post out <-> main = Some out).
  { intros out. split.
    - intros (v & after & Hv & Hpost & Hr).
      rewrite M, Hv. cbn [bind].
      replace (insertion_sort v) with after; [exact Hr|].
      destruct Hpost as [Hp Hs].
      destruct (insertion_sort_post v) as [Hp' Hs'].
      apply sorted_unique; try assumption.
      + eapply Permutation_NoDup; [apply Permutation_map; exact Hp|].
        vm_compute in Hv. injection Hv as <-.
        cbn [map stops].
        repeat (constructor; [cbn [In]; intuition discriminate|]).
        constructor.
      + eapply perm_trans; [apply Permutation_sym; exact Hp|exact Hp'].
    - intros Hm. rewrite M in Hm.
      destruct initCombinedFilters as [v|] eqn:Hv; [|discriminate].
      cbn [bind] in Hm.
      exists v, (insertion_sort v).
      split; [exact Hv|]. split; [apply insertion_sort_post|exact Hm]. }
  split; [|exact U].
  destruct main_defined as (out & Ho & _).
  exists out. apply U. exact Ho.
Qed.

(** ** Round trips *)

(** X10. A shutter built from seconds and tenths prints as it was given:
    [Shutter(s, t)] prints [s], the seconds mark and [t], for every time
    from 0.3 s to 30.0 s. *)
Theorem Shutter_secs_round_trip (s t : Z) :
  0 <= s -> 0 <= t <= 9 -> 3 <= 10 * s + t <= 300 ->
  Shutter_toString (Shutter_secs s t)
  = Some (Fmt.int_width 5 s ++ Fmt.dquote ++ Fmt.dec t).
Proof.
  intros Hs Ht Hr.
  assert (B : forallb (fun n =>
                let s := Z.of_nat n / 10 in
                let t := Z.of_nat n mod 10 in
                opt_string_eqb (Shutter_toString (Shutter_secs s t))
                  (Fmt.int_width 5 s ++ Fmt.dquote ++ Fmt.dec t))
                (seq 3 298) = true) by (vm_compute; reflexivity).
  rewrite forallb_forall in B.
  specialize (B (Z.to_nat (10 * s + t))).
  rewrite Z2Nat.id in B by lia.
  replace ((10 * s + t) / 10) with s in B
    by (apply Z.div_unique with t; lia).
  replace ((10 * s + t) mod 10) with t in B
    by (apply Z.mod_unique with s; lia).
  cbv zeta in B.
  assert (In (Z.to_nat (10 * s + t)) (seq 3 298)) by (apply in_seq; lia).
  specialize (B H). unfold opt_string_eqb in B.
  destruct (Shutter_toString (Shutter_secs s t)) as [out|]; [|discriminate].
  apply String.eqb_eq in B. congruence.
Qed.

(** 3.2 s. *)
Lemma Shutter_secs_round_trip_witness :
  0 <= 3 /\ 0 <= 2 <= 9 /\ 3 <= 10 * 3 + 2 <= 300
  /\ Shutter_toString (Shutter_secs 3 2) = Some ("    3" ++ Fmt.dquote ++ "2").
Proof.
  assert (A : 0 <= 3) by lia. assert (B : 0 <= 2 <= 9) by lia.
  assert (C : 3 <= 10 * 3 + 2 <= 300) by lia.
  split; [exact A|]. split; [exact B|]. split; [exact C|].
  exact (Shutter_secs_round_trip 3 2 A B C).
Defined.

(** ** Division *)

Section DivFacts.

Local Notation "'fexp64'" := (fexp Double.prec Double.emax).
Local Notation "'round_aux'" := (binary_round_aux Double.prec Double.emax).

(** The second pass of the rounding: a carry out of 53 bits moves the
    exponent, nothing else changes. *)
Lemma round_second m1 e1 :
  2 ^ 52 <= m1 <= 2 ^ 53 -> -1074 <= e1 < 971 ->
  exists m' e',
    (let '(mrs'', e'') := shr_fexp Double.prec Double.emax m1 e1 loc_Exact in
     match shr_m mrs'' with
     | Z0 => S754_zero false
     | Zpos m => if e'' <=? Double.emax - Double.prec
                 then S754_finite false m e'' else S754_infinity false
     | Zneg _ => S754_nan
     end) = S754_finite false m' e'
    /\ Double.valid (S754_finite false m' e') = true
    /\ Zpos (digits2_pos m') = 53
    /\ ((e' = e1 /\ Zpos m' = m1)
        \/ (e' = e1 + 1 /\ m1 = 2 ^ 53 /\ Zpos m' = 2 ^ 52)).
Proof.
  intros Hm He.
  destruct (Z_lt_le_dec m1 (2 ^ 53)) as [Hlt|Hge].
  - assert (Hd1 : Zdigits2 m1 = 53)
      by (apply Zdigits2_unique; change (53 - 1) with 52; lia).
    unfold shr_fexp. rewrite Hd1, fexp64_eq.
    rewrite Z.max_l by lia.
    replace (53 + e1 - 53 - e1) with 0 by lia.
    cbn [shr shr_record_of_loc shr_m].
    destruct m1 as [|p1|p1] eqn:Em1; try lia.
    replace (e1 <=? Double.emax - Double.prec) with true
      by (symmetry; apply Z.leb_le; unfold Double.emax, Double.prec; lia).
    exists p1, e1. split; [reflexivity|].
    cbn [Zdigits2] in Hd1.
    split; [apply valid_finite; rewrite Hd1; lia|].
    split; [exact Hd1|]. left. split; reflexivity.
  - assert (Hc : m1 = 2 ^ 53) by lia.
    rewrite Hc.
    unfold shr_fexp. change (Zdigits2 (2 ^ 53)) with 54.
    rewrite fexp64_eq. rewrite Z.max_l by lia.
    replace (54 + e1 - 53 - e1) with 1 by lia.
    cbn [shr shr_record_of_loc iter_pos].
    change (shr_1 {| shr_m := 2 ^ 53; shr_r := false; shr_s := false |})
      with {| shr_m := 2 ^ 52; shr_r := false; shr_s := false |}.
    cbn [shr_m]. change (2 ^ 52) with (Zpos 4503599627370496).
    cbv iota.
    replace (e1 + 1 <=? Double.emax - Double.prec) with true
      by (symmetry; apply Z.leb_le; unfold Double.emax, Double.prec; lia).
    exists 4503599627370496%positive, (e1 + 1).
    split; [reflexivity|].
    split; [apply valid_finite;
            change (Zpos (digits2_pos 4503599627370496)) with 53; lia|].
    split; [reflexivity|]. right. split; [reflexivity|].
    split; reflexivity.
Qed.

Lemma shr_record_of_loc_m m l : shr_m (shr_record_of_loc m l) = m.
Proof. destruct l as [|[| |]]; reflexivity. Qed.

(** Rounding a positive mantissa of at least 53 bits from any location:
    the bits beyond 53 are shifted out and the quotient is kept or bumped
    by one. *)
Lemma round_aux_loose M E l :
  let k := Zdigits2 M - 53 in
  let q := M / 2 ^ k in
  0 < M -> 0 <= k -> -1074 <= E + k -> E + k < 971 ->
  exists m' e',
    round_aux false M E l = S754_finite false m' e'
    /\ Double.valid (S754_finite false m' e') = true
    /\ Zpos (digits2_pos m') = 53
    /\ ((e' = E + k /\ q <= Zpos m' <= q + 1)
        \/ (e' = E + k + 1 /\ q + 1 = 2 ^ 53 /\ Zpos m' = 2 ^ 52)).
Proof.
  intros k q HM Hk Hlo Hhi.
  pose proof (Zdigits2_bounds M HM) as [Bl Bu].
  set (d := Zdigits2 M) in *.
  assert (Hq : 2 ^ 52 <= q < 2 ^ 53).
  { assert (P : 0 < 2 ^ k) by (apply Z.pow_pos_nonneg; lia).
    assert (E1 : 2 ^ (d - 1) = 2 ^ 52 * 2 ^ k)
      by (rewrite <- Z.pow_add_r by lia; f_equal; lia).
    assert (E2 : 2 ^ d = 2 ^ 53 * 2 ^ k)
      by (rewrite <- Z.pow_add_r by lia; f_equal; lia).
    rewrite E1 in Bl. rewrite E2 in Bu. unfold q. split.
    - apply Z.div_le_lower_bound; lia.
    - apply Z.div_lt_upper_bound; lia. }
  unfold binary_round_aux. unfold shr_fexp at 1. fold d.
  rewrite fexp64_eq. rewrite Z.max_l by lia.
  replace (d + E - 53 - E) with k by lia.
  assert (First : exists mrs,
             shr (shr_record_of_loc M l) E k = (mrs, E + k)
             /\ shr_m mrs = q).
  { destruct k as [|kp|kp] eqn:Ek; try lia.
    - exists (shr_record_of_loc M l). cbn [shr].
      split; [f_equal; lia|].
      rewrite shr_record_of_loc_m. unfold q.
      rewrite Z.pow_0_r, Z.div_1_r. reflexivity.
    - exists (iter_pos shr_1 kp (shr_record_of_loc M l)). cbn [shr].
      split; [reflexivity|].
      rewrite iter_shr_m by (rewrite shr_record_of_loc_m; lia).
      rewrite shr_record_of_loc_m. reflexivity. }
  destruct First as (mrs & Hshr & Hm).
  rewrite Hshr. cbv iota beta. rewrite Hm.
  set (m1 := round_nearest_even q (loc_of_shr_record mrs)).
  assert (Hm1 : m1 = q \/ m1 = q + 1) by apply rne_cases.
  destruct (round_second m1 (E + k) ltac:(lia) ltac:(lia))
    as (m' & e' & Heq & V & D & Hcase).
  exists m', e'. split; [exact Heq|]. split; [exact V|]. split; [exact D|].
  destruct Hcase as [[-> Hv]|(-> & Hc & Hv)].
  - left. split; [reflexivity|lia].
  - right. split; [reflexivity|]. split; [lia|exact Hv].
Qed.

(** Division of positive normal numbers: with [q] the integer quotient of
    the dividend's mantissa, moved up by 53 bits, by the divisor's, the
    result is within two units of [q] at the scale [2^(e1 - e2 - 53)]. *)
Lemma div_pos_normal m1 e1 m2 e2 :
  Zpos (digits2_pos m1) = 53 -> Zpos (digits2_pos m2) = 53 ->
  -1074 <= e1 - e2 - 53 -> e1 - e2 - 53 + 2 < 971 ->
  let E := e1 - e2 - 53 in
  let q := (Zpos m1 * 2 ^ 53) / Zpos m2 in
  exists m e,
    Double.div (S754_finite false m1 e1) (S754_finite false m2 e2)
    = S754_finite false m e
    /\ Double.valid (S754_finite false m e) = true
    /\ Zpos (digits2_pos m) = 53
    /\ E <= e <= E + 2
    /\ q - 1 <= Zpos m * 2 ^ (e - E) <= q + 2.
Proof.
  intros D1 D2 Hlo Hhi E q.
  pose proof (digits2_bounds m1) as [B1l B1u]. rewrite D1 in B1l, B1u.
  pose proof (digits2_bounds m2) as [B2l B2u]. rewrite D2 in B2l, B2u.
  change (53 - 1) with 52 in *.
  unfold Double.div, SFdiv, SFdiv_core_binary. cbn [xorb Zdigits2].
  rewrite D1, D2.
  replace (53 + e1 - (53 + e2)) with (e1 - e2) by lia.
  rewrite fexp64_eq. rewrite Z.max_l by lia.
  rewrite Z.min_l by lia. fold E.
  replace (e1 - e2 - E) with 53 by (unfold E; lia).
  rewrite Z.shiftl_mul_pow2 by lia.
  assert (Hdiv : Z.div_eucl (Zpos m1 * 2 ^ 53) (Zpos m2)
                 = (q, (Zpos m1 * 2 ^ 53) mod Zpos m2)).
  { unfold q, Z.div, Z.modulo.
    destruct (Z.div_eucl (Zpos m1 * 2 ^ 53) (Zpos m2)); reflexivity. }
  rewrite Hdiv.
  set (l := new_location (Zpos m2) ((Zpos m1 * 2 ^ 53) mod Zpos m2)).
  assert (Hq : 2 ^ 52 <= q < 2 ^ 54).
  { unfold q. split.
    - apply Z.div_le_lower_bound; [lia|].
      change (2 ^ 53) with (2 * 2 ^ 52) in *. nia.
    - apply Z.div_lt_upper_bound; [lia|].
      change (2 ^ 54) with (2 * 2 ^ 53). change (2 ^ 53) with (2 * 2 ^ 52) in *.
      nia. }
  assert (Hdq : Zdigits2 q = 53 \/ Zdigits2 q = 54).
  { destruct (Z_lt_le_dec q (2 ^ 53)).
    - left. apply Zdigits2_unique; change (53 - 1) with 52; lia.
    - right. apply Zdigits2_unique; change (54 - 1) with 53; lia. }
  destruct (round_aux_loose q E l ltac:(lia) ltac:(lia) ltac:(lia) ltac:(lia))
    as (m & e & Heq & V & D & Hcase).
  exists m, e. split; [exact Heq|]. split; [exact V|]. split; [exact D|].
  destruct Hdq as [Hd|Hd]; rewrite Hd in Hcase.
  - change (53 - 53) with 0 in Hcase. rewrite Z.pow_0_r, Z.div_1_r in Hcase.
    destruct Hcase as [[-> Hv]|(-> & Hc & Hv)].
    + replace (E + 0 - E) with 0 by lia. rewrite Z.pow_0_r. lia.
    + replace (E + 0 + 1 - E) with 1 by lia. rewrite Hv.
      change (2 ^ 52 * 2 ^ 1) with (2 ^ 53). lia.
  - change (54 - 53) with 1 in Hcase. change (2 ^ 1) with 2 in Hcase.
    pose proof (Z.div_mod q 2 ltac:(lia)) as Hdm.
    pose proof (Z.mod_pos_bound q 2 ltac:(lia)) as Hmb.
    destruct Hcase as [[-> Hv]|(-> & Hc & Hv)].
    + replace (E + 1 - E) with 1 by lia. change (2 ^ 1) with 2. lia.
    + replace (E + 1 + 1 - E) with 2 by lia. rewrite Hv.
      change (2 ^ 52 * 2 ^ 2) with (2 * 2 ^ 53). lia.
Qed.

End DivFacts.

(** ** The fraction band *)

(** X9. A shutter built from a denominator prints that denominator:
    [Shutter(k)] is the double nearest to [1/k], and the formatter's
    rounded reciprocal of it is [k] again, for every [int] from 4 on. *)
Theorem Shutter_frac_round_trip (k : Z) :
  4 <= k <= Int.max_int ->
  Shutter_toString (Shutter_frac k) = Some (Fmt.int_width 7 k).
Proof.
  intros Hk. unfold Int.max_int in Hk.
  destruct (Z.eq_dec k 4) as [->|Hk4]; [vm_compute; reflexivity|].
  unfold Shutter_toString, Shutter_frac. cbn [time].
  (* the denominator as a double *)
  destruct (make_small k ltac:(lia)) as (mk & ek & Hmk & Vk & Hek & Dk & Hvk).
  unfold Double.of_int. rewrite Hmk.
  pose proof (digits2_bounds mk) as [Kl Ku]. rewrite Dk in Kl, Ku.
  change (53 - 1) with 52 in Kl.
  set (Pk := 2 ^ (- ek)) in *.
  assert (HPk : 0 < Pk) by (apply Z.pow_pos_nonneg; lia).
  assert (Hek1 : 21 < - ek).
  { apply pow2_lt_inv; [lia|]. fold Pk.
    change (2 ^ 52) with (2 ^ 31 * 2 ^ 21) in Kl. nia. }
  assert (Hek2 : - ek < 51).
  { apply pow2_lt_inv; [lia|]. fold Pk.
    change (2 ^ 53) with (4 * 2 ^ 51) in Ku. nia. }
  (* the time 1/k *)
  change Double.lit_1_0 with (S754_finite false 4503599627370496 (-52)).
  destruct (div_pos_normal 4503599627370496 (-52) mk ek eq_refl Dk
              ltac:(lia) ltac:(lia))
    as (mx & ex & Hx & Vx & Dx & Hex & HVx).
  rewrite Hx.
  change (Zpos 4503599627370496 * 2 ^ 53) with (2 ^ 105) in HVx.
  set (E1 := -52 - ek - 53) in *.
  set (q1 := 2 ^ 105 / Zpos mk) in *.
  set (J1 := 2 ^ (ex - E1)) in *.
  assert (HJ1 : 1 <= J1 <= 4).
  { unfold J1. split.
    - change 1 with (2 ^ 0). apply Z.pow_le_mono_r; lia.
    - change 4 with (2 ^ 2). apply Z.pow_le_mono_r; lia. }
  pose proof (digits2_bounds mx) as [Xl Xu]. rewrite Dx in Xl, Xu.
  change (53 - 1) with 52 in Xl.
  assert (Hq1 : q1 * Zpos mk <= 2 ^ 105 < (q1 + 1) * Zpos mk).
  { unfold q1. pose proof (Z.div_mod (2 ^ 105) (Zpos mk) ltac:(lia)).
    pose proof (Z.mod_pos_bound (2 ^ 105) (Zpos mk) ltac:(lia)). nia. }
  set (W := 2 ^ (103 + ek)).
  assert (HW : 2 ^ 52 <= W).
  { unfold W. apply Z.pow_le_mono_r; lia. }
  assert (H105 : 2 ^ 105 = 4 * W * Pk).
  { unfold W, Pk. change 4 with (2 ^ 2).
    rewrite <- !Z.pow_add_r by lia. f_equal. lia. }
  assert (Hx25 : Double.leb (S754_finite false mx ex) Double.lit_0_25 = true).
  { change Double.lit_0_25 with (S754_finite false 4503599627370496 (-54)).
    rewrite leb_finite_pos by (assumption || reflexivity).
    apply Z.leb_le.
    assert (S1 : 2 ^ (ex + 1074) = J1 * 2 ^ (E1 + 1074)).
    { unfold J1. rewrite <- Z.pow_add_r by (unfold E1; lia). f_equal. lia. }
    assert (S2 : 4503599627370496 * 2 ^ (-54 + 1074) = W * 2 ^ (E1 + 1074)).
    { change (4503599627370496 * 2 ^ (-54 + 1074)) with (2 ^ 1072).
      unfold W. rewrite <- Z.pow_add_r by (unfold E1; lia).
      f_equal. unfold E1. lia. }
    rewrite S1, S2.
    assert (0 < 2 ^ (E1 + 1074)) by (apply Z.pow_pos_nonneg; unfold E1; lia).
    assert (Zpos mx * J1 <= W); [|nia].
    assert (q1 * k <= 4 * W) by (rewrite Hvk, H105 in Hq1; nia).
    assert (5 * q1 <= 4 * W) by nia.
    change (2 ^ 52) with 4503599627370496 in HW. lia. }
  (* its reciprocal *)
  destruct (div_pos_normal 4503599627370496 (-52) mx ex eq_refl Dx
              ltac:(unfold E1 in Hex; lia) ltac:(unfold E1 in Hex; lia))
    as (my & ey & Hy & Vy & Dy & Hey & HVy).
  change (Zpos 4503599627370496 * 2 ^ 53) with (2 ^ 105) in HVy.
  set (E2 := -52 - ex - 53) in *.
  set (q2 := 2 ^ 105 / Zpos mx) in *.
  set (J2 := 2 ^ (ey - E2)) in *.
  assert (HJ2 : 0 < J2) by (apply Z.pow_pos_nonneg; lia).
  assert (Hq2 : q2 * Zpos mx <= 2 ^ 105 < (q2 + 1) * Zpos mx).
  { unfold q2. pose proof (Z.div_mod (2 ^ 105) (Zpos mx) ltac:(lia)).
    pose proof (Z.mod_pos_bound (2 ^ 105) (Zpos mx) ltac:(lia)). nia. }
  set (G := 2 ^ (- E2)).
  assert (HG : G = Pk * J1).
  { unfold G, Pk, J1. rewrite <- Z.pow_add_r by (unfold E1 in *; lia).
    f_equal. unfold E2, E1. lia. }
  assert (HG12 : 2 ^ 22 <= G).
  { rewrite HG. assert (2 ^ 22 <= Pk) by (apply Z.pow_le_mono_r; lia). nia. }
  set (P := 2 ^ (- ey)).
  assert (HP : 0 < P) by (apply Z.pow_pos_nonneg; unfold E2, E1 in *; lia).
  assert (HGP : G = P * J2).
  { unfold G, P, J2. rewrite <- Z.pow_add_r by (unfold E2, E1 in *; lia).
    f_equal. lia. }
  (* the quotient is within six units of k at the scale G *)
  set (Vy' := Zpos my * J2) in *.
  assert (HkG : k * G = Zpos mk * J1) by (rewrite HG, Hvk; ring).
  assert (Hclose : k * G - 6 <= Vy' <= k * G + 6).
  { rewrite HkG.
    assert (A1 : Zpos mx * J1 * Zpos mk <= 2 ^ 105 + 2 * Zpos mk) by nia.
    assert (A2 : 2 ^ 105 - 2 * Zpos mk <= Zpos mx * J1 * Zpos mk) by nia.
    assert (B1 : Vy' * Zpos mx <= 2 ^ 105 + 2 * Zpos mx) by nia.
    assert (B2 : 2 ^ 105 - 2 * Zpos mx <= Vy' * Zpos mx) by nia.
    assert (C : Zpos mk <= 2 * Zpos mx)
      by (change (2 ^ 53) with (2 * 2 ^ 52) in Ku; lia).
    assert (D1 : Zpos mx * (Vy' - Zpos mk * J1) <= 6 * Zpos mx) by nia.
    assert (D2 : - (6 * Zpos mx) <= Zpos mx * (Vy' - Zpos mk * J1)) by nia.
    split; nia. }
  assert (Hround : (2 * k - 1) * P <= 2 * Zpos my < (2 * k + 1) * P).
  { change (2 ^ 22) with 4194304 in HG12.
    assert ((2 * k - 1) * G <= 2 * Vy' < (2 * k + 1) * G) by nia.
    unfold Vy' in H. rewrite HGP in H. nia. }
  unfold doubleToString. rewrite Hx25.
  change Double.lit_1_0 with (S754_finite false 4503599627370496 (-52)).
  rewrite Hy.
  unfold Double.round.
  replace (0 <=? ey) with false
    by (symmetry; apply Z.leb_gt; unfold E2, E1 in *; lia).
  cbn [cond_Zopp]. fold P.
  assert (HT : Z.shiftl (2 * Zpos my + P) (ey - 1) = k).
  { rewrite Z.shiftl_div_pow2 by (unfold E2, E1 in *; lia).
    replace (2 ^ (- (ey - 1))) with (2 * P)
      by (unfold P; rewrite <- Z.pow_succ_r by (unfold E2, E1 in *; lia);
          f_equal; lia).
    symmetry. apply Z.div_unique with (2 * Zpos my + P - 2 * P * k); lia. }
  rewrite HT.
  rewrite to_int_make by (unfold Int.max_int; lia).
  reflexivity.
Qed.

(** 1/4000 s. *)
Lemma Shutter_frac_round_trip_witness :
  4 <= 4000 <= Int.max_int
  /\ Shutter_toString (Shutter_frac 4000) = Some "   4000".
Proof.
  assert (H : 4 <= 4000 <= Int.max_int) by (unfold Int.max_int; lia).
  split; [exact H|]. exact (Shutter_frac_round_trip 4000 H).
Defined.

(** X5. The fraction band. For every double from [2^-30] up to 0.25 the
    formatter returns an integer [n] of at least 4 in a field of seven
    columns, and [n] is the reciprocal of the argument rounded to the
    nearest integer, up to the one rounding of the division: with [u] the
    argument in units of [2^-1074], [2^1075 / u] lies within
    [1 + 2^-51] of [2 * n]. *)
Theorem fraction_band (input : Double.double) :
  Double.valid input = true ->
  Double.leb (Double.make 1 (-30)) input = true ->
  Double.leb input Double.lit_0_25 = true ->
  exists u n,
    Double.units input = Some u
    /\ 2 ^ 1044 <= u <= 2 ^ 1072
    /\ Double.to_int (Double.round (Double.div Double.lit_1_0 input)) = Some n
    /\ 4 <= n <= 2 ^ 30
    /\ (2 * n - 1) * u <= 2 ^ 1075 + 2 ^ 1024
    /\ 2 ^ 1075 - 2 ^ 1024 < (2 * n + 1) * u
    /\ doubleToString input = Some (Fmt.int_width 7 n).
Proof.
  intros V Hlo Hhi.
  change (Double.make 1 (-30))
    with (S754_finite false 4503599627370496 (-82)) in Hlo.
  destruct input as [s|s| |s m e]; try discriminate;
    try (destruct s; discriminate).
  destruct s; [discriminate|].
  pose proof Hhi as Hhi'.
  change Double.lit_0_25 with (S754_finite false 4503599627370496 (-54)) in Hhi.
  rewrite leb_finite_pos in Hlo by (assumption || reflexivity).
  rewrite leb_finite_pos in Hhi by (assumption || reflexivity).
  apply Z.leb_le in Hlo, Hhi.
  change (4503599627370496 * 2 ^ (-82 + 1074)) with (2 ^ 1044) in Hlo.
  change (4503599627370496 * 2 ^ (-54 + 1074)) with (2 ^ 1072) in Hhi.
  pose proof (valid_cases _ _ _ V) as [He Hd].
  pose proof (digits2_bounds m) as [Bl Bu].
  assert (U : Zpos m < 2 ^ 53).
  { eapply Z.lt_le_trans; [exact Bu|]. apply Z.pow_le_mono_r; lia. }
  (* the exponent *)
  assert (He1 : -83 < e).
  { destruct (Z_lt_le_dec (-83) e); [assumption|exfalso].
    assert (2 ^ (e + 1074) <= 2 ^ 991) by (apply Z.pow_le_mono_r; lia).
    assert (0 < 2 ^ (e + 1074)) by (apply Z.pow_pos_nonneg; lia).
    change (2 ^ 1044) with (2 ^ 53 * 2 ^ 991) in Hlo. nia. }
  assert (D : Zpos (digits2_pos m) = 53) by lia.
  rewrite D in Bl. change (53 - 1) with 52 in Bl.
  assert (He2 : e <= -54).
  { destruct (Z_le_gt_dec e (-54)); [assumption|exfalso].
    assert (2 ^ 1021 <= 2 ^ (e + 1074)) by (apply Z.pow_le_mono_r; lia).
    change (2 ^ 1072) with (2 ^ 51 * 2 ^ 1021) in Hhi.
    assert (0 < 2 ^ 1021) by (apply Z.pow_pos_nonneg; lia).
    change (2 ^ 52) with (2 * 2 ^ 51) in Bl. nia. }
  set (Q := 2 ^ (e + 1074)) in *.
  assert (HQ : 0 < Q) by (apply Z.pow_pos_nonneg; lia).
  (* the reciprocal *)
  change Double.lit_1_0 with (S754_finite false 4503599627370496 (-52)).
  destruct (div_pos_normal 4503599627370496 (-52) m e eq_refl D
              ltac:(lia) ltac:(lia))
    as (my & ey & Hy & Vy & Dy & Hey & HVy).
  change (Zpos 4503599627370496 * 2 ^ 53) with (2 ^ 105) in HVy.
  set (E2 := -52 - e - 53) in *.
  set (q2 := 2 ^ 105 / Zpos m) in *.
  set (J2 := 2 ^ (ey - E2)) in *.
  assert (HJ2 : 0 < J2) by (apply Z.pow_pos_nonneg; lia).
  assert (Hq2 : q2 * Zpos m <= 2 ^ 105 < (q2 + 1) * Zpos m).
  { unfold q2. pose proof (Z.div_mod (2 ^ 105) (Zpos m) ltac:(lia)).
    pose proof (Z.mod_pos_bound (2 ^ 105) (Zpos m) ltac:(lia)). nia. }
  set (G := 2 ^ (- E2)).
  assert (HG : 2 ^ 22 <= G <= 2 ^ 51).
  { unfold G, E2. split; apply Z.pow_le_mono_r; lia. }
  set (P := 2 ^ (- ey)).
  assert (HP : 0 < P) by (apply Z.pow_pos_nonneg; unfold E2 in *; lia).
  assert (HGP : G = P * J2).
  { unfold G, P, J2. rewrite <- Z.pow_add_r by (unfold E2 in *; lia).
    f_equal. lia. }
  (* the argument at the scale G: u = (G * m) * 2^969 *)
  set (T := 2 ^ 969).
  assert (HT0 : 0 < T) by (apply Z.pow_pos_nonneg; lia).
  assert (Hu : Zpos m * Q = G * Zpos m * T).
  { unfold Q, G, T, E2. rewrite (Z.mul_comm (2 ^ _) (Zpos m)).
    rewrite <- Z.mul_assoc. rewrite <- Z.pow_add_r by lia.
    f_equal. f_equal. lia. }
  assert (HB : G * Zpos m <= 2 ^ 103).
  { apply (Z.mul_le_mono_pos_r _ _ T HT0). rewrite <- Hu.
    change (2 ^ 103 * T) with (2 ^ 1072). exact Hhi. }
  assert (HC : 2 ^ 75 <= G * Zpos m).
  { apply (Z.mul_le_mono_pos_r _ _ T HT0). rewrite <- Hu.
    change (2 ^ 75 * T) with (2 ^ 1044). exact Hlo. }
  set (Vy' := Zpos my * J2) in *.
  assert (HV1 : Vy' * Zpos m <= 2 ^ 105 + 2 * Zpos m) by nia.
  assert (HV2 : 2 ^ 105 - 2 * Zpos m <= Vy' * Zpos m) by nia.
  set (n := (2 * Zpos my + P) / (2 * P)).
  assert (Hn : (2 * n - 1) * P <= 2 * Zpos my < (2 * n + 1) * P).
  { unfold n. pose proof (Z.div_mod (2 * Zpos my + P) (2 * P) ltac:(lia)).
    pose proof (Z.mod_pos_bound (2 * Zpos my + P) (2 * P) ltac:(lia)). nia. }
  assert (HnG : (2 * n - 1) * G <= 2 * Vy' < (2 * n + 1) * G).
  { unfold Vy'. rewrite HGP. nia. }
  change (2 ^ 22) with 4194304 in HG.
  assert (HVlo : 4 * G - 2 <= Vy').
  { assert (Zpos m * (4 * G - 2) <= Zpos m * Vy').
    { change (2 ^ 103) with (2 ^ 105 / 4) in HB.
      change (2 ^ 105 / 4) with 10141204801825835211973625643008 in HB.
      change (2 ^ 105) with 40564819207303340847894502572032 in HV2. lia. }
    apply Z.mul_le_mono_pos_l with (Zpos m); lia. }
  assert (HVhi : Vy' <= 2 ^ 30 * G + 2).
  { assert (Zpos m * Vy' <= Zpos m * (2 ^ 30 * G + 2)).
    { assert (2 ^ 105 <= 2 ^ 30 * (G * Zpos m)).
      { change (2 ^ 105) with (2 ^ 30 * 2 ^ 75). lia. }
      lia. }
    apply Z.mul_le_mono_pos_l with (Zpos m); lia. }
  assert (Hn4 : 4 <= n <= 2 ^ 30).
  { change (2 ^ 30) with 1073741824 in *. split; nia. }
  exists (Zpos m * Q), n.
  split; [reflexivity|]. split; [split; assumption|].
  assert (HT : Z.shiftl (2 * Zpos my + P) (ey - 1) = n).
  { rewrite Z.shiftl_div_pow2 by (unfold E2 in *; lia).
    replace (2 ^ (- (ey - 1))) with (2 * P)
      by (unfold P; rewrite <- Z.pow_succ_r by (unfold E2 in *; lia);
          f_equal; lia).
    reflexivity. }
  assert (Hto : Double.to_int
                  (Double.round
                     (Double.div (S754_finite false 4503599627370496 (-52))
                        (S754_finite false m e))) = Some n).
  { rewrite Hy. unfold Double.round.
    replace (0 <=? ey) with false
      by (symmetry; apply Z.leb_gt; unfold E2 in *; lia).
    cbn [cond_Zopp]. fold P. rewrite HT.
    apply to_int_make. unfold Int.max_int.
    change (2 ^ 30) with 1073741824 in Hn4. lia. }
  split; [exact Hto|]. split; [exact Hn4|].
  assert (Hm55 : 4 * Zpos m * T < 2 ^ 1024).
  { change (2 ^ 1024) with (4 * 2 ^ 53 * T).
    apply Z.mul_lt_mono_pos_r; [exact HT0|]. lia. }
  split; [|split].
  - rewrite Hu.
    assert ((2 * n - 1) * (G * Zpos m) <= 2 ^ 106 + 4 * Zpos m).
    { change (2 ^ 106) with (2 * 2 ^ 105). nia. }
    change (2 ^ 1075) with (2 ^ 106 * T).
    assert ((2 * n - 1) * (G * Zpos m) * T <= (2 ^ 106 + 4 * Zpos m) * T)
      by (apply Z.mul_le_mono_pos_r; assumption).
    lia.
  - rewrite Hu.
    assert (2 ^ 106 - 4 * Zpos m < (2 * n + 1) * (G * Zpos m)).
    { change (2 ^ 106) with (2 * 2 ^ 105). nia. }
    change (2 ^ 1075) with (2 ^ 106 * T).
    assert ((2 ^ 106 - 4 * Zpos m) * T < (2 * n + 1) * (G * Zpos m) * T)
      by (apply Z.mul_lt_mono_pos_r; assumption).
    lia.
  - unfold doubleToString. rewrite Hhi'.
    change Double.lit_1_0 with (S754_finite false 4503599627370496 (-52)).
    rewrite Hto. reflexivity.
Qed.

(** At 1/4000 s. *)
Lemma fraction_band_witness :
  Double.valid (time (Shutter_frac 4000)) = true
  /\ Double.leb (Double.make 1 (-30)) (time (Shutter_frac 4000)) = true
  /\ Double.leb (time (Shutter_frac 4000)) Double.lit_0_25 = true
  /\ exists n,
       4 <= n <= 2 ^ 30
       /\ doubleToString (time (Shutter_frac 4000)) = Some (Fmt.int_width 7 n).
Proof.
  assert (V : Double.valid (time (Shutter_frac 4000)) = true)
    by (vm_compute; reflexivity).
  assert (A : Double.leb (Double.make 1 (-30)) (time (Shutter_frac 4000)) = true)
    by (vm_compute; reflexivity).
  assert (B : Double.leb (time (Shutter_frac 4000)) Double.lit_0_25 = true)
    by (vm_compute; reflexivity).
  split; [exact V|]. split; [exact A|]. split; [exact B|].
  destruct (fraction_band (time (Shutter_frac 4000)) V A B)
    as (u & n & _ & _ & _ & Hn & _ & _ & Ho).
  exists n. split; [exact Hn | exact Ho].
Defined.
